(** * Large File Upload SDK: the upload orchestration engine

    A shallow embedding of [src/sdk/FileUploader.js] (class [FileUploader]):
    the retry executor [uploadWithRetry], the fingerprint provider
    [calculateMD5] / [calculateMD5Fallback], the chunk scheduler
    [uploadChunksWithConcurrency], the per-file state machine [processFile]
    and the orchestrator ([addFiles], [cancelUpload], [processQueue],
    [destroy]).

    JavaScript runs the class on one thread: code runs without interruption
    from one [await] to the next.  Each asynchronous function is therefore
    embedded as the sequence of its synchronous segments, and the record of
    where it is suspended is explicit state.  What the environment decides
    (how a [fetch] settles, when a timer fires, when the user calls a public
    method) is an [Event]; a run of the program is a list of events. *)

From stdpp Require Import base list strings pretty.
From Stdlib Require Import ZArith Lia Sorted SpecFloat.

Set Warnings "-clear-no-such-hyp,-level-tolerance".


Local Open Scope Z_scope.
Local Open Scope nat_scope.

(** ** JavaScript values shared by all components *)

(** A thrown value, as far as the code looks at it: [error.name] and
    [error.message]. *)
Record JsError := mkJsError { err_name : string; err_message : string }.

(** [new DOMException('Aborted', 'AbortError')]; also what [fetch] rejects
    with when its signal is aborted. *)
Definition AbortError : JsError := mkJsError "AbortError" "Aborted".

(** [new Error(msg)] *)
Definition Error (msg : string) : JsError := mkJsError "Error" msg.

(** [error.name === 'AbortError'] *)
Definition isAbortError (e : JsError) : bool := String.eqb (err_name e) "AbortError".

(** [new Error(`HTTP error! status: ${response.status}`)] *)
Definition http_error (status : nat) : JsError :=
  Error ("HTTP error! status: " +:+ pretty status).

(** A [fetch] response: [response.ok], [response.status] and the value
    [response.json()] resolves to. *)
Record Response (B : Type) := mkResponse { resp_ok : bool; resp_status : nat; resp_json : B }.
Arguments mkResponse {B} _ _ _.
Arguments resp_ok {B} _.
Arguments resp_status {B} _.
Arguments resp_json {B} _.

(** How an awaited promise settles. *)
Inductive Settled (A : Type) :=
| Fulfilled (v : A)
| RejectedWith (e : JsError).
Arguments Fulfilled {A} _.
Arguments RejectedWith {A} _.

(** ** Retry executor: [uploadWithRetry(fn, maxRetries, signal)] *)

Module Retry.
Section Retry.
Context {B : Type}.

(** The two places where [uploadWithRetry] is suspended. *)
Inductive Pc :=
| AwaitFn (i : nat)                         (* [await fn(signal)] of iteration [i] *)
| AwaitTimer (i : nat) (lastError : JsError). (* [await new Promise(setTimeout)] of iteration [i] *)

(** Result of running one synchronous segment. *)
Inductive Step :=
| Suspended (pc : Pc)
| Return (r : Response B)
| Throw (e : JsError).

(** [Math.min(1000 * Math.pow(2, i), 10000)], in milliseconds. *)
Definition backoff (i : nat) : Z := Z.min (1000 * 2 ^ Z.of_nat i) 10000.

(** Start of the loop body at iteration [i]: the cancellation check, then
    the call [fn(signal)]. *)
Definition iteration (aborted : bool) (i : nat) : Step :=
  if aborted then Throw AbortError else Suspended (AwaitFn i).

(** [i++] and the loop test [i <= maxRetries]; when the test fails the loop
    is left and [throw lastError] runs. *)
Definition for_next (maxRetries : nat) (aborted : bool) (i : nat) (lastError : JsError) : Step :=
  if S i <=? maxRetries then iteration aborted (S i) else Throw lastError.

(** The [catch (error)] block of iteration [i]. *)
Definition catch_attempt (maxRetries : nat) (aborted : bool) (i : nat) (error : JsError) : Step :=
  if isAbortError error then Throw error
  else (* lastError = error *)
    if i <? maxRetries then Suspended (AwaitTimer i error)
    else for_next maxRetries aborted i error.

(** Resumption after [await fn(signal)] settled. *)
Definition fn_settled (maxRetries : nat) (aborted : bool) (i : nat)
    (o : Settled (Response B)) : Step :=
  match o with
  | Fulfilled response =>
      if resp_ok response then Return response
      else catch_attempt maxRetries aborted i (http_error (resp_status response))
  | RejectedWith e => catch_attempt maxRetries aborted i e
  end.

(** Resumption after the backoff timer fired. *)
Definition timer_fired (maxRetries : nat) (aborted : bool) (i : nat) (lastError : JsError) : Step :=
  for_next maxRetries aborted i lastError.

(** [uploadWithRetry] up to its first suspension.  [let i = 0] passes the
    test [i <= maxRetries] for every natural [maxRetries], so [lastError]
    is assigned before [throw lastError] can run. *)
Definition start (aborted : bool) : Step := iteration aborted 0.

(** What the executor does to the outside world. *)
Inductive Act :=
| CallFn (i : nat)       (* [fn(signal)] is called in iteration [i] *)
| SetTimeout (ms : Z).   (* a backoff timer of [ms] milliseconds is armed *)

Definition acts_of (s : Step) : list Act :=
  match s with
  | Suspended (AwaitFn i) => [CallFn i]
  | Suspended (AwaitTimer i _) => [SetTimeout (backoff i)]
  | _ => []
  end.

(** The whole call against an environment: [fn i] is how the operation
    settles in iteration [i], [signal i] is [signal.aborted] when iteration
    [i] starts.  [None] only if [fuel] suspensions were not enough. *)
Fixpoint drive (fn : nat → Settled (Response B)) (signal : nat → bool) (maxRetries : nat)
    (fuel : nat) (s : Step) : option (Settled (Response B)) * list Act :=
  match s with
  | Return r => (Some (Fulfilled r), [])
  | Throw e => (Some (RejectedWith e), [])
  | Suspended pc =>
      match fuel with
      | 0 => (None, acts_of s)
      | S fuel' =>
          let s' := match pc with
                    | AwaitFn i => fn_settled maxRetries (signal (S i)) i (fn i)
                    | AwaitTimer i e => timer_fired maxRetries (signal (S i)) i e
                    end in
          let '(r, tr) := drive fn signal maxRetries fuel' s' in
          (r, acts_of s ++ tr)
      end
  end.

Definition uploadWithRetry (fn : nat → Settled (Response B)) (maxRetries : nat)
    (signal : nat → bool) : option (Settled (Response B)) * list Act :=
  drive fn signal maxRetries (2 * S maxRetries) (start (signal 0)).

(** The error iteration [i] leaves in [lastError] when it fails. *)
Definition failure (o : Settled (Response B)) : option JsError :=
  match o with
  | Fulfilled response => if resp_ok response then None else Some (http_error (resp_status response))
  | RejectedWith e => Some e
  end.

(** The operation is not cancelled: the signal never fires and no attempt
    ends in an [AbortError]. *)
Definition uncancelled (fn : nat → Settled (Response B)) (signal : nat → bool) : Prop :=
  (∀ i, signal i = false) ∧
  (∀ i e, fn i = RejectedWith e → isAbortError e = false).

(** [n] attempts with a backoff sleep between consecutive ones. *)
Fixpoint attempts_from (i n : nat) : list Act :=
  match n with
  | 0 => []
  | 1 => [CallFn i]
  | S n' => CallFn i :: SetTimeout (backoff i) :: attempts_from (S i) n'
  end.

Definition is_call (a : Act) : bool :=
  match a with CallFn _ => true | SetTimeout _ => false end.

(** Number of times the operation was attempted. *)
Definition calls (tr : list Act) : nat := length (List.filter is_call tr).

(** The timers armed, in order. *)
Definition sleeps (tr : list Act) : list Z :=
  omap (λ a, match a with SetTimeout ms => Some ms | CallFn _ => None end) tr.
End Retry.
Arguments Pc : clear implicits.
Arguments Step : clear implicits.
End Retry.

(** ** Files and the fingerprint provider *)

(** A browser [File]: its name and its bytes. *)
Record File := mkFile { file_name : string; file_bytes : list Byte.byte }.

(** [file.size] *)
Definition file_size (f : File) : N := N.of_nat (length (file_bytes f)).

(** [file.slice(start, end)] *)
Definition file_slice (f : File) (start end_ : N) : list Byte.byte :=
  take (N.to_nat (end_ - start)) (drop (N.to_nat start) (file_bytes f)).

(** [Math.ceil(a / b)] for non-negative integers with [0 < b]. *)
Definition Math_ceil_div (a b : N) : N := ((a + b - 1) / b)%N.

Module Fingerprint.
Section Fingerprint.
(** [SparkMD5.ArrayBuffer], loaded by the worker from a CDN: an incremental
    hasher.  The library is not part of the repository; it is a parameter. *)
Context {Spark : Type}.
Variable spark_new : Spark.
Variable spark_append : Spark → list Byte.byte → Spark.
Variable spark_end : Spark → string.

(** What the host decides during one call of [calculateMD5]. *)
Record Env := mkEnv {
  worker_defined : bool;          (* [typeof Worker !== 'undefined'] *)
  worker_created : bool;          (* building the Blob and [new Worker(url)] do not throw *)
  importScripts : option string;  (* [Some msg]: loading SparkMD5 throws an error with this message *)
  reader_error : nat → option string; (* [Some msg]: reading this chunk fires [reader.onerror] *)
  now : Z                         (* [Date.now()] when the fallback's timer fires *)
}.

(** The worker's [loadNextChunk], called with [currentChunk] chunks already
    appended.  [fuel] bounds the chunks still to read. *)
Fixpoint loadNextChunk (env : Env) (file : File) (chunkSize : N) (totalChunks : nat)
    (fuel : nat) (spark : Spark) (currentChunk : nat) : option (Settled string) :=
  let start := (N.of_nat currentChunk * chunkSize)%N in
  let end_ := N.min (start + chunkSize) (file_size file) in
  let chunk := file_slice file start end_ in
  match reader_error env currentChunk with
  | Some msg => Some (RejectedWith (Error ("Failed to read file chunk: " +:+ msg)))
  | None =>
      let spark := spark_append spark chunk in
      let currentChunk := S currentChunk in
      if currentChunk <? totalChunks then
        match fuel with
        | 0 => None
        | S fuel' => loadNextChunk env file chunkSize totalChunks fuel' spark currentChunk
        end
      else Some (Fulfilled (spark_end spark))
  end.

(** The worker's [onmessage] handler; the promise of [calculateMD5] settles
    with what the worker posts back. *)
Definition worker_onmessage (env : Env) (file : File) (chunkSize : N) : option (Settled string) :=
  match importScripts env with
  | Some msg => Some (RejectedWith (Error ("Worker error: " +:+ msg)))
  | None =>
      let totalChunks := N.to_nat (Math_ceil_div (file_size file) chunkSize) in
      loadNextChunk env file chunkSize totalChunks totalChunks spark_new 0
  end.

(** [calculateMD5Fallback(file)]: resolves with
    ['md5-' + Date.now() + '-' + file.name]. *)
Definition calculateMD5Fallback (env : Env) (file : File) : Settled string :=
  Fulfilled ("md5-" +:+ pretty (now env) +:+ "-" +:+ file_name file).

(** [calculateMD5(file)] *)
Definition calculateMD5 (env : Env) (chunkSize : N) (file : File) : option (Settled string) :=
  if worker_defined env then
    if worker_created env then worker_onmessage env file chunkSize
    else Some (calculateMD5Fallback env file)
  else Some (calculateMD5Fallback env file).
End Fingerprint.
End Fingerprint.

(** ** The data model *)

(** [fileItem.status] *)
Inductive Status := pending | checking | uploading | merging | success | error | cancelled.

Global Instance Status_eq_dec : EqDecision Status.
Proof. solve_decision. Defined.

Definition terminal (s : Status) : bool :=
  match s with success | error | cancelled => true | _ => false end.

(** The object [addFiles] creates for a file.  Arrays keep their order and
    their duplicates; [md5] and [error] are absent until assigned. *)
Module Item.
Record t := mk {
  id : nat;
  file : File;
  status : Status;
  progress : Z;
  name : string;
  size : N;
  uploadedChunks : list nat;
  totalChunks : nat;
  md5 : option string;
  error : option string
}.

Definition set_status (s : Status) (it : t) : t :=
  mk (id it) (file it) s (progress it) (name it) (size it)
     (uploadedChunks it) (totalChunks it) (md5 it) (error it).
Definition set_progress (p : Z) (it : t) : t :=
  mk (id it) (file it) (status it) p (name it) (size it)
     (uploadedChunks it) (totalChunks it) (md5 it) (error it).
Definition set_uploadedChunks (l : list nat) (it : t) : t :=
  mk (id it) (file it) (status it) (progress it) (name it) (size it)
     l (totalChunks it) (md5 it) (error it).
Definition set_md5 (m : string) (it : t) : t :=
  mk (id it) (file it) (status it) (progress it) (name it) (size it)
     (uploadedChunks it) (totalChunks it) (Some m) (error it).
Definition set_error (m : string) (it : t) : t :=
  mk (id it) (file it) (status it) (progress it) (name it) (size it)
     (uploadedChunks it) (totalChunks it) (md5 it) (Some m).
End Item.

(** JSON body of the check endpoint: [{exists, path, uploadedChunks}]. *)
Module CheckResult.
Record t := mk { exists_ : bool; path : option string; uploadedChunks : list nat }.
End CheckResult.

(** JSON body of the merge endpoint: [{success, path}]. *)
Module MergeResult.
Record t := mk { success : bool; path : option string }.
End MergeResult.

(** JavaScript numbers are IEEE 754 doubles: [binary64], with 53 bits of
    precision, rounded to nearest, ties to even. *)
Definition double := spec_float.

(** A count as a double (exact below [2^53]). *)
Definition double_of_nat (n : nat) : double :=
  binary_normalize 53 1024 (Z.of_nat n) 0 false.

Definition double_div (x y : double) : double := SFdiv 53 1024 x y.
Definition double_mul (x y : double) : double := SFmul 53 1024 x y.

(** [Math.round(x)]: the integer nearest to [x], a half rounded towards
    [+Infinity], that is [floor(x + 1/2)] taken exactly; [None] for [NaN]
    and the infinities, which it returns as they are. *)
Definition Math_round (x : double) : option Z :=
  match x with
  | S754_zero _ => Some 0%Z
  | S754_finite s m (Zneg k) =>
      Some ((cond_Zopp s (Zpos m) + 2 ^ (Zpos k - 1)) / 2 ^ Zpos k)%Z
  | S754_finite s m e => Some (cond_Zopp s (Zpos m) * 2 ^ e)%Z
  | S754_infinity _ | S754_nan => None
  end.

(** [Math.round((n / total) * 100)], computed in doubles as the source
    does: the quotient is rounded to a double, so is the product, and
    [Math.round] is applied to that; so [percent 23 40] is 57, the product
    being [57.49999999999999].  With [total = 0] the source would get [NaN]
    or [Infinity], for which 0 stands here; it divides only after a chunk
    of the file was uploaded, and a file without chunks has none. *)
Definition percent (n total : nat) : Z :=
  match Math_round (double_mul (double_div (double_of_nat n) (double_of_nat total))
                               (double_of_nat 100)) with
  | Some z => z
  | None => 0%Z
  end.

Arguments percent : simpl never.

(** ** Configuration *)

(** The constructor's [options]; [None] is a property left [undefined]. *)
Record Options := mkOptions {
  opt_checkEndpoint : option string;
  opt_chunkEndpoint : option string;
  opt_mergeEndpoint : option string;
  opt_chunkSize : option N;
  opt_concurrentFiles : option nat;
  opt_concurrentChunks : option nat;
  opt_maxRetries : option nat
}.

Record Config := mkConfig {
  checkEndpoint : string;
  chunkEndpoint : string;
  mergeEndpoint : string;
  chunkSize : N;
  concurrentFiles : nat;
  concurrentChunks : nat;
  maxRetries : nat
}.

(** [x || d] for a count: [undefined] and [0] are falsy. *)
Definition or_nat (x : option nat) (d : nat) : nat :=
  match x with Some (S n) => S n | _ => d end.

Definition or_N (x : option N) (d : N) : N :=
  match x with Some (Npos p) => Npos p | _ => d end.

(** [!s] for an endpoint: [undefined] and the empty string are falsy. *)
Definition truthy_string (s : option string) : option string :=
  match s with Some (String c r) => Some (String c r) | _ => None end.

(** The configuration part of [constructor(options)]. *)
Definition configure (options : Options) : JsError + Config :=
  match truthy_string (opt_checkEndpoint options),
        truthy_string (opt_chunkEndpoint options),
        truthy_string (opt_mergeEndpoint options) with
  | Some c, Some k, Some m =>
      inr (mkConfig c k m
             (or_N (opt_chunkSize options) (2 * 1024 * 1024)%N)
             (or_nat (opt_concurrentFiles options) 3)
             (or_nat (opt_concurrentChunks options) 3)
             (or_nat (opt_maxRetries options) 3))
  | _, _, _ =>
      inl (Error "All API endpoints (checkEndpoint, chunkEndpoint, mergeEndpoint) must be provided / 所有API端点（checkEndpoint、chunkEndpoint、mergeEndpoint）都必须提供")
  end.

(** ** One file: [processFile] and [uploadChunksWithConcurrency] *)

(** One of the [concurrentChunks] async workers of
    [uploadChunksWithConcurrency]. *)
Inductive Worker :=
| Busy (chunkIndex : nat) (pc : Retry.Pc)  (* in [uploadChunk(chunkIndex)], suspended in [uploadWithRetry] *)
| Finished                                 (* its promise is fulfilled *)
| Failed (e : JsError).                    (* its promise is rejected *)

(** Where [processFile(fileItem)] is suspended. *)
Inductive Pc :=
| NotStarted     (* not called yet *)
| AwaitMD5       (* [await this.calculateMD5(...)] *)
| AwaitCheck     (* [await this.checkFile(...)] *)
| AwaitWorkers   (* [await this.uploadChunksWithConcurrency(...)], i.e. [Promise.all(workers)] *)
| AwaitMerge     (* [await this.mergeFile(...)], on either path *)
| Done.          (* its promise is settled *)

Definition in_flight (p : Pc) : bool :=
  match p with AwaitMD5 | AwaitCheck | AwaitWorkers | AwaitMerge => true | NotStarted | Done => false end.

(** A [fileItem] together with everything that belongs to its
    [processFile] call: the [AbortController] made for it, its entry in the
    Map [this.abortControllers] (keys are ids, so the Map is one flag per
    item), and the variables the workers share. *)
Record Task := mkTask {
  item : Item.t;
  pc : Pc;
  aborted : bool;             (* [abortController.signal.aborted] *)
  registered : bool;          (* [this.abortControllers.has(fileItem.id)] *)
  chunksToUpload : list nat;
  index : nat;                (* the cursor [index] shared by the workers *)
  workers : list Worker
}.

Definition with_item (x : Item.t) (t : Task) : Task :=
  mkTask x (pc t) (aborted t) (registered t) (chunksToUpload t) (index t) (workers t).
Definition with_pc (x : Pc) (t : Task) : Task :=
  mkTask (item t) x (aborted t) (registered t) (chunksToUpload t) (index t) (workers t).
Definition with_aborted (x : bool) (t : Task) : Task :=
  mkTask (item t) (pc t) x (registered t) (chunksToUpload t) (index t) (workers t).
Definition with_registered (x : bool) (t : Task) : Task :=
  mkTask (item t) (pc t) (aborted t) x (chunksToUpload t) (index t) (workers t).
Definition with_chunksToUpload (x : list nat) (t : Task) : Task :=
  mkTask (item t) (pc t) (aborted t) (registered t) x (index t) (workers t).
Definition with_index (x : nat) (t : Task) : Task :=
  mkTask (item t) (pc t) (aborted t) (registered t) (chunksToUpload t) x (workers t).
Definition with_workers (x : list Worker) (t : Task) : Task :=
  mkTask (item t) (pc t) (aborted t) (registered t) (chunksToUpload t) (index t) x.

(** What the uploader does to the outside world. *)
Inductive Action :=
| UpdateFileStatus (fileItem : Item.t)  (* [this.updateFileStatus(fileItem)], with the item as it is then *)
| FetchCheck (id : nat) (md5 : option string) (filename : string)
| FetchChunk (id : nat) (chunkIndex : nat) (attempt : nat)
| FetchMerge (id : nat) (md5 : option string) (filename : string) (totalChunks : nat)
| SetTimeout (id : nat) (ms : Z).

(** The file an action belongs to. *)
Definition action_id (a : Action) : nat :=
  match a with
  | UpdateFileStatus it => Item.id it
  | FetchCheck id _ _ | FetchChunk id _ _ | FetchMerge id _ _ _ | SetTimeout id _ => id
  end.

Section PerFile.
Variable cfg : Config.

(** [addFiles]: the object made for [file]; ids are taken fresh (the source
    draws them from the clock and [Math.random()]). *)
Definition new_item (id : nat) (file : File) : Item.t :=
  Item.mk id file pending 0 (file_name file) (file_size file) []
    (N.to_nat (Math_ceil_div (file_size file) (chunkSize cfg))) None None.

Definition new_task (id : nat) (file : File) : Task :=
  mkTask (new_item id file) NotStarted false false [] 0 [].

(** The [catch (error)] block of [processFile]; its promise settles. *)
Definition catch_block (e : JsError) (t : Task) : Task * list Action :=
  let it := if isAbortError e then Item.set_status cancelled (item t)
            else Item.set_error (err_message e) (Item.set_status error (item t)) in
  (with_pc Done (with_registered false (with_item it t)), [UpdateFileStatus it]).

(** [status = 'success'; progress = 100; updateFileStatus; delete; return] *)
Definition finish_success (t : Task) : Task * list Action :=
  let it := Item.set_progress 100 (Item.set_status success (item t)) in
  (with_pc Done (with_registered false (with_item it t)), [UpdateFileStatus it]).

(** [await this.checkFile(md5, name, signal)] up to the suspension: a
    [fetch] on an aborted signal rejects at once, without a request. *)
Definition call_checkFile (t : Task) : Task * list Action :=
  if aborted t then catch_block AbortError t
  else (with_pc AwaitCheck t,
        [FetchCheck (Item.id (item t)) (Item.md5 (item t)) (file_name (Item.file (item t)))]).

(** [await this.mergeFile(md5, name, totalChunks, signal)], likewise. *)
Definition call_mergeFile (t : Task) : Task * list Action :=
  if aborted t then catch_block AbortError t
  else (with_pc AwaitMerge t,
        [FetchMerge (Item.id (item t)) (Item.md5 (item t)) (file_name (Item.file (item t)))
           (Item.totalChunks (item t))]).

(** [processFile(fileItem)] from its start to [await this.calculateMD5]. *)
Definition processFile_start (t : Task) : Task * list Action :=
  let it := Item.set_status checking (item t) in
  (with_pc AwaitMD5 (with_item it (with_registered true (with_aborted false t))),
   [UpdateFileStatus it]).

(** A segment of [uploadWithRetry] ended inside [uploadChunk(c)]: the
    worker it leaves behind and what it did, when it did not return. *)
Definition suspend_worker (id c : nat) (s : Retry.Step unit) : Worker * list Action :=
  match s with
  | Retry.Suspended (Retry.AwaitFn i) => (Busy c (Retry.AwaitFn i), [FetchChunk id c i])
  | Retry.Suspended (Retry.AwaitTimer i e) =>
      (Busy c (Retry.AwaitTimer i e), [SetTimeout id (Retry.backoff i)])
  | Retry.Throw e => (Failed e, [])
  | Retry.Return _ => (Finished, [])
  end.

(** [uploadChunk(chunkIndex)] from its start to the first [fetch]. *)
Definition uploadChunk_start (t : Task) (chunkIndex : nat) : Worker * list Action :=
  if aborted t then (Failed AbortError, [])
  else suspend_worker (Item.id (item t)) chunkIndex (Retry.start (aborted t)).

(** Head of a worker's loop,
    [while (index < chunksToUpload.length && !signal.aborted)], up to the
    suspension inside [uploadChunk] ([index] is in range exactly when the
    lookup succeeds). *)
Definition worker_loop (t : Task) : Task * Worker * list Action :=
  match chunksToUpload t !! index t with
  | Some chunkIndex =>
      if aborted t then (t, Finished, [])
      else
        let t := with_index (S (index t)) t in
        let '(w, a) := uploadChunk_start t chunkIndex in (t, w, a)
  | None => (t, Finished, [])
  end.

Definition set_worker (w : nat) (x : Worker) (t : Task) : Task :=
  with_workers (<[w := x]> (workers t)) t.

(** Worker [w] resumes in [uploadChunk(c)] with the outcome [s] of the
    segment of [uploadWithRetry] that just ran. *)
Definition worker_resume (w c : nat) (s : Retry.Step unit) (t : Task) : Task * list Action :=
  match s with
  | Retry.Return _ =>
      (* fileItem.uploadedChunks.push(chunkIndex); progress; updateFileStatus *)
      let up := Item.uploadedChunks (item t) ++ [c] in
      let it := Item.set_progress (percent (length up) (Item.totalChunks (item t)))
                  (Item.set_uploadedChunks up (item t)) in
      let '(t, x, a) := worker_loop (with_item it t) in
      (set_worker w x t, UpdateFileStatus it :: a)
  | _ =>
      let '(x, a) := suspend_worker (Item.id (item t)) c s in (set_worker w x t, a)
  end.

(** The [fetch] of worker [w] settled. *)
Definition chunk_settled (w : nat) (r : Settled (Response unit)) (t : Task) : Task * list Action :=
  match workers t !! w with
  | Some (Busy c (Retry.AwaitFn i)) =>
      worker_resume w c (Retry.fn_settled (maxRetries cfg) (aborted t) i r) t
  | _ => (t, [])
  end.

(** The backoff timer of worker [w] fired. *)
Definition timer_fired (w : nat) (t : Task) : Task * list Action :=
  match workers t !! w with
  | Some (Busy c (Retry.AwaitTimer i e)) =>
      worker_resume w c (Retry.timer_fired (maxRetries cfg) (aborted t) i e) t
  | _ => (t, [])
  end.

(** State of [Promise.all(workers)]. *)
Inductive PromiseAll := AllPending | AllFulfilled | AllRejected (e : JsError).

Fixpoint first_failed (ws : list Worker) : option JsError :=
  match ws with
  | [] => None
  | Failed e :: _ => Some e
  | _ :: ws => first_failed ws
  end.

Definition is_finished (w : Worker) : bool :=
  match w with Finished => true | _ => false end.

Definition promise_all (ws : list Worker) : PromiseAll :=
  match first_failed ws with
  | Some e => AllRejected e
  | None => if forallb is_finished ws then AllFulfilled else AllPending
  end.

(** [processFile] resumes from [await this.uploadChunksWithConcurrency(...)]
    once [Promise.all(workers)] is settled; after it settled itself, workers
    that still run have nobody waiting for them. *)
Definition after_workers (t : Task) : Task * list Action :=
  match pc t with
  | AwaitWorkers =>
      match promise_all (workers t) with
      | AllPending => (t, [])
      | AllRejected e => catch_block e t
      | AllFulfilled =>
          if aborted t then catch_block AbortError t
          else
            let it := Item.set_status merging (item t) in
            let '(t, a) := call_mergeFile (with_item it t) in
            (t, UpdateFileStatus it :: a)
      end
  | _ => (t, [])
  end.

(** [Array.from({ length: concurrentChunks }, async () => ...)]: the
    workers start one after the other, each running to its first [fetch]. *)
Fixpoint spawn_workers (n : nat) (t : Task) : Task * list Action :=
  match n with
  | 0 => (t, [])
  | S n =>
      let '(t, x, a) := worker_loop t in
      let '(t, b) := spawn_workers n (with_workers (workers t ++ [x]) t) in
      (t, a ++ b)
  end.

(** [uploadChunksWithConcurrency(fileItem, chunksToUpload, signal)] up to
    [await Promise.all(workers)]. *)
Definition uploadChunksWithConcurrency (chunks : list nat) (t : Task) : Task * list Action :=
  let t := with_workers [] (with_index 0 (with_chunksToUpload chunks t)) in
  let '(t, a) := spawn_workers (concurrentChunks cfg) t in
  let '(t, b) := after_workers (with_pc AwaitWorkers t) in
  (t, a ++ b).

(** [calculateMD5] settled. *)
Definition md5_settled (r : Settled string) (t : Task) : Task * list Action :=
  match pc t with
  | AwaitMD5 =>
      match r with
      | Fulfilled md5 => call_checkFile (with_item (Item.set_md5 md5 (item t)) t)
      | RejectedWith e => catch_block e t
      end
  | _ => (t, [])
  end.

(** The [fetch] of [checkFile] settled ([RejectedWith] also stands for a
    body that is not JSON). *)
Definition check_settled (r : Settled (Response CheckResult.t)) (t : Task) : Task * list Action :=
  match pc t with
  | AwaitCheck =>
      match r with
      | RejectedWith e => catch_block e t
      | Fulfilled response =>
          if negb (resp_ok response) then catch_block (http_error (resp_status response)) t
          else
            let checkResult := resp_json response in
            if CheckResult.exists_ checkResult then finish_success t
            else
              let chunks :=
                filter (λ i, i ∉ CheckResult.uploadedChunks checkResult)
                       (seq 0 (Item.totalChunks (item t))) in
              let t := with_item
                         (Item.set_uploadedChunks (CheckResult.uploadedChunks checkResult) (item t)) t in
              match chunks with
              | [] => call_mergeFile t
              | _ :: _ =>
                  let it := Item.set_status uploading (item t) in
                  let '(t, a) := uploadChunksWithConcurrency chunks (with_item it t) in
                  (t, UpdateFileStatus it :: a)
              end
      end
  | _ => (t, [])
  end.

(** The [fetch] of [mergeFile] settled; the JSON body it resolves to is
    returned to [processFile], which does not look at it. *)
Definition merge_settled (r : Settled (Response MergeResult.t)) (t : Task) : Task * list Action :=
  match pc t with
  | AwaitMerge =>
      match r with
      | RejectedWith e => catch_block e t
      | Fulfilled response =>
          if negb (resp_ok response) then catch_block (http_error (resp_status response)) t
          else finish_success t
      end
  | _ => (t, [])
  end.

(** A worker event followed by the reaction of [Promise.all]. *)
Definition then_after_workers (f : Task → Task * list Action) (t : Task) : Task * list Action :=
  let '(t, a) := f t in
  let '(t, b) := after_workers t in
  (t, a ++ b).

(** After [abortController.abort()]: every pending [fetch] of the task
    rejects with an [AbortError]; timers and the MD5 computation go on. *)
Definition abort_reactions (t : Task) : Task * list Action :=
  match pc t with
  | AwaitCheck | AwaitMerge => catch_block AbortError t
  | AwaitWorkers =>
      then_after_workers
        (λ t, foldl (λ '(t, a) w,
                       let '(t, b) := chunk_settled w (RejectedWith AbortError) t in (t, a ++ b))
                    (t, []) (seq 0 (length (workers t)))) t
  | _ => (t, [])
  end.

(** The part of [cancelUpload] that touches the item found. *)
Definition cancelUpload_item (t : Task) : Task * list Action :=
  match Item.status (item t) with
  | pending =>
      let it := Item.set_status cancelled (item t) in
      (with_item it t, [UpdateFileStatus it])
  | checking | uploading | merging =>
      let it := Item.set_status cancelled (item t) in
      if registered t then
        let '(t, a) := abort_reactions (with_item it (with_registered false (with_aborted true t))) in
        (t, UpdateFileStatus it :: a)
      else (with_item it t, [UpdateFileStatus it])
  | _ => (t, [])
  end.

(** The part of [destroy] that touches one entry of the Map. *)
Definition destroy_item (t : Task) : Task * list Action :=
  if registered t then abort_reactions (with_registered false (with_aborted true t))
  else (t, []).
End PerFile.

(** ** The orchestrator *)

(** An instance of [FileUploader].  Items are objects shared by
    [this.files], [this.uploadQueue] and the running [processFile] calls:
    they live in [heap], and the two arrays hold their addresses.  An item's
    address is its id. *)
Record Uploader := mkUploader {
  config : Config;
  uploadQueue : list nat;
  uploadingCount : nat;
  files : list nat;
  heap : list Task
}.

Definition with_uploadQueue (x : list nat) (u : Uploader) : Uploader :=
  mkUploader (config u) x (uploadingCount u) (files u) (heap u).
Definition with_uploadingCount (x : nat) (u : Uploader) : Uploader :=
  mkUploader (config u) (uploadQueue u) x (files u) (heap u).
Definition with_files (x : list nat) (u : Uploader) : Uploader :=
  mkUploader (config u) (uploadQueue u) (uploadingCount u) x (heap u).
Definition with_heap (x : list Task) (u : Uploader) : Uploader :=
  mkUploader (config u) (uploadQueue u) (uploadingCount u) (files u) x.

(** [new FileUploader(options)] *)
Definition constructor (options : Options) : JsError + Uploader :=
  match configure options with
  | inl e => inl e
  | inr cfg => inr (mkUploader cfg [] 0 [] [])
  end.

(** The loop of [processQueue()], over the queue as it is when the call
    starts: [processFile] always suspends (at the MD5 computation) before it
    can settle, so nothing else touches the queue or the count meanwhile. *)
Fixpoint processQueue_loop (queue : list nat) (u : Uploader) : Uploader * list Action :=
  match queue with
  | [] => (with_uploadQueue [] u, [])
  | id :: rest =>
      if uploadingCount u <? concurrentFiles (config u) then
        (* const fileItem = this.uploadQueue.shift() *)
        let u := with_uploadQueue rest u in
        match heap u !! id with
        | Some t =>
            (* this.uploadingCount++; this.processFile(fileItem) *)
            let u := with_uploadingCount (S (uploadingCount u)) u in
            let '(t, a) := processFile_start t in
            let '(u, b) := processQueue_loop rest (with_heap (<[id := t]> (heap u)) u) in
            (u, a ++ b)
        | None => processQueue_loop rest u
        end
      else (with_uploadQueue queue u, [])
  end.

Definition processQueue (u : Uploader) : Uploader * list Action :=
  processQueue_loop (uploadQueue u) u.

(** A step of the [processFile] call of item [id]; when the call settles,
    the callback given to [.finally] runs. *)
Definition on_task (id : nat) (f : Task → Task * list Action) (u : Uploader)
    : Uploader * list Action :=
  match heap u !! id with
  | None => (u, [])
  | Some t =>
      let '(t', a) := f t in
      let u := with_heap (<[id := t']> (heap u)) u in
      if in_flight (pc t) && negb (in_flight (pc t')) then
        (* this.uploadingCount--; this.processQueue() *)
        let '(u, b) := processQueue (with_uploadingCount (pred (uploadingCount u)) u) in
        (u, a ++ b)
      else (u, a)
  end.

(** [addFiles(fileList)] *)
Definition addFiles (fileList : list File) (u : Uploader) : Uploader * list Action :=
  let base := length (heap u) in
  let newFiles := imap (λ k file, new_task (config u) (base + k) file) fileList in
  let ids := seq base (length fileList) in
  processQueue
    (with_uploadQueue (uploadQueue u ++ ids)
       (with_files (files u ++ ids) (with_heap (heap u ++ newFiles) u))).

(** [cancelUpload(fileId)] *)
Definition cancelUpload (fileId : nat) (u : Uploader) : Uploader * list Action :=
  if bool_decide (fileId ∈ files u) then
    match heap u !! fileId with
    | Some t =>
        let u := match Item.status (item t) with
                 | pending => with_uploadQueue (filter (λ i, i ≠ fileId) (uploadQueue u)) u
                 | _ => u
                 end in
        on_task fileId (cancelUpload_item (config u)) u
    | None => (u, [])
    end
  else (u, []).

(** [destroy()]: the controllers are aborted in the order of the Map, which
    is the order in which the files were dispatched, i.e. by id; then the
    reactions run in that order. *)
Definition destroy (u : Uploader) : Uploader * list Action :=
  let u := with_files [] (with_uploadQueue [] u) in
  foldl (λ '(u, a) id, let '(u, b) := on_task id (destroy_item (config u)) u in (u, a ++ b))
        (u, []) (seq 0 (length (heap u))).

(** What the environment can do. *)
Inductive Event :=
| AddFiles (fileList : list File)
| CancelUpload (fileId : nat)
| Destroy
| MD5Settled (id : nat) (r : Settled string)
| CheckSettled (id : nat) (r : Settled (Response CheckResult.t))
| ChunkSettled (id w : nat) (r : Settled (Response unit))
| TimerFired (id w : nat)
| MergeSettled (id : nat) (r : Settled (Response MergeResult.t)).

Definition step (u : Uploader) (ev : Event) : Uploader * list Action :=
  let cfg := config u in
  match ev with
  | AddFiles fileList => addFiles fileList u
  | CancelUpload fileId => cancelUpload fileId u
  | Destroy => destroy u
  | MD5Settled id r => on_task id (md5_settled r) u
  | CheckSettled id r => on_task id (check_settled cfg r) u
  | ChunkSettled id w r => on_task id (then_after_workers (chunk_settled cfg w r)) u
  | TimerFired id w => on_task id (then_after_workers (timer_fired cfg w)) u
  | MergeSettled id r => on_task id (merge_settled r) u
  end.

(** A run: the events in order, with everything the uploader did. *)
Fixpoint run (u : Uploader) (evs : list Event) : Uploader * list Action :=
  match evs with
  | [] => (u, [])
  | ev :: evs =>
      let '(u, a) := step u ev in
      let '(u, b) := run u evs in
      (u, a ++ b)
  end.

(** The item with address [id]. *)
Definition item_of (u : Uploader) (id : nat) : option Item.t := item <$> heap u !! id.

(** ** What one event does to one file *)

(** The steps a single item can take.  Every step of the uploader is, for
    each item, at most one of these (lemma [step_local] below). *)
Inductive LocalEv :=
| LStart                       (* dispatched by [processQueue] *)
| LCancel                      (* found by [cancelUpload] *)
| LDestroy                     (* visited by [destroy] *)
| LMD5 (r : Settled string)
| LCheck (r : Settled (Response CheckResult.t))
| LChunk (w : nat) (r : Settled (Response unit))
| LTimer (w : nat)
| LMerge (r : Settled (Response MergeResult.t)).

Definition local_step (cfg : Config) (e : LocalEv) (t : Task) : Task * list Action :=
  match e with
  | LStart => processFile_start t
  | LCancel => cancelUpload_item cfg t
  | LDestroy => destroy_item cfg t
  | LMD5 r => md5_settled r t
  | LCheck r => check_settled cfg r t
  | LChunk w r => then_after_workers (chunk_settled cfg w r) t
  | LTimer w => then_after_workers (timer_fired cfg w) t
  | LMerge r => merge_settled r t
  end.

(** [processQueue] only starts items that wait in the queue. *)
Definition enabled (e : LocalEv) (t : Task) : Prop :=
  match e with
  | LStart => pc t = NotStarted ∧ Item.status (item t) = pending
  | _ => True
  end.

(** The event of the uploader a local step comes from. *)
Definition from_event (id : nat) (ev : Event) (e : LocalEv) : Prop :=
  match e with
  | LStart => True
  | LCancel => ev = CancelUpload id
  | LDestroy => ev = Destroy
  | LMD5 r => ev = MD5Settled id r
  | LCheck r => ev = CheckSettled id r
  | LChunk w r => ev = ChunkSettled id w r
  | LTimer w => ev = TimerFired id w
  | LMerge r => ev = MergeSettled id r
  end.

(** Zero or one local step. *)
Definition lstep (cfg : Config) (id : nat) (ev : Event) (t : Task) (a : list Action) (t' : Task) : Prop :=
  (t' = t ∧ a = []) ∨
  ∃ e, enabled e t ∧ from_event id ev e ∧ local_step cfg e t = (t', a).

(** The history of one item: the local steps it took, what they did, and
    the state they left it in. *)
Inductive treach (cfg : Config) (t0 : Task) : list LocalEv → list Action → Task → Prop :=
| treach_refl : treach cfg t0 [] [] t0
| treach_snoc es acts t e a t' :
    treach cfg t0 es acts t →
    enabled e t →
    local_step cfg e t = (t', a) →
    treach cfg t0 (es ++ [e]) (acts ++ a) t'.

(** The actions of a log that belong to item [id]. *)
Definition actions_of (id : nat) (log : list Action) : list Action :=
  filter (λ a, action_id a = id) log.

Definition is_busy (w : Worker) : bool :=
  match w with Busy _ _ => true | _ => false end.

Definition is_fetching (w : Worker) : bool :=
  match w with Busy _ (Retry.AwaitFn _) => true | _ => false end.

(** The chunk uploads of a file that are under way: workers inside
    [uploadChunk], whether in a request or in a backoff sleep. *)
Definition active_uploads (t : Task) : nat := length (List.filter is_busy (workers t)).

(** The files in flight: dispatched, and [processFile] not yet settled. *)
Definition in_flight_tasks (u : Uploader) : nat :=
  length (List.filter (λ t, in_flight (pc t)) (heap u)).

(** Nothing of the item is running any more. *)
Definition quiet (t : Task) : Prop :=
  pc t = Done ∧ terminal (Item.status (item t)) = true ∧ registered t = false ∧
  Forall (λ w, is_busy w = false) (workers t).

(** Facts that hold of every item at every suspension point. *)
Record TInv (cfg : Config) (t : Task) : Prop := mkTInv {
  inv_early : pc t = NotStarted ∨ pc t = AwaitMD5 ∨ pc t = AwaitCheck → workers t = [];
  inv_merge : pc t = AwaitMerge → Forall (λ w, w = Finished) (workers t);
  inv_success : Item.status (item t) = success → quiet t;
  inv_done : pc t = Done → terminal (Item.status (item t)) = true ∧ registered t = false;
  inv_notstarted : pc t = NotStarted →
    (Item.status (item t) = pending ∨ Item.status (item t) = cancelled) ∧ registered t = false;
  inv_pending : Item.status (item t) = pending → pc t = NotStarted;
  inv_handle : in_flight (pc t) = true → registered t = true ∨ aborted t = true;
  inv_cancelled : terminal (Item.status (item t)) = true → in_flight (pc t) = true → aborted t = true;
  inv_aborted : aborted t = true →
    pc t ≠ AwaitCheck ∧ pc t ≠ AwaitMerge ∧ Forall (λ w, is_fetching w = false) (workers t);
  inv_workers : length (workers t) ≤ concurrentChunks cfg;
  inv_empty : Item.totalChunks (item t) = 0 → workers t = []
}.

(** The uploader's own bookkeeping. *)
Record wf (u : Uploader) : Prop := mkWf {
  wf_queue : ∀ id, id ∈ uploadQueue u → ∃ f, heap u !! id = Some (new_task (config u) id f);
  wf_nodup : NoDup (uploadQueue u);
  wf_ids : ∀ id t, heap u !! id = Some t → Item.id (item t) = id
}.

(** States the uploader can be in, with the log of what it did so far. *)
Definition reachable (u : Uploader) (log : list Action) : Prop :=
  ∃ options u0 evs, constructor options = inr u0 ∧ run u0 evs = (u, log).

(** The fields of an item that are never assigned after [addFiles]. *)
Definition steady (it it' : Item.t) : Prop :=
  Item.id it' = Item.id it ∧ Item.file it' = Item.file it ∧ Item.name it' = Item.name it ∧
  Item.size it' = Item.size it ∧ Item.totalChunks it' = Item.totalChunks it.

(** The uploader's invariant: its bookkeeping is sound, every item
    satisfies [TInv], and [uploadingCount] counts the files in flight. *)
Record Ginv (u : Uploader) : Prop := mkGinv {
  g_wf : wf u;
  g_tinv : ∀ id t, heap u !! id = Some t → TInv (config u) t;
  g_count : uploadingCount u = in_flight_tasks u;
  g_bound : uploadingCount u ≤ concurrentFiles (config u);
  g_chunks : 1 ≤ concurrentChunks (config u)
}.

(** ** Chunk accounting *)

(** A resumable set as the check may report it: no duplicates, every index
    below [total]. *)
Definition resume_set_ok (total : nat) (l : list nat) : Prop :=
  NoDup l ∧ Forall (λ i, i < total) l.

(** The check answered that the file does not exist, and the set it
    reported is well formed for an item of [total] chunks. *)
Definition good_check (total : nat) (r : Settled (Response CheckResult.t)) : Prop :=
  match r with
  | Fulfilled response =>
      resp_ok response = true → CheckResult.exists_ (resp_json response) = false →
      resume_set_ok total (CheckResult.uploadedChunks (resp_json response))
  | RejectedWith _ => True
  end.

(** The chunks the workers are uploading at the moment. *)
Definition busy_chunks (ws : list Worker) : list nat :=
  omap (λ w, match w with Busy c _ => Some c | _ => None end) ws.

(** While the workers run, uploaded, in-progress and unclaimed chunks are
    together all chunks of the file, once each; no worker has failed; a
    worker only finishes when nothing is left to claim or the signal fired.
    When the merge request is out, the uploaded chunks are all chunks. *)
Record Complete (t : Task) : Prop := mkComplete {
  cpl_running : pc t = AwaitWorkers →
    Item.uploadedChunks (item t) ++ busy_chunks (workers t)
      ++ drop (index t) (chunksToUpload t) ≡ₚ seq 0 (Item.totalChunks (item t));
  cpl_nofail : pc t = AwaitWorkers → first_failed (workers t) = None;
  cpl_finished : pc t = AwaitWorkers → Exists (λ w, w = Finished) (workers t) →
    aborted t = true ∨ length (chunksToUpload t) ≤ index t;
  cpl_some : pc t = AwaitWorkers → workers t ≠ [];
  cpl_merge : pc t = AwaitMerge →
    Item.uploadedChunks (item t) ≡ₚ seq 0 (Item.totalChunks (item t))
}.

(** ** Reading the log *)

Definition is_chunk_call (a : Action) : bool :=
  match a with FetchChunk _ _ _ => true | _ => false end.

Definition is_merge_call (a : Action) : bool :=
  match a with FetchMerge _ _ _ _ => true | _ => false end.

Definition is_network_call (a : Action) : bool :=
  match a with FetchCheck _ _ _ | FetchChunk _ _ _ | FetchMerge _ _ _ _ => true | _ => false end.

Definition is_notification (a : Action) : bool :=
  match a with UpdateFileStatus _ => true | _ => false end.

(** [processFile] has not got past the check. *)
Definition before_upload (p : Pc) : bool :=
  match p with NotStarted | AwaitMD5 | AwaitCheck => true | _ => false end.

(** ** Vocabulary of the proofs *)

(** A block keeps the steady fields and acts under the item's id. *)
Definition tidy (t : Task) (r : Task * list Action) : Prop :=
  steady (item t) (item r.1) ∧ Forall (λ x, action_id x = Item.id (item t)) r.2.

(** A pending [fetch] rejects; everything else is left alone. *)
Definition reject_fetch (w : Worker) : Worker :=
  if is_fetching w then Failed AbortError else w.

(** The effect of a worker's event, before [Promise.all] reacts: the
    worker was in [uploadChunk(c)]; either the retry executor goes on or
    gives up, or the chunk is recorded and the worker takes its next turn in
    the loop. *)
Definition worker_event (w : nat) (t t1 : Task) : Prop :=
  ∃ c p x, workers t !! w = Some (Busy c p) ∧
    workers t1 = <[w := x]> (workers t) ∧
    pc t1 = pc t ∧ aborted t1 = aborted t ∧ registered t1 = registered t ∧
    chunksToUpload t1 = chunksToUpload t ∧ index t ≤ index t1 ∧
    steady (item t) (item t1) ∧ Item.status (item t1) = Item.status (item t) ∧
    Item.md5 (item t1) = Item.md5 (item t) ∧ Item.error (item t1) = Item.error (item t) ∧
    (is_fetching x = true → aborted t = false) ∧
    (((∃ p', x = Busy c p') ∨ (∃ e, x = Failed e)) ∧
       item t1 = item t ∧ index t1 = index t
     ∨ Item.uploadedChunks (item t1) = Item.uploadedChunks (item t) ++ [c] ∧
       (x = Finished ∧ index t1 = index t ∧
          (aborted t = true ∨ length (chunksToUpload t) ≤ index t)
        ∨ ∃ c', x = Busy c' (Retry.AwaitFn 0) ∧ chunksToUpload t !! index t = Some c' ∧
                index t1 = S (index t) ∧ aborted t = false)).

(** The order in which [processFile] passes its suspension points. *)
Definition pc_rank (p : Pc) : nat :=
  match p with
  | NotStarted => 0 | AwaitMD5 => 1 | AwaitCheck => 2
  | AwaitWorkers => 3 | AwaitMerge => 4 | Done => 5
  end.

(** Apart from the start, a local step neither starts nor restarts
    [processFile], and it never takes it back. *)
Definition pc_ok (p p' : Pc) : Prop :=
  (p = NotStarted → p' = NotStarted) ∧
  (in_flight p' = true → in_flight p = true) ∧
  (p = Done → p' = Done) ∧
  pc_rank p ≤ pc_rank p'.

(** The chunk a worker is uploading. *)
Definition chunk_of (w : Worker) : list nat :=
  match w with Busy c _ => [c] | _ => [] end.

(** The accounting while the workers run. *)
Definition running_ok (t : Task) : Prop :=
  Item.uploadedChunks (item t) ++ busy_chunks (workers t)
    ++ drop (index t) (chunksToUpload t) ≡ₚ seq 0 (Item.totalChunks (item t)) ∧
  (Exists (λ w, w = Finished) (workers t) →
     aborted t = true ∨ length (chunksToUpload t) ≤ index t) ∧
  workers t ≠ [].

(** A global event and the local step it is for the item it names. *)
Definition targets (ev : Event) (id : nat) (e : LocalEv) : Prop :=
  match e with
  | LMD5 r => ev = MD5Settled id r
  | LCheck r => ev = CheckSettled id r
  | LChunk w r => ev = ChunkSettled id w r
  | LTimer w => ev = TimerFired id w
  | LMerge r => ev = MergeSettled id r
  | LStart | LCancel | LDestroy => False
  end.

(** What [processQueue] needs of the queue it walks and of the uploader. *)
Definition Gpre (queue : list nat) (u : Uploader) : Prop :=
  (∀ id, id ∈ queue → ∃ f, heap u !! id = Some (new_task (config u) id f)) ∧
  NoDup queue ∧
  (∀ id t, heap u !! id = Some t → Item.id (item t) = id) ∧
  (∀ id t, heap u !! id = Some t → TInv (config u) t) ∧
  uploadingCount u = in_flight_tasks u ∧
  uploadingCount u ≤ concurrentFiles (config u) ∧
  1 ≤ concurrentChunks (config u).

(** What happened to the item at address [id] between two states of the
    uploader: it took at most one local step, [a] being what that step did;
    or it was created in between. *)
Definition moved (cfg : Config) (id : nat) (ev : Event) (ot ot' : option Task)
    (a : list Action) : Prop :=
  match ot with
  | Some t => ∃ t', ot' = Some t' ∧ lstep cfg id ev t a t'
  | None =>
      (ot' = None ∧ a = []) ∨
      ∃ f t', ot' = Some t' ∧ lstep cfg id ev (new_task cfg id f) a t'
  end.

(** What happened to the item at address [id] during a run of the events
    [evs]: a sequence of local steps, each coming from one of the events. *)
Definition history (cfg : Config) (id : nat) (evs : list Event) (ot ot' : option Task)
    (a : list Action) : Prop :=
  match ot with
  | Some t =>
      ∃ t' es, ot' = Some t' ∧ treach cfg t es a t' ∧
               Forall (λ e, ∃ ev, ev ∈ evs ∧ from_event id ev e) es
  | None =>
      (ot' = None ∧ a = []) ∨
      ∃ f t' es, ot' = Some t' ∧ treach cfg (new_task cfg id f) es a t' ∧
                 Forall (λ e, ∃ ev, ev ∈ evs ∧ from_event id ev e) es
  end.

(** Where the [processFile] call of item [id] is suspended. *)
Definition pc_of (u : Uploader) (id : nat) : option Pc := pc <$> heap u !! id.

(** Every answer of the check endpoint for item [id] in [evs] that reports
    a resumable set reports a well-formed one. *)
Definition checks_ok (id : nat) (evs : list Event) (u : Uploader) : Prop :=
  ∀ r it, CheckSettled id r ∈ evs → item_of u id = Some it →
          good_check (Item.totalChunks it) r.

(** How [processFile] settles: the status [error] is set by its catch
    block only, with which the call ends; and as long as the call waits for
    the workers, none of them has failed. *)
Definition settling (t : Task) : Prop :=
  (Item.status (item t) = error → pc t = Done) ∧
  (pc t = AwaitWorkers → first_failed (workers t) = None).

(** ** Sample data *)

(** An uploader with chunks of two bytes and the default bounds. *)
Definition sample_options : Options :=
  mkOptions (Some "/api/upload/check") (Some "/api/upload/chunk") (Some "/api/upload/merge")
            (Some 2%N) None None None.

(** Two workers per file and a single retry. *)
Definition small_options : Options :=
  mkOptions (Some "/api/upload/check") (Some "/api/upload/chunk") (Some "/api/upload/merge")
            (Some 1%N) None (Some 2) (Some 1).

(** A file of five bytes: three chunks of at most two bytes. *)
Definition five_bytes : File :=
  mkFile "a.bin" [Byte.x01; Byte.x02; Byte.x03; Byte.x04; Byte.x05].

Definition empty_file : File := mkFile "empty.bin" [].

Definition check_answer (exists_ : bool) (uploaded : list nat)
    : Settled (Response CheckResult.t) :=
  Fulfilled (mkResponse true 200 (CheckResult.mk exists_ None uploaded)).

Definition chunk_ok : Settled (Response unit) := Fulfilled (mkResponse true 200 ()).

Definition chunk_http_error : Settled (Response unit) := Fulfilled (mkResponse false 500 ()).

Definition merge_answer (ok : bool) (status : nat) (success : bool)
    : Settled (Response MergeResult.t) :=
  Fulfilled (mkResponse ok status (MergeResult.mk success None)).

(** One file of three chunks is added and its fingerprint is computed: the
    check request is out. *)
Definition checking_events : list Event :=
  [AddFiles [five_bytes]; MD5Settled 0 (Fulfilled "900150983cd24fb0d6963f7d28e17f72")].

(** The check reports chunks 0 and 1 (the resume scenario): chunk 2 is being
    uploaded. *)
Definition resume_events : list Event :=
  checking_events ++ [CheckSettled 0 (check_answer false [0; 1])].

(** Chunk 2 arrived: the merge request is out. *)
Definition merging_events : list Event :=
  resume_events ++ [ChunkSettled 0 0 chunk_ok].

(** The file is cancelled while its fingerprint is being computed. *)
Definition cancelled_events : list Event :=
  [AddFiles [five_bytes]; CancelUpload 0].

(** Nothing is on the server; the upload of chunk 0 is answered with 500,
    retried once after the backoff, and answered with 500 again.  With
    [small_options] the worker of chunk 0 has then used up its attempts,
    while the worker of chunk 1 still waits for its answer. *)
Definition failing_events : list Event :=
  [AddFiles [five_bytes]; MD5Settled 0 (Fulfilled "900150983cd24fb0d6963f7d28e17f72");
   CheckSettled 0 (check_answer false []);
   ChunkSettled 0 0 chunk_http_error; TimerFired 0 0; ChunkSettled 0 0 chunk_http_error].

(** An empty file is added and its fingerprint is computed. *)
Definition empty_events : list Event :=
  [AddFiles [empty_file]; MD5Settled 0 (Fulfilled "d41d8cd98f00b204e9800998ecf8427e")].

(** The host of the fallback fingerprint with the clock at [clock]. *)
Definition host_without_worker (clock : Z) : Fingerprint.Env :=
  Fingerprint.mkEnv false false None (λ _, None) clock.

(** The uploader [new FileUploader(options)] returns; when the constructor
    throws, an uploader that was never configured. *)
Definition uploader_of (options : Options) : Uploader :=
  match constructor options with
  | inr u => u
  | inl _ => mkUploader (mkConfig "" "" "" 0 0 0 0) [] 0 [] []
  end.

(** The uploader after the events [evs], and what it did. *)
Definition state_after (options : Options) (evs : list Event) : Uploader :=
  (run (uploader_of options) evs).1.

Definition log_after (options : Options) (evs : list Event) : list Action :=
  (run (uploader_of options) evs).2.


(** ** More of the source *)

(** The bytes [uploadChunk(chunkIndex)] appends to its form as ['file']:
    [fileItem.file.slice(start, end)] with [start = chunkIndex * chunkSize]
    and [end = Math.min(start + chunkSize, fileItem.file.size)]. *)
Definition uploadChunk_slice (cfg : Config) (file : File) (chunkIndex : nat) : list Byte.byte :=
  let start := (N.of_nat chunkIndex * chunkSize cfg)%N in
  let end_ := N.min (start + chunkSize cfg) (file_size file) in
  file_slice file start end_.

(** A file waits in the queue only while all [concurrentFiles] slots are
    taken. *)
Definition work_conserving (u : Uploader) : Prop :=
  uploadQueue u ≠ [] → concurrentFiles (config u) ≤ uploadingCount u.

(** The queue holds the files in the order in which they were added, and
    every file that was dispatched was added before every file that
    waits. *)
Definition fifo (u : Uploader) : Prop :=
  StronglySorted lt (uploadQueue u) ∧
  ∀ id id' t, id ∈ uploadQueue u → heap u !! id' = Some t → pc t ≠ NotStarted → id' < id.

(** Every request among the actions [a] was sent with the signal of the
    file not fired. *)
Definition guarded (t : Task) (a : list Action) : Prop :=
  Forall (λ x, is_network_call x = true → aborted t = false) a.

(** A block that leaves the chunk accounting of the item alone and does not
    make the file succeed. *)
Definition same_progress (it it' : Item.t) : Prop :=
  Item.progress it' = Item.progress it ∧
  Item.uploadedChunks it' = Item.uploadedChunks it ∧
  Item.totalChunks it' = Item.totalChunks it ∧
  (Item.status it' = success → Item.status it = success).

(** What [progress] can be: 0 until a chunk upload of this run completes,
    the rounded percentage of the uploaded chunks from then on, and 100
    once the file succeeded. *)
Definition progress_ok (t : Task) : Prop :=
  (before_upload (pc t) = true → Item.progress (item t) = 0%Z) ∧
  (Item.status (item t) = success → Item.progress (item t) = 100%Z) ∧
  (Item.status (item t) ≠ success →
   Item.progress (item t) = 0%Z ∨
   Item.progress (item t)
   = percent (length (Item.uploadedChunks (item t))) (Item.totalChunks (item t))).

(** A worker inside [uploadChunk] works on a chunk of [chunksToUpload] and
    is within the attempts [uploadWithRetry] allows. *)
Definition worker_ok (cfg : Config) (chunks : list nat) (w : Worker) : Prop :=
  match w with
  | Busy c (Retry.AwaitFn i) => i ≤ maxRetries cfg ∧ c ∈ chunks
  | Busy c (Retry.AwaitTimer i _) => i < maxRetries cfg ∧ c ∈ chunks
  | _ => True
  end.

Definition requests_ok (cfg : Config) (t : Task) : Prop :=
  Forall (worker_ok cfg (chunksToUpload t)) (workers t) ∧
  Forall (λ c, c < Item.totalChunks (item t)) (chunksToUpload t).

(** A chunk request is for a chunk of the file, in an attempt
    [uploadWithRetry] allows. *)
Definition chunk_call_ok (cfg : Config) (total : nat) (x : Action) : Prop :=
  match x with
  | FetchChunk _ c k => k ≤ maxRetries cfg ∧ c < total
  | SetTimeout _ ms => (1000 ≤ ms ≤ 10000)%Z
  | _ => True
  end.

Definition is_check_call (a : Action) : bool :=
  match a with FetchCheck _ _ _ => true | _ => false end.

(** The number of check requests, and of merge requests, among actions. *)
Definition check_calls (acts : list Action) : nat := length (List.filter is_check_call acts).
Definition merge_calls (acts : list Action) : nat := length (List.filter is_merge_call acts).

(** An endpoint option that the constructor rejects: [undefined] or the
    empty string. *)
Definition falsy_endpoint (s : option string) : Prop := s = None ∨ s = Some "".


(** * Facts about the retry executor *)

Section RetryFacts.
Context {B : Type}.
Implicit Types (fn : nat → Settled (Response B)) (signal : nat → bool).

Lemma attempts_from_SS i n :
  Retry.attempts_from i (S (S n))
  = Retry.CallFn i :: Retry.SetTimeout (Retry.backoff i) :: Retry.attempts_from (S i) (S n).
Proof. reflexivity. Qed.

Lemma calls_attempts_from i n : Retry.calls (Retry.attempts_from i n) = n.
Proof.
  revert i. induction n as [|n IH]; intros i; [done|].
  destruct n as [|n]; [done|].
  rewrite attempts_from_SS. specialize (IH (S i)).
  unfold Retry.calls in *. cbn [List.filter Retry.is_call length]. by rewrite IH.
Qed.

Lemma sleeps_attempts_from i n :
  Retry.sleeps (Retry.attempts_from i n) = Retry.backoff <$> seq i (n - 1).
Proof.
  revert i. induction n as [|n IH]; intros i; [done|].
  destruct n as [|n]; [done|].
  rewrite attempts_from_SS. specialize (IH (S i)).
  unfold Retry.sleeps in *. cbn [omap list_omap]. rewrite IH.
  by replace (S (S n) - 1) with (S (S n - 1)) by lia.
Qed.

Lemma drive_Return fn signal maxRetries fuel r :
  Retry.drive fn signal maxRetries fuel (Retry.Return r) = (Some (Fulfilled r), []).
Proof. by destruct fuel. Qed.

Lemma drive_Throw fn signal maxRetries fuel e :
  Retry.drive fn signal maxRetries fuel (Retry.Throw e) = (Some (RejectedWith e), []).
Proof. by destruct fuel. Qed.

(** From the call of iteration [i] on: the run is a number [n] of attempts,
    all but the last failed, and it ends either with the first response that
    is [ok] or, after iteration [maxRetries], with that iteration's error. *)
Lemma drive_from_call fn signal maxRetries k : ∀ i fuel,
  Retry.uncancelled fn signal →
  i + k = maxRetries →
  2 * k + 1 ≤ fuel →
  ∃ n, (1 ≤ n ≤ S k) ∧
    (∀ j, (i ≤ j < i + n - 1) → is_Some (Retry.failure (fn j))) ∧
    Retry.drive fn signal maxRetries fuel (Retry.Suspended (Retry.AwaitFn i))
      = (Some match Retry.failure (fn (i + n - 1)) with
              | None => fn (i + n - 1)
              | Some e => RejectedWith e
              end,
         Retry.attempts_from i n) ∧
    (is_Some (Retry.failure (fn (i + n - 1))) → i + n - 1 = maxRetries).
Proof.
  induction k as [|k IH]; intros i fuel [Hsig Hfn] Hk Hfuel.
  - (* last iteration *)
    exists 1. destruct fuel as [|fuel]; [lia|].
    replace (i + 1 - 1) with i by lia.
    split; [lia|]. split; [intros; lia|]. split; [|intros; lia].
    simpl. unfold Retry.fn_settled, Retry.catch_attempt, Retry.for_next.
    assert ((i <? maxRetries) = false) as -> by (apply Nat.ltb_ge; lia).
    assert ((S i <=? maxRetries) = false) as -> by (apply Nat.leb_gt; lia).
    destruct (fn i) as [r|e] eqn:Hi; simpl.
    + destruct (resp_ok r) eqn:Hok; simpl;
        by rewrite ?drive_Return, ?drive_Throw.
    + rewrite (Hfn _ _ Hi). by rewrite drive_Throw.
  - destruct fuel as [|[|fuel]]; [lia..|].
    destruct (Retry.failure (fn i)) as [e|] eqn:Hfail.
    + (* iteration [i] fails: sleep, then iteration [S i] *)
      destruct (IH (S i) fuel (conj Hsig Hfn)) as (n & Hn & Hbefore & Hrun & Hlast); [lia..|].
      exists (S n). replace (i + S n - 1) with (S i + n - 1) by lia.
      split; [lia|]. split.
      { intros j Hj. destruct (decide (j = i)) as [->|]; [by rewrite Hfail|].
        apply Hbefore. lia. }
      split; [|done].
      assert (Retry.fn_settled maxRetries (signal (S i)) i (fn i)
              = Retry.Suspended (Retry.AwaitTimer i e)) as Hstep.
      { unfold Retry.fn_settled, Retry.catch_attempt.
        assert ((i <? maxRetries) = true) as Hlt by (apply Nat.ltb_lt; lia).
        destruct (fn i) as [r|e'] eqn:Hi; simpl in Hfail.
        - destruct (resp_ok r); [done|]. simplify_eq. simpl. by rewrite Hlt.
        - simplify_eq. by rewrite (Hfn _ _ Hi), Hlt. }
      cbn [Retry.drive]. rewrite Hstep.
      unfold Retry.timer_fired, Retry.for_next, Retry.iteration.
      assert ((S i <=? maxRetries) = true) as -> by (apply Nat.leb_le; lia).
      rewrite Hsig. cbn [Retry.drive] in Hrun |- *.
      destruct n as [|n]; [lia|]. rewrite Hrun.
      cbn [Retry.acts_of app]. by destruct n.
    + (* iteration [i] succeeds *)
      exists 1. replace (i + 1 - 1) with i by lia.
      split; [lia|]. split; [intros; lia|]. rewrite Hfail.
      split; [|by intros []].
      simpl. unfold Retry.fn_settled.
      destruct (fn i) as [r|e'] eqn:Hi; simpl in Hfail; [|done].
      by destruct (resp_ok r).
Qed.
End RetryFacts.

(** C5. Absent cancellation, [uploadWithRetry] returns after at most
    [maxRetries + 1] attempts of the operation; its trace is exactly these
    attempts with one timer between two consecutive ones and none after the
    last, the timer after the failed iteration [i] being
    [min(1000 * 2^i, 10000)] ms; every attempt but the last failed; and if
    every attempt fails, all [maxRetries + 1] are made and the error raised
    is the one of the last attempt. *)
Theorem uploadWithRetry_attempts_backoff_exhaustion {B : Type}
    (fn : nat → Settled (Response B)) (maxRetries : nat) (signal : nat → bool) :
  Retry.uncancelled fn signal →
  ∃ result tr n,
    Retry.uploadWithRetry fn maxRetries signal = (Some result, tr) ∧
    Retry.calls tr = n ∧ (1 ≤ n ≤ maxRetries + 1) ∧
    tr = Retry.attempts_from 0 n ∧
    Retry.sleeps tr = (λ i, Z.min (1000 * 2 ^ Z.of_nat i) 10000) <$> seq 0 (n - 1) ∧
    (∀ i, i < n - 1 → is_Some (Retry.failure (fn i))) ∧
    ((∀ i, i ≤ maxRetries → is_Some (Retry.failure (fn i))) →
       n = maxRetries + 1 ∧
       ∃ e, Retry.failure (fn maxRetries) = Some e ∧ result = RejectedWith e).
Proof.
  intros Hun.
  destruct (drive_from_call fn signal maxRetries maxRetries 0 (2 * S maxRetries) Hun)
    as (n & Hn & Hbefore & Hrun & Hlast); [lia..|].
  simpl in Hbefore, Hrun, Hlast.
  eexists _, (Retry.attempts_from 0 n), n.
  split.
  { unfold Retry.uploadWithRetry, Retry.start, Retry.iteration.
    destruct Hun as [-> _]. exact Hrun. }
  split; [apply calls_attempts_from|].
  split; [lia|]. split; [done|].
  split; [apply sleeps_attempts_from|].
  split; [intros i Hi; apply Hbefore; lia|].
  intros Hall.
  assert (n - 1 = maxRetries) as Heq.
  { apply Hlast, Hall. lia. }
  split; [lia|]. rewrite Heq.
  destruct (Hall maxRetries) as [e He]; [lia|].
  exists e. by rewrite He.
Qed.

(** Scenario 5: two failures then success with [maxRetries = 3]. *)
Lemma uploadWithRetry_attempts_backoff_exhaustion_witness :
  Retry.uncancelled
    (λ i, if i <? 2 then RejectedWith (Error "Failed to fetch")
          else Fulfilled (mkResponse true 200 ())) (λ _, false) ∧
  ∃ result tr n,
    Retry.uploadWithRetry
      (λ i, if i <? 2 then RejectedWith (Error "Failed to fetch")
            else Fulfilled (mkResponse true 200 ())) 3 (λ _, false) = (Some result, tr) ∧
    Retry.calls tr = n ∧ (1 ≤ n ≤ 3 + 1) ∧
    tr = Retry.attempts_from 0 n ∧
    Retry.sleeps tr = (λ i, Z.min (1000 * 2 ^ Z.of_nat i) 10000) <$> seq 0 (n - 1) ∧
    (∀ i, i < n - 1 → is_Some (Retry.failure
       ((λ i, if i <? 2 then RejectedWith (Error "Failed to fetch")
              else Fulfilled (mkResponse true 200 ())) i))) ∧
    ((∀ i, i ≤ 3 → is_Some (Retry.failure
       ((λ i, if i <? 2 then RejectedWith (Error "Failed to fetch")
              else Fulfilled (mkResponse true 200 ())) i))) →
       n = 3 + 1 ∧
       ∃ e, Retry.failure
              ((λ i, if i <? 2 then RejectedWith (Error "Failed to fetch")
                     else Fulfilled (mkResponse true 200 ())) 3) = Some e ∧
            result = RejectedWith e).
Proof.
  assert (Retry.uncancelled
    (λ i, if i <? 2 then RejectedWith (Error "Failed to fetch")
          else Fulfilled (mkResponse true 200 ())) (λ _, false)) as Hun.
  { split; [done|]. intros i e. destruct (i <? 2); [|done].
    intros [= <-]. reflexivity. }
  split; [exact Hun|].
  exact (uploadWithRetry_attempts_backoff_exhaustion _ 3 _ Hun).
Defined.


(** * One file: facts about the local steps *)

Ltac unfold_blocks :=
  unfold local_step, processFile_start, cancelUpload_item, destroy_item, md5_settled,
    check_settled, merge_settled, then_after_workers, chunk_settled, timer_fired,
    worker_resume, after_workers, call_checkFile, call_mergeFile, catch_block,
    finish_success, worker_loop, uploadChunk_start, suspend_worker, set_worker,
    Retry.start, Retry.fn_settled, Retry.timer_fired, Retry.catch_attempt,
    Retry.for_next, Retry.iteration in *.

(** Break every [match] and [if] of the goal and the hypotheses. *)
Ltac break :=
  repeat (simplify_eq/=;
          match goal with
          | H : context [match ?x with _ => _ end] |- _ => destruct x eqn:?
          | |- context [match ?x with _ => _ end] => destruct x eqn:?
          end); simplify_eq/=.

Section Local.
Variable cfg : Config.

Lemma steady_refl it : steady it it.
Proof. by repeat split. Qed.

Lemma steady_trans a b c : steady a b → steady b c → steady a c.
Proof. intros (?&?&?&?&?) (?&?&?&?&?). repeat split; congruence. Qed.

Lemma tidy_bind t r f :
  tidy t r → (∀ t1, steady (item t) (item t1) → tidy t1 (f t1)) →
  tidy t (let '(t1, a) := r in let '(t2, b) := f t1 in (t2, a ++ b)).
Proof.
  destruct r as [t1 a]. intros [Hs Ha] Hf. specialize (Hf t1 Hs).
  destruct (f t1) as [t2 b]. destruct Hf as [Hs' Hb]. split; simpl in *.
  - by eapply steady_trans.
  - apply Forall_app. split; [done|]. destruct Hs as [Hid _]. by rewrite Hid in Hb.
Qed.

Lemma worker_loop_tidy t t1 x a :
  worker_loop t = (t1, x, a) → tidy t (t1, a).
Proof. unfold_blocks. unfold tidy, steady. intros. break; repeat split; by repeat constructor. Qed.

Lemma spawn_workers_tidy n : ∀ t, tidy t (spawn_workers n t).
Proof.
  induction n as [|n IH]; intros t; simpl.
  { split; [apply steady_refl|constructor]. }
  destruct (worker_loop t) as [[t1 x] a] eqn:Hw.
  apply worker_loop_tidy in Hw.
  specialize (IH (with_workers (workers t1 ++ [x]) t1)).
  destruct (spawn_workers n _) as [t2 b]. destruct Hw as [Hs Ha], IH as [Hs' Hb]; simpl in *.
  split; simpl.
  - by eapply steady_trans.
  - apply Forall_app. split; [done|]. destruct Hs as [Hid _]. by rewrite Hid in Hb.
Qed.

Lemma after_workers_tidy t : tidy t (after_workers t).
Proof. unfold_blocks. unfold tidy, steady. break; repeat split; by repeat constructor. Qed.

Lemma chunk_settled_tidy w r t : tidy t (chunk_settled cfg w r t).
Proof. unfold_blocks. unfold tidy, steady. break; repeat split; by repeat constructor. Qed.

Lemma timer_fired_tidy w t : tidy t (timer_fired cfg w t).
Proof. unfold_blocks. unfold tidy, steady. break; repeat split; by repeat constructor. Qed.

(** *** The workers' start *)

(** What [spawn_workers] leaves untouched, and what it appends. *)
Lemma spawn_workers_spec n : ∀ t t' a,
  spawn_workers n t = (t', a) →
  item t' = item t ∧ pc t' = pc t ∧ aborted t' = aborted t ∧ registered t' = registered t ∧
  chunksToUpload t' = chunksToUpload t ∧ index t ≤ index t' ∧
  ∃ ws, workers t' = workers t ++ ws ∧ length ws = n ∧
        Forall (λ w, w = Finished ∨ ∃ c, w = Busy c (Retry.AwaitFn 0) ∧ aborted t = false) ws ∧
        (Forall (λ w, w = Finished) ws ∨ index t < index t') ∧
        (Exists (λ w, w = Finished) ws → aborted t = true ∨ length (chunksToUpload t) ≤ index t').
Proof.
  induction n as [|n IH]; intros t t' a; simpl.
  { intros [= <- <-]. repeat split; try done. exists []. rewrite app_nil_r.
    repeat split; try done; [by left|]. by intros ?%Exists_nil. }
  destruct (worker_loop t) as [[t1 x] a1] eqn:Hw.
  destruct (spawn_workers n _) as [t2 b] eqn:Hs. intros [= <- <-].
  apply IH in Hs as (Hi & Hp & Ha & Hr & Hc & Hidx & ws & Hws & Hlen & Hall & Hlt & Hfin).
  simpl in *.
  assert (item t1 = item t ∧ pc t1 = pc t ∧ aborted t1 = aborted t ∧ registered t1 = registered t ∧
          chunksToUpload t1 = chunksToUpload t ∧ workers t1 = workers t ∧
          ((x = Finished ∧ index t1 = index t ∧
              (aborted t = true ∨ length (chunksToUpload t) ≤ index t)) ∨
           (∃ c, x = Busy c (Retry.AwaitFn 0) ∧ aborted t = false ∧ index t1 = S (index t))))
    as (Hi1 & Hp1 & Ha1 & Hr1 & Hc1 & Hw1 & Hx).
  { revert Hw. unfold_blocks. intros. break; repeat split; eauto 10.
    left. repeat split; try done. right. by apply lookup_ge_None. }
  rewrite Hi, Hp, Ha, Hr, Hc, Hi1, Hp1, Ha1, Hr1, Hc1. repeat split; try done.
  { destruct Hx as [(_ & ? & _)|(c & _ & _ & ?)]; lia. }
  exists (x :: ws). rewrite Hws, Hw1, <- app_assoc. simpl.
  split; [done|]. split; [by rewrite Hlen|]. repeat split.
  - constructor.
    + destruct Hx as [(-> & _)|(c & -> & ? & _)]; eauto.
    + rewrite Ha1 in Hall. done.
  - destruct Hx as [(-> & Hx & _)|(c & -> & ? & Hx)].
    + destruct Hlt as [Hlt|Hlt]; [left; by constructor|right; lia].
    + right. lia.
  - intros [Hx'|Hx']%Exists_cons.
    + destruct Hx as [(_ & Hx & [?|?])|(c & -> & _)]; [by left|right; lia|done].
    + rewrite Ha1, Hc1 in Hfin. by apply Hfin.
Qed.

Lemma uploadChunksWithConcurrency_tidy chunks t :
  tidy t (uploadChunksWithConcurrency cfg chunks t).
Proof.
  unfold uploadChunksWithConcurrency.
  pose proof (spawn_workers_tidy (concurrentChunks cfg)
                (with_workers [] (with_index 0 (with_chunksToUpload chunks t)))) as H.
  destruct (spawn_workers _ _) as [t1 a]. 
  pose proof (after_workers_tidy (with_pc AwaitWorkers t1)) as H'.
  destruct (after_workers _) as [t2 b]. destruct H as [Hs Ha], H' as [Hs' Hb]; simpl in *.
  split; simpl; [by eapply steady_trans|].
  apply Forall_app. split; [done|]. destruct Hs as [Hid _]. by rewrite Hid in Hb.
Qed.

(** *** The reactions to an abort *)

Lemma abort_fold_spec t :
  foldl (λ '(t, a) w,
           let '(t, b) := chunk_settled cfg w (RejectedWith AbortError) t in (t, a ++ b))
        (t, []) (seq 0 (length (workers t)))
  = (with_workers (reject_fetch <$> workers t) t, []).
Proof.
  assert (∀ todo done_ a,
    foldl (λ '(t, a) w,
             let '(t, b) := chunk_settled cfg w (RejectedWith AbortError) t in (t, a ++ b))
          (with_workers (done_ ++ todo) t, a) (seq (length done_) (length todo))
    = (with_workers (done_ ++ (reject_fetch <$> todo)) t, a)) as H.
  { induction todo as [|x todo IH]; intros done_ a; [done|].
    simpl. unfold chunk_settled at 2. simpl.
    rewrite lookup_app_r by lia. rewrite Nat.sub_diag. simpl.
    specialize (IH (done_ ++ [reject_fetch x]) a).
    rewrite length_app in IH. simpl in IH. rewrite Nat.add_1_r in IH.
    rewrite <- !app_assoc in IH. simpl in IH.
    destruct x as [c [i|i e]| |e]; unfold reject_fetch in *; simpl in *;
      rewrite ?app_nil_r; try exact IH.
    unfold worker_resume, Retry.fn_settled, Retry.catch_attempt. simpl.
    unfold set_worker. simpl.
    rewrite insert_app_r_alt by lia. rewrite Nat.sub_diag. simpl.
    exact IH. }
  specialize (H (workers t) [] []). simpl in H.
  replace (with_workers (workers t) t) with t in H by by destruct t.
  exact H.
Qed.

Lemma abort_reactions_tidy t : tidy t (abort_reactions cfg t).
Proof.
  unfold abort_reactions. destruct (pc t) eqn:Hpc;
    try (split; [apply steady_refl|constructor]);
    try (unfold_blocks; unfold tidy, steady; break; repeat split; by repeat constructor).
  unfold then_after_workers. rewrite abort_fold_spec.
  pose proof (after_workers_tidy (with_workers (reject_fetch <$> workers t) t)) as H.
  destruct (after_workers _) as [t2 b]. exact H.
Qed.

(** Every local step keeps the steady fields of the item and acts under
    the item's id. *)
Lemma local_step_tidy e t : tidy t (local_step cfg e t).
Proof.
  destruct e as [| | |r|r|w r|w|r]; simpl.
  - unfold_blocks. unfold tidy, steady. break; repeat split; by repeat constructor.
  - unfold cancelUpload_item.
    destruct (Item.status (item t)); try (split; [apply steady_refl|constructor]);
      try (split; [by repeat split|by repeat constructor]).
    all: destruct (registered t); [|split; [by repeat split|by repeat constructor]].
    all: match goal with |- context [abort_reactions cfg ?x] =>
           pose proof (abort_reactions_tidy x) as H; destruct (abort_reactions cfg x) as [t1 a] end.
    all: destruct H as [Hs Ha]; split; simpl in *; [done|by constructor].
  - unfold destroy_item. destruct (registered t); [|split; [apply steady_refl|constructor]].
    match goal with |- context [abort_reactions cfg ?x] =>
      pose proof (abort_reactions_tidy x) as H; destruct (abort_reactions cfg x) as [t1 a] end.
    exact H.
  - unfold_blocks. unfold tidy, steady. break; repeat split; by repeat constructor.
  - unfold check_settled. destruct (pc t); try (split; [apply steady_refl|constructor]).
    destruct r as [response|e]; [|unfold_blocks; unfold tidy, steady; break; repeat split; by repeat constructor].
    destruct (negb (resp_ok response));
      [unfold_blocks; unfold tidy, steady; break; repeat split; by repeat constructor|].
    destruct (CheckResult.exists_ _);
      [unfold_blocks; unfold tidy, steady; break; repeat split; by repeat constructor|].
    destruct (filter _ _) as [|c chunks];
      [unfold_blocks; unfold tidy, steady; break; repeat split; by repeat constructor|].
    match goal with |- context [uploadChunksWithConcurrency cfg ?l ?x] =>
      pose proof (uploadChunksWithConcurrency_tidy l x) as H;
      destruct (uploadChunksWithConcurrency cfg l x) as [t1 a] end.
    destruct H as [Hs Ha]; split; simpl in *; [done|by constructor].
  - apply (tidy_bind t (chunk_settled cfg w r t) after_workers);
      [apply chunk_settled_tidy|intros; apply after_workers_tidy].
  - apply (tidy_bind t (timer_fired cfg w t) after_workers);
      [apply timer_fired_tidy|intros; apply after_workers_tidy].
  - unfold_blocks. unfold tidy, steady. break; repeat split; by repeat constructor.
Qed.

End Local.


(** * One file: what a worker's event does *)

Section Workers.
Variable cfg : Config.

Lemma fn_settled_fetching {B} maxRetries aborted i (r : Settled (Response B)) j :
  Retry.fn_settled maxRetries aborted i r = Retry.Suspended (Retry.AwaitFn j) → aborted = false.
Proof.
  unfold Retry.fn_settled, Retry.catch_attempt, Retry.for_next, Retry.iteration.
  intros. break; done.
Qed.

Lemma timer_fired_fetching {B} maxRetries aborted i e j :
  @Retry.timer_fired B maxRetries aborted i e = Retry.Suspended (Retry.AwaitFn j) →
  aborted = false.
Proof.
  unfold Retry.timer_fired, Retry.for_next, Retry.iteration. intros. break; done.
Qed.

Lemma worker_resume_spec w c p s t t1 a :
  workers t !! w = Some (Busy c p) →
  (∀ j, s = Retry.Suspended (Retry.AwaitFn j) → aborted t = false) →
  worker_resume w c s t = (t1, a) → worker_event w t t1.
Proof.
  intros Hw Hs Hstep. exists c, p. revert Hstep. unfold worker_resume.
  destruct s as [[j|j e]|r|e]; simpl.
  - intros [= <- <-]. eexists. simpl. do 11 (split; [done|]).
    split; [intros; by eapply Hs|]. left. eauto.
  - intros [= <- <-]. eexists. simpl. do 11 (split; [done|]).
    split; [done|]. left. eauto.
  - unfold worker_loop, uploadChunk_start, suspend_worker, Retry.start, Retry.iteration. simpl.
    destruct (chunksToUpload t !! index t) as [c'|] eqn:Hc.
    + destruct (aborted t) eqn:Hab; simpl; intros [= <- <-]; eexists; simpl.
      * do 11 (split; [done|]). split; [done|]. right. split; [done|]. left. auto.
      * do 6 (split; [done|]). split; [lia|]. do 4 (split; [done|]).
        split; [done|]. right. split; [done|]. right. eauto.
    + intros [= <- <-]. eexists. simpl. do 11 (split; [done|]). split; [done|].
      right. split; [done|]. left. repeat split; try done. right. by apply lookup_ge_None.
  - intros [= <- <-]. eexists. simpl. do 11 (split; [done|]).
    split; [done|]. left. eauto.
Qed.

Lemma chunk_settled_spec w r t t1 a :
  chunk_settled cfg w r t = (t1, a) → (t1 = t ∧ a = []) ∨ worker_event w t t1.
Proof.
  unfold chunk_settled. destruct (workers t !! w) as [[c [i|i e]| |e]|] eqn:Hw;
    try (intros [= <- <-]; by left).
  intros Hstep. right. eapply worker_resume_spec; [done| |exact Hstep].
  intros j. apply fn_settled_fetching.
Qed.

Lemma timer_fired_spec w t t1 a :
  timer_fired cfg w t = (t1, a) → (t1 = t ∧ a = []) ∨ worker_event w t t1.
Proof.
  unfold timer_fired. destruct (workers t !! w) as [[c [i|i e]| |e]|] eqn:Hw;
    try (intros [= <- <-]; by left).
  intros Hstep. right. eapply worker_resume_spec; [done| |exact Hstep].
  intros j. apply timer_fired_fetching.
Qed.

End Workers.


(** * The invariant of one file *)

Section Invariant.
Variable cfg : Config.

Lemma new_task_inv id f : TInv cfg (new_task cfg id f).
Proof.
  constructor; simpl; try done; try (intros; lia); try (by left); auto.
Qed.

Lemma forallb_is_finished ws :
  forallb is_finished ws = true → Forall (λ w, w = Finished) ws.
Proof.
  induction ws as [|[] ws IH]; simpl; intros H; try done; constructor; auto.
Qed.

Lemma finished_not_busy ws :
  Forall (λ w, w = Finished) ws → Forall (λ w, is_busy w = false) ws.
Proof. intros H. eapply Forall_impl; [exact H|]. by intros ? ->. Qed.

Lemma finished_not_fetching ws :
  Forall (λ w, w = Finished) ws → Forall (λ w, is_fetching w = false) ws.
Proof. intros H. eapply Forall_impl; [exact H|]. by intros ? ->. Qed.

Lemma nil_not_busy : Forall (λ w, is_busy w = false) [].
Proof. constructor. Qed.

Lemma nil_not_fetching : Forall (λ w, is_fetching w = false) [].
Proof. constructor. Qed.

Lemma nil_finished : Forall (λ w : Worker, w = Finished) [].
Proof. constructor. Qed.

Ltac use_inv H := destruct H as [Hearly Hmerge Hsucc Hdone Hns Hpend Hhandle Hcanc Habort Hlen Hempty].

Ltac tinv_auto :=
  unfold quiet in *; simpl in *;
  try (repeat match goal with H : pc _ = _ |- _ => rewrite H in * end; simpl in *);
  try match goal with
      | H : _ → workers ?t = [] |- _ =>
          rewrite H in * by first [done | intuition congruence]; simpl in *
      end;
  first [ done | congruence | lia
        | timeout 10 (naive_solver
            (eauto using finished_not_busy, finished_not_fetching, nil_not_busy,
                         nil_not_fetching, nil_finished;
             first [congruence | lia])) ].

Lemma start_inv t t' a :
  TInv cfg t → enabled LStart t → local_step cfg LStart t = (t', a) → TInv cfg t'.
Proof.
  intros H [Hpc Hst] Hstep. use_inv H. simpl in Hstep. unfold_blocks. simplify_eq.
  constructor; simpl; intros; tinv_auto.
Qed.

Lemma md5_inv r t t' a :
  TInv cfg t → local_step cfg (LMD5 r) t = (t', a) → TInv cfg t'.
Proof.
  intros H Hstep. use_inv H. simpl in Hstep. unfold_blocks.
  break; constructor; simpl; intros; tinv_auto.
Qed.

Lemma merge_inv r t t' a :
  TInv cfg t → local_step cfg (LMerge r) t = (t', a) → TInv cfg t'.
Proof.
  intros H Hstep. use_inv H. simpl in Hstep. unfold_blocks.
  break; constructor; simpl; intros; tinv_auto.
Qed.
Lemma after_workers_inv t : TInv cfg t → TInv cfg (after_workers t).1.
Proof.
  intros H. unfold after_workers. destruct (pc t) eqn:Hpc; try done.
  unfold promise_all. destruct (first_failed (workers t)) as [e|] eqn:Hff.
  { use_inv H. unfold_blocks. break; constructor; simpl; intros; tinv_auto. }
  destruct (forallb is_finished (workers t)) eqn:Hall; [|done].
  apply forallb_is_finished in Hall.
  pose proof (finished_not_busy _ Hall). pose proof (finished_not_fetching _ Hall).
  use_inv H. unfold_blocks. break; constructor; simpl; intros; tinv_auto.
Qed.

Lemma worker_event_inv w t t1 : TInv cfg t → worker_event w t t1 → TInv cfg t1.
Proof.
  intros H (c & p & x & Hw & Hws & Hpc & Hab & Hreg & Hch & Hidx & Hst & Hstat & _ & _ & Hx & _).
  assert (workers t ≠ []) as Hne by (intros Hnil; by rewrite Hnil in Hw).
  assert (¬ Forall (λ w, is_busy w = false) (workers t)) as Hbusy.
  { intros HF. by apply (Forall_lookup_1 _ _ _ _ HF) in Hw. }
  assert (¬ Forall (λ w, w = Finished) (workers t)) as Hfin.
  { intros HF. by apply (Forall_lookup_1 _ _ _ _ HF) in Hw. }
  destruct Hst as (_ & _ & _ & _ & Htot).
  use_inv H. constructor; rewrite ?Hpc, ?Hab, ?Hreg, ?Hstat, ?Htot, ?Hws; unfold quiet;
    rewrite ?Hpc, ?Hab, ?Hreg, ?Hstat, ?Hws; try done.
  - intros. exfalso. auto.
  - intros. exfalso. auto.
  - intros Hs. destruct (Hsucc Hs) as (_ & _ & _ & ?). done.
  - intros Ha. destruct (Habort Ha) as (? & ? & HF). repeat split; try done.
    apply Forall_insert; [done|]. destruct (is_fetching x); [|done].
    rewrite Hx in Ha; done.
  - by rewrite length_insert.
  - intros. exfalso. auto.
Qed.

Lemma worker_step_inv f w t t' a :
  (∀ t t1 a, f t = (t1, a) → (t1 = t ∧ a = []) ∨ worker_event w t t1) →
  TInv cfg t → then_after_workers f t = (t', a) → TInv cfg t'.
Proof.
  intros Hf H. unfold then_after_workers.
  destruct (f t) as [t1 a1] eqn:Hft. apply Hf in Hft.
  assert (TInv cfg t1) as H1.
  { destruct Hft as [[-> _]|Hev]; [done|]. by eapply worker_event_inv. }
  apply after_workers_inv in H1. destruct (after_workers t1) as [t2 b].
  by intros [= <- <-].
Qed.

Lemma reject_fetch_not_fetching ws :
  Forall (λ w, is_fetching w = false) (reject_fetch <$> ws).
Proof.
  apply Forall_fmap, Forall_forall. intros [c [i|i e]| |e] _; done.
Qed.

(** After [abort()] on an item whose controller was still in the Map. *)
Lemma abort_reactions_inv t it t' a :
  TInv cfg t → registered t = true →
  (it = item t ∨ it = Item.set_status cancelled (item t)) →
  abort_reactions cfg (with_item it (with_registered false (with_aborted true t))) = (t', a) →
  TInv cfg t'.
Proof.
  intros H Hreg Hit.
  assert (Item.status it ≠ success ∧ Item.status it ≠ pending ∧
          Item.totalChunks it = Item.totalChunks (item t)) as (Hns' & Hnp & Htot).
  { use_inv H. destruct Hit as [->| ->]; simpl; [|done].
    repeat split; intros Hs.
    - apply Hsucc in Hs as (_ & _ & ? & _). congruence.
    - apply Hpend, Hns in Hs as [_ ?]. congruence. }
  assert (in_flight (pc t) = true) as Hfl.
  { use_inv H. destruct (pc t); try done.
    - destruct Hns as [_ ?]; [done|congruence].
    - destruct Hdone as [_ ?]; [done|congruence]. }
  clear Hit. unfold abort_reactions. simpl.
  destruct (pc t) eqn:Hpc; try done.
  - (* the MD5 computation goes on *)
    intros [= <- <-]. use_inv H.
    constructor; simpl; rewrite ?Hpc; intros; tinv_auto.
  - (* the check request is rejected *)
    use_inv H. unfold_blocks. intros [= <- <-].
    constructor; simpl; rewrite ?Hpc; intros; tinv_auto.
  - (* the chunk requests are rejected *)
    unfold then_after_workers. rewrite abort_fold_spec. simpl.
    match goal with |- context [after_workers ?x] =>
      assert (TInv cfg x) as H1; [|apply after_workers_inv in H1;
                                   destruct (after_workers x); by intros [= <- <-]] end.
    pose proof (reject_fetch_not_fetching (workers t)).
    use_inv H. constructor; simpl; rewrite ?Hpc, ?length_fmap; intros; tinv_auto.
  - (* the merge request is rejected *)
    use_inv H. unfold_blocks. intros [= <- <-].
    constructor; simpl; rewrite ?Hpc; intros; tinv_auto.
Qed.

Lemma cancel_inv t t' a :
  TInv cfg t → local_step cfg LCancel t = (t', a) → TInv cfg t'.
Proof.
  intros H. simpl. unfold cancelUpload_item.
  destruct (Item.status (item t)) eqn:Hst; try (by intros [= <- <-]).
  - intros [= <- <-]. use_inv H. constructor; simpl; intros; tinv_auto.
  - destruct (registered t) eqn:Hreg.
    + destruct (abort_reactions _ _) as [t1 a1] eqn:Hab. intros [= <- <-].
      eapply abort_reactions_inv; [done..| |exact Hab]. by right.
    + intros [= <- <-]. use_inv H. constructor; simpl; intros; tinv_auto.
  - destruct (registered t) eqn:Hreg.
    + destruct (abort_reactions _ _) as [t1 a1] eqn:Hab. intros [= <- <-].
      eapply abort_reactions_inv; [done..| |exact Hab]. by right.
    + intros [= <- <-]. use_inv H. constructor; simpl; intros; tinv_auto.
  - destruct (registered t) eqn:Hreg.
    + destruct (abort_reactions _ _) as [t1 a1] eqn:Hab. intros [= <- <-].
      eapply abort_reactions_inv; [done..| |exact Hab]. by right.
    + intros [= <- <-]. use_inv H. constructor; simpl; intros; tinv_auto.
Qed.

Lemma destroy_inv t t' a :
  TInv cfg t → local_step cfg LDestroy t = (t', a) → TInv cfg t'.
Proof.
  intros H. simpl. unfold destroy_item.
  destruct (registered t) eqn:Hreg; [|by intros [= <- <-]].
  intros Hab. eapply (abort_reactions_inv t (item t)); [done..|by left|].
  by replace (with_item (item t) (with_registered false (with_aborted true t)))
    with (with_registered false (with_aborted true t)) by done.
Qed.

Lemma filter_seq_nonempty (P : nat → Prop) `{∀ i, Decision (P i)} n :
  filter P (seq 0 n) ≠ [] → n ≠ 0.
Proof. by destruct n. Qed.

Lemma check_inv r t t' a :
  TInv cfg t → local_step cfg (LCheck r) t = (t', a) → TInv cfg t'.
Proof.
  intros H. simpl. unfold check_settled.
  destruct (pc t) eqn:Hpc; try (by intros [= <- <-]).
  destruct r as [response|e];
    [|use_inv H; unfold_blocks; intros; break; constructor; simpl; intros; tinv_auto].
  destruct (negb (resp_ok response));
    [use_inv H; unfold_blocks; intros; break; constructor; simpl; intros; tinv_auto|].
  destruct (CheckResult.exists_ _);
    [use_inv H; unfold_blocks; intros; break; constructor; simpl; intros; tinv_auto|].
  destruct (filter _ _) as [|c chunks] eqn:Hchunks;
    [use_inv H; unfold_blocks; intros; break; constructor; simpl; intros; tinv_auto|].
  assert (Item.totalChunks (item t) ≠ 0) as Htot.
  { eapply filter_seq_nonempty. by rewrite Hchunks. }
  assert (aborted t = false) as Hab.
  { use_inv H. destruct (aborted t); [|done]. destruct Habort as [? _]; done. }
  unfold uploadChunksWithConcurrency.
  destruct (spawn_workers _ _) as [t1 a1] eqn:Hspawn.
  apply spawn_workers_spec in Hspawn
    as (Hi & Hp & Ha & Hr & Hc & Hidx & ws & Hws & Hwn & Hall & _); simpl in *.
  match goal with |- context [after_workers ?x] =>
    assert (TInv cfg x) as H1; [|apply after_workers_inv in H1;
                                 destruct (after_workers x); by intros [= <- <-]] end.
  use_inv H.
  constructor; simpl; rewrite ?Hi, ?Hp, ?Ha, ?Hr, ?Hws, ?Hwn; simpl; intros; try tinv_auto.
Qed.

(** Every local step keeps the invariant. *)
Lemma local_step_inv e t t' a :
  TInv cfg t → enabled e t → local_step cfg e t = (t', a) → TInv cfg t'.
Proof.
  destruct e as [| | |r|r|w r|w|r]; intros H Hen Hstep.
  - by eapply start_inv.
  - by eapply cancel_inv.
  - by eapply destroy_inv.
  - by eapply md5_inv.
  - by eapply check_inv.
  - eapply (worker_step_inv _ w); [|done|exact Hstep]. apply chunk_settled_spec.
  - eapply (worker_step_inv _ w); [|done|exact Hstep]. apply timer_fired_spec.
  - by eapply merge_inv.
Qed.

Lemma treach_inv t0 es acts t : TInv cfg t0 → treach cfg t0 es acts t → TInv cfg t.
Proof. intros H0. induction 1; [done|]. by eapply local_step_inv. Qed.

End Invariant.


(** Use what is known about [pc]. *)
Ltac pcs :=
  repeat match goal with H : pc _ = _ |- _ => rewrite H in * end; simpl in *; try done; try lia.

Section Quiescence.
Variable cfg : Config.

(** *** [processFile] never goes back *)

Lemma pc_ok_refl p : pc_ok p p.
Proof. unfold pc_ok. auto. Qed.

Lemma pc_ok_trans p q r : pc_ok p q → pc_ok q r → pc_ok p r.
Proof. unfold pc_ok. intros (?&?&?&?) (?&?&?&?). repeat split; auto; lia. Qed.

Lemma after_workers_pc t : pc_ok (pc t) (pc (after_workers t).1).
Proof. unfold pc_ok. unfold_blocks. break; repeat split; pcs. Qed.

Lemma worker_step_pc f w t t' a :
  (∀ t t1 a, f t = (t1, a) → (t1 = t ∧ a = []) ∨ worker_event w t t1) →
  then_after_workers f t = (t', a) → pc_ok (pc t) (pc t').
Proof.
  intros Hf. unfold then_after_workers.
  destruct (f t) as [t1 a1] eqn:Hft. apply Hf in Hft.
  pose proof (after_workers_pc t1) as H1. destruct (after_workers t1) as [t2 b].
  intros [= <- <-]. simpl in H1.
  destruct Hft as [[-> _]|(c & p & x & _ & _ & Hpc & _)]; [done|]. by rewrite <- Hpc.
Qed.

Lemma abort_reactions_pc t : pc_ok (pc t) (pc (abort_reactions cfg t).1).
Proof.
  unfold abort_reactions. destruct (pc t) eqn:Hpc; try (simpl; rewrite Hpc; apply pc_ok_refl).
  - unfold_blocks. unfold pc_ok. break; repeat split; pcs.
  - unfold then_after_workers. cbv beta. rewrite abort_fold_spec.
    pose proof (after_workers_pc (with_workers (reject_fetch <$> workers t) t)) as H.
    destruct (after_workers _). simpl in *. by rewrite Hpc in H.
  - unfold_blocks. unfold pc_ok. break; repeat split; pcs.
Qed.

Lemma local_step_pc e t t' a :
  e ≠ LStart → local_step cfg e t = (t', a) → pc_ok (pc t) (pc t').
Proof.
  destruct e as [| | |r|r|w r|w|r]; intros He; try done; simpl.
  - unfold cancelUpload_item. destruct (Item.status (item t));
      try (intros [= <- <-]; apply pc_ok_refl).
    all: destruct (registered t); [|intros [= <- <-]; apply pc_ok_refl].
    all: match goal with |- context [abort_reactions cfg ?x] =>
           pose proof (abort_reactions_pc x) as H; destruct (abort_reactions cfg x) end.
    all: by intros [= <- <-].
  - unfold destroy_item. destruct (registered t); [|intros [= <- <-]; apply pc_ok_refl].
    match goal with |- context [abort_reactions cfg ?x] =>
      pose proof (abort_reactions_pc x) as H; destruct (abort_reactions cfg x) end.
    by intros [= <- <-].
  - unfold pc_ok. unfold_blocks. intros. break; repeat split; pcs.
  - unfold check_settled. destruct (pc t) eqn:Hpc; try (intros [= <- <-]; rewrite Hpc; apply pc_ok_refl).
    destruct r as [response|e]; [|unfold pc_ok; unfold_blocks; intros; break; repeat split; pcs].
    destruct (negb (resp_ok response)); [unfold pc_ok; unfold_blocks; intros; break; repeat split; pcs|].
    destruct (CheckResult.exists_ _); [unfold pc_ok; unfold_blocks; intros; break; repeat split; pcs|].
    destruct (filter _ _) as [|c chunks];
      [unfold pc_ok; unfold_blocks; intros; break; repeat split; pcs|].
    unfold uploadChunksWithConcurrency.
    destruct (spawn_workers _ _) as [t1 a1] eqn:Hspawn.
    match goal with |- context [after_workers ?x] =>
      pose proof (after_workers_pc x) as H; destruct (after_workers x) end.
    intros [= <- <-]. simpl in H. destruct H as (?&?&?&?).
    repeat split; simpl in *; try done; lia.
  - apply (worker_step_pc _ w), chunk_settled_spec.
  - apply (worker_step_pc _ w), timer_fired_spec.
  - unfold pc_ok. unfold_blocks. intros. break; repeat split; pcs.
Qed.

(** *** Items waiting in the queue *)

(** Nothing but a dispatch or a cancellation touches an item that has not
    started. *)
Lemma notstarted_noop e t :
  TInv cfg t → pc t = NotStarted → e ≠ LStart → e ≠ LCancel →
  local_step cfg e t = (t, []).
Proof.
  intros H Hpc He1 He2.
  assert (workers t = []) as Hw by (apply (inv_early _ _ H); auto).
  assert (registered t = false) as Hr by (by apply (inv_notstarted _ _ H)).
  destruct e as [| | |r|r|w r|w|r]; try done; simpl;
    unfold destroy_item, md5_settled, check_settled, merge_settled, then_after_workers,
      chunk_settled, timer_fired, after_workers; rewrite ?Hpc, ?Hr, ?Hw; simpl; try done.
  all: by rewrite Hpc.
Qed.

(** ** Everything has stopped *)

(** A quiet item takes no step any more. *)
Lemma quiet_noop e t :
  quiet t → enabled e t → local_step cfg e t = (t, []).
Proof.
  intros (Hpc & Hterm & Hreg & Hbusy) Hen.
  assert (∀ w, match workers t !! w with Some (Busy _ _) => False | _ => True end) as Hw.
  { intros w. destruct (workers t !! w) as [[]|] eqn:Hl; try done.
    by apply (Forall_lookup_1 _ _ _ _ Hbusy) in Hl. }
  destruct e as [| | |r|r|w r|w|r]; simpl in *.
  - destruct Hen as [? _]. congruence.
  - unfold cancelUpload_item. by destruct (Item.status (item t)).
  - unfold destroy_item. by rewrite Hreg.
  - unfold md5_settled. by rewrite Hpc.
  - unfold check_settled. by rewrite Hpc.
  - unfold then_after_workers, chunk_settled, after_workers. specialize (Hw w).
    destruct (workers t !! w) as [[]|]; try done; by rewrite Hpc.
  - unfold then_after_workers, timer_fired, after_workers. specialize (Hw w).
    destruct (workers t !! w) as [[]|]; try done; by rewrite Hpc.
  - unfold merge_settled. by rewrite Hpc.
Qed.

Lemma quiet_treach t es acts t' :
  quiet t → treach cfg t es acts t' → t' = t ∧ acts = [].
Proof.
  intros Hq. induction 1 as [|es acts t1 e a t2 _ IH Hen Hstep]; [done|].
  destruct IH as [-> ->]. rewrite (quiet_noop e t Hq Hen) in Hstep. by simplify_eq.
Qed.

End Quiescence.


(** * The uploader: every step is local steps of its items *)

Lemma filter_insert_length {A} (P : A → bool) (l : list A) i x y :
  l !! i = Some x →
  length (List.filter P (<[i:=y]> l)) + (if P x then 1 else 0)
  = length (List.filter P l) + (if P y then 1 else 0).
Proof.
  revert i. induction l as [|z l IH]; intros [|i] H; simplify_eq/=.
  - destruct (P x), (P y); simpl; lia.
  - specialize (IH i H). destruct (P z); simpl; lia.
Qed.

Lemma actions_of_app id a b : actions_of id (a ++ b) = actions_of id a ++ actions_of id b.
Proof. apply filter_app. Qed.

Lemma actions_of_own id a : Forall (λ x, action_id x = id) a → actions_of id a = a.
Proof.
  induction 1 as [|x a Hx _ IH]; [done|].
  unfold actions_of in *. rewrite filter_cons_True by done. by rewrite IH.
Qed.

Lemma actions_of_other id id' a :
  id ≠ id' → Forall (λ x, action_id x = id') a → actions_of id a = [].
Proof.
  intros Hne. induction 1 as [|x a Hx _ IH]; [done|].
  unfold actions_of in *. rewrite filter_cons_False by congruence. done.
Qed.

Lemma actions_of_none id a :
  Forall (λ x, action_id x ≠ id) a → actions_of id a = [].
Proof.
  induction 1 as [|x a Hx _ IH]; [done|].
  unfold actions_of in *. by rewrite filter_cons_False.
Qed.

Lemma enabled_not_start e t : e ≠ LStart → enabled e t.
Proof. by destruct e. Qed.

Lemma Ginv_Gpre u : Ginv u ↔ Gpre (uploadQueue u) u.
Proof.
  split.
  - intros [[Hq Hnd Hid] Ht Hc Hb Hk]. unfold Gpre. auto 10.
  - intros (Hq & Hnd & Hid & Ht & Hc & Hb & Hk). by constructor.
Qed.

Lemma Gpre_with_queue q q' u : Gpre q u → Gpre q (with_uploadQueue q' u).
Proof. done. Qed.

Lemma Gpre_sub q q' u : Gpre q u → NoDup q' → q' ⊆ q → Gpre q' u.
Proof.
  intros (Hq & Hnd & Hrest) Hnd' Hsub. split; [|split; [done|done]].
  intros id Hin. apply Hq. by apply Hsub.
Qed.

Lemma Ginv_intro q u : Gpre q u → uploadQueue u = q → Ginv u.
Proof. intros H <-. by apply Ginv_Gpre. Qed.

(** ** [processQueue] *)

Lemma processQueue_loop_spec queue : ∀ u u' acts,
  Gpre queue u → processQueue_loop queue u = (u', acts) →
  Ginv u' ∧ config u' = config u ∧ files u' = files u ∧
  length (heap u') = length (heap u) ∧ uploadQueue u' ⊆ queue ∧
  Forall (λ a, action_id a ∈ queue) acts ∧
  ∀ id t, heap u !! id = Some t →
    ∃ t', heap u' !! id = Some t' ∧
      ((t' = t ∧ actions_of id acts = []) ∨
       (id ∈ queue ∧ enabled LStart t ∧
        local_step (config u) LStart t = (t', actions_of id acts))).
Proof.
  induction queue as [|id0 rest IH]; intros u u' acts Hpre; simpl.
  { intros [= <- <-].
    split; [by eapply Ginv_intro; [apply Gpre_with_queue, Hpre|]|].
    repeat split; try done. intros id t Hl. exists t. split; [done|]. by left. }
  destruct (uploadingCount u <? concurrentFiles (config u)) eqn:Hlt.
  2:{ intros [= <- <-].
      split; [by eapply Ginv_intro; [apply Gpre_with_queue, Hpre|]|].
      repeat split; try done. intros id t Hl. exists t. split; [done|]. by left. }
  destruct Hpre as (Hq & Hnd & Hid & Ht & Hc & Hb & Hk).
  apply Nat.ltb_lt in Hlt. simpl.
  destruct (Hq id0) as [f Hl0]; [by left|]. rewrite Hl0.
  set (t0 := new_task (config u) id0 f) in *.
  unfold processFile_start. simpl.
  match goal with |- context [<[id0:=?y]> _] => set (t0' := y) end.
  match goal with |- context [UpdateFileStatus ?y] => set (it := y) end.
  match goal with |- context [processQueue_loop rest ?x] => set (u1 := x) end.
  destruct (processQueue_loop rest u1) as [u2 b] eqn:Hloop. intros [= <- <-].
  apply NoDup_cons in Hnd as [Hnotin Hnd].
  assert (enabled LStart t0) as Hen by done.
  assert (local_step (config u) LStart t0 = (t0', [UpdateFileStatus it])) as Hstart by done.
  assert (Gpre rest u1) as Hpre1.
  { unfold Gpre. simpl.
    split; [|split; [done|split; [|split; [|split; [|split; [lia|done]]]]]].
    - intros id Hin. destruct (Hq id) as [g Hg]; [by right|]. exists g.
      rewrite list_lookup_insert_ne; [done|]. intros ->. done.
    - intros id t. destruct (decide (id = id0)) as [->|Hne].
      + rewrite list_lookup_insert_eq by (by eapply lookup_lt_Some). by intros [= <-].
      + rewrite list_lookup_insert_ne by done. apply Hid.
    - intros id t. destruct (decide (id = id0)) as [->|Hne].
      + rewrite list_lookup_insert_eq by (by eapply lookup_lt_Some). intros [= <-].
        eapply (start_inv _ t0); [by eapply Ht|done|exact Hstart].
      + rewrite list_lookup_insert_ne by done. apply Ht.
    - unfold in_flight_tasks in *. simpl.
      pose proof (filter_insert_length (λ t, in_flight (pc t)) (heap u) id0 t0 t0' Hl0) as Hf.
      simpl in Hf. lia. }
  destruct (IH u1 u2 b Hpre1 Hloop) as (HG & Hcfg & Hfiles & Hlen & Hsub & Hids & Hview).
  split; [done|]. split; [done|]. split; [done|].
  split; [by rewrite Hlen; simpl; rewrite length_insert|].
  split; [intros x Hx; right; by apply Hsub|].
  split.
  { constructor; [simpl; by left|]. eapply Forall_impl; [exact Hids|]. intros; by right. }
  intros id t Hl. change (UpdateFileStatus it :: b) with ([UpdateFileStatus it] ++ b).
  rewrite actions_of_app.
  destruct (decide (id = id0)) as [->|Hne].
  - assert (t = t0) as -> by congruence.
    destruct (Hview id0 t0') as (t' & Hl' & Hcase).
    { simpl. apply list_lookup_insert_eq. by eapply lookup_lt_Some. }
    exists t'. split; [done|]. right. split; [by left|]. split; [done|].
    destruct Hcase as [[-> Hb']|[Hin _]]; [|done].
    rewrite Hb', app_nil_r, actions_of_own; [done|].
    by repeat constructor.
  - destruct (Hview id t) as (t' & Hl' & Hcase).
    { simpl. by rewrite list_lookup_insert_ne. }
    exists t'. split; [done|].
    rewrite (actions_of_other id id0); [|done|by repeat constructor]; simpl.
    destruct Hcase as [?|(? & ? & ?)]; [by left|right].
    split; [by right|]. done.
Qed.

(** ** A step of one [processFile] call *)

Lemma on_task_spec e id u u' acts t :
  Ginv u → e ≠ LStart → heap u !! id = Some t →
  (id ∈ uploadQueue u → local_step (config u) e t = (t, [])) →
  on_task id (local_step (config u) e) u = (u', acts) →
  ∃ t' a, local_step (config u) e t = (t', a) ∧ heap u' !! id = Some t' ∧
    actions_of id acts = a ∧
    Ginv u' ∧ config u' = config u ∧ files u' = files u ∧
    length (heap u') = length (heap u) ∧ uploadQueue u' ⊆ uploadQueue u ∧
    (∀ id' s, id' ≠ id → heap u !! id' = Some s →
       ∃ s', heap u' !! id' = Some s' ∧
         ((s' = s ∧ actions_of id' acts = []) ∨
          (id' ∈ uploadQueue u ∧ enabled LStart s ∧
           local_step (config u) LStart s = (s', actions_of id' acts)))) ∧
    (∀ id', length (heap u) ≤ id' → actions_of id' acts = []).
Proof.
  intros HG He Hl Hq. unfold on_task. rewrite Hl.
  destruct (local_step (config u) e t) as [t' a] eqn:Hstep.
  pose proof (local_step_tidy (config u) e t) as Htidy. rewrite Hstep in Htidy.
  destruct Htidy as [Hsteady Hown]. simpl in Hsteady, Hown.
  pose proof (local_step_pc (config u) e t t' a He Hstep) as (Hpc1 & Hpc2 & Hpc3 & _).
  destruct HG as [[Hwq Hnd Hid] Ht Hc Hb Hk].
  assert (Item.id (item t) = id) as Htid by (by eapply Hid).
  rewrite Htid in Hown.
  assert (TInv (config u) t') as Ht'.
  { eapply local_step_inv; [by eapply Ht|by apply enabled_not_start|done]. }
  set (u1 := with_heap (<[id:=t']> (heap u)) u).
  assert (∀ id' s, id' ≠ id → heap u1 !! id' = Some s ↔ heap u !! id' = Some s) as Hother.
  { intros id' s Hne. simpl. by rewrite list_lookup_insert_ne. }
  assert (heap u1 !! id = Some t') as Hl1.
  { simpl. apply list_lookup_insert_eq. by eapply lookup_lt_Some. }
  assert (∀ q k, (∀ i, i ∈ q → i ∈ uploadQueue u) → NoDup q →
            k + (if in_flight (pc t) then 1 else 0)
              = uploadingCount u + (if in_flight (pc t') then 1 else 0) →
            k ≤ uploadingCount u →
            Gpre q (with_uploadingCount k u1)) as Hpre.
  { intros q k Hsub Hndq Hk' Hle. unfold Gpre. simpl.
    split; [|split; [done|split; [|split; [|split; [|split; [lia|done]]]]]].
    - intros i Hi. destruct (Hwq i (Hsub i Hi)) as [g Hg]. exists g.
      destruct (decide (i = id)) as [->|Hne].
      + rewrite list_lookup_insert_eq by (by eapply lookup_lt_Some).
        pose proof (Hq (Hsub _ Hi)) as Hq'. injection Hq' as Hq' _. congruence.
      + by rewrite list_lookup_insert_ne.
    - intros i s. destruct (decide (i = id)) as [->|Hne].
      + rewrite list_lookup_insert_eq by (by eapply lookup_lt_Some). intros [= <-].
        destruct Hsteady as [-> _]. done.
      + rewrite list_lookup_insert_ne by done. apply Hid.
    - intros i s. destruct (decide (i = id)) as [->|Hne].
      + rewrite list_lookup_insert_eq by (by eapply lookup_lt_Some). by intros [= <-].
      + rewrite list_lookup_insert_ne by done. apply Ht.
    - unfold in_flight_tasks in *. simpl.
      pose proof (filter_insert_length (λ t, in_flight (pc t)) (heap u) id t t' Hl) as Hf.
      simpl in Hf. destruct (in_flight (pc t)), (in_flight (pc t')); lia. }
  destruct (in_flight (pc t) && negb (in_flight (pc t'))) eqn:Hfin.
  - (* [processFile] settled *)
    apply andb_true_iff in Hfin as [Hf1 Hf2]. apply negb_true_iff in Hf2.
    assert (id ∉ uploadQueue u) as Hnq.
    { intros Hin. pose proof (Hq Hin) as Hq'. injection Hq' as Hq' _. congruence. }
    unfold processQueue. simpl.
    destruct (processQueue_loop _ _) as [u2 b] eqn:Hloop. intros [= <- <-].
    assert (0 < uploadingCount u) as Hpos.
    { rewrite Hc. unfold in_flight_tasks.
      pose proof (filter_insert_length (λ t, in_flight (pc t)) (heap u) id t t' Hl) as Hf.
      simpl in Hf. rewrite Hf1, Hf2 in Hf. lia. }
    apply processQueue_loop_spec in Hloop
      as (HG2 & Hcfg & Hfiles & Hlen & Hsub & Hids & Hview).
    2:{ apply Hpre; try done; rewrite ?Hf1, ?Hf2; lia. }
    simpl in *. rewrite length_insert in Hlen.
    assert (actions_of id b = []) as Hb0.
    { apply actions_of_none. eapply Forall_impl; [exact Hids|]. simpl. intros x Hx Heq. by rewrite Heq in Hx. }
    exists t', a. split; [done|].
    destruct (Hview id t' Hl1) as (t'' & Hl'' & Hcase).
    destruct Hcase as [[-> _]|[Hin _]]; [|done].
    split; [done|]. split.
    { by rewrite actions_of_app, Hb0, app_nil_r, actions_of_own. }
    split; [done|]. split; [done|]. split; [done|]. split; [done|]. split; [done|].
    split.
    + intros id' s Hne Hl'. destruct (Hview id' s) as (s' & Hs' & Hcase').
      { by apply Hother. }
      exists s'. split; [done|]. rewrite actions_of_app.
      rewrite (actions_of_other id' id a) by done. simpl. done.
    + intros id' Hge. rewrite actions_of_app.
      rewrite (actions_of_other id' id a); [|intros ->; apply lookup_lt_Some in Hl; lia|done].
      apply actions_of_none. eapply Forall_impl; [exact Hids|]. simpl. intros x Hx Heq.
      destruct (Hwq _ Hx) as [g Hg]. apply lookup_lt_Some in Hg. lia.
  - intros [= <- <-].
    assert (in_flight (pc t') = in_flight (pc t)) as Hsame.
    { destruct (in_flight (pc t)) eqn:E1, (in_flight (pc t')) eqn:E2; try done.
      by specialize (Hpc2 eq_refl). }
    exists t', a. split; [done|]. split; [done|]. split; [by apply actions_of_own|].
    split.
    { apply Ginv_Gpre. simpl.
      specialize (Hpre (uploadQueue u) (uploadingCount u)).
      replace (with_uploadingCount (uploadingCount u) u1) with u1 in Hpre by done.
      apply Hpre; try done; rewrite Hsame; lia. }
    simpl. rewrite length_insert. repeat split; try done.
    + intros id' s Hne Hl'. exists s. rewrite list_lookup_insert_ne by done.
      split; [done|]. left. split; [done|]. by apply (actions_of_other id' id).
    + intros id' Hge. apply (actions_of_other id' id); [|done].
      intros ->. apply lookup_lt_Some in Hl. lia.
Qed.

(** ** Every step, item by item *)

Lemma moved_refl cfg id ev ot : moved cfg id ev ot ot [].
Proof. destruct ot as [t|]; simpl; [|by left]. exists t. split; [done|]. by left. Qed.

Lemma on_task_moved e id ev u u' acts :
  Ginv u → e ≠ LStart → from_event id ev e →
  (∀ t, heap u !! id = Some t → id ∈ uploadQueue u → local_step (config u) e t = (t, [])) →
  on_task id (local_step (config u) e) u = (u', acts) →
  Ginv u' ∧ config u' = config u ∧ files u' = files u ∧ uploadQueue u' ⊆ uploadQueue u ∧
  ∀ id', moved (config u) id' ev (heap u !! id') (heap u' !! id') (actions_of id' acts).
Proof.
  intros HG He Hev Hq Hon.
  destruct (heap u !! id) as [t|] eqn:Hl.
  2:{ unfold on_task in Hon. rewrite Hl in Hon. injection Hon as <- <-.
      split; [done|]. split; [done|]. split; [done|]. split; [done|].
      intros id'. apply moved_refl. }
  destruct (on_task_spec e id u u' acts t HG He Hl (Hq t eq_refl) Hon)
    as (t' & a & Hstep & Hl' & Ha & HG' & Hcfg & Hfiles & Hlen & Hsub & Hothers & Hnew).
  split; [done|]. split; [done|]. split; [done|]. split; [done|]. intros id'.
  destruct (decide (id' = id)) as [->|Hne].
  - rewrite Hl, Hl'. simpl. exists t'. split; [done|]. right. exists e.
    split; [by apply enabled_not_start|]. split; [done|]. by rewrite Ha.
  - destruct (heap u !! id') as [s|] eqn:Hs; simpl.
    + destruct (Hothers id' s Hne Hs) as (s' & Hs' & Hcase). exists s'. split; [done|].
      destruct Hcase as [[-> ->]|(_ & Hen & Hst)]; [by left|]. right. by exists LStart.
    + left. apply lookup_ge_None in Hs. split.
      * apply lookup_ge_None. lia.
      * by apply Hnew.
Qed.

Lemma destroy_fold_spec n : ∀ u u' acts,
  Ginv u → uploadQueue u = [] → n ≤ length (heap u) →
  foldl (λ '(u, a) id, let '(u, b) := on_task id (destroy_item (config u)) u in (u, a ++ b))
        (u, []) (seq 0 n) = (u', acts) →
  Ginv u' ∧ uploadQueue u' = [] ∧ config u' = config u ∧ files u' = files u ∧
  length (heap u') = length (heap u) ∧
  ∀ id,
    (id < n → ∀ t, heap u !! id = Some t →
       ∃ t', heap u' !! id = Some t' ∧
             local_step (config u) LDestroy t = (t', actions_of id acts)) ∧
    (n ≤ id → heap u' !! id = heap u !! id ∧ actions_of id acts = []).
Proof.
  induction n as [|n IH]; intros u u' acts HG Hq Hn.
  { simpl. intros [= <- <-]. do 5 (split; [done|]). intros id. split; [lia|done]. }
  rewrite seq_S, foldl_app. simpl.
  destruct (foldl _ _ (seq 0 n)) as [u1 a1] eqn:Hfold.
  destruct (IH u u1 a1 HG Hq) as (HG1 & Hq1 & Hcfg1 & Hfiles1 & Hlen1 & Hview1); [lia|done|].
  destruct (on_task n (destroy_item (config u1)) u1) as [u2 b] eqn:Hon. intros [= <- <-].
  destruct (heap u1 !! n) as [t1|] eqn:Hl1.
  2:{ apply lookup_ge_None in Hl1. lia. }
  change (destroy_item (config u1)) with (local_step (config u1) LDestroy) in Hon.
  destruct (on_task_spec LDestroy n u1 u2 b t1 HG1) as
    (t' & a & Hstep & Hl' & Ha & HG' & Hcfg & Hfiles & Hlen & Hsub & Hothers & Hnew); try done.
  { rewrite Hq1. by intros ?%elem_of_nil. }
  assert (uploadQueue u2 = []) as Hq2.
  { destruct (uploadQueue u2) as [|x q] eqn:E; [done|].
    assert (x ∈ uploadQueue u1) as Hx by (apply Hsub; left).
    rewrite Hq1 in Hx. by apply elem_of_nil in Hx. }
  split; [done|]. split; [done|]. split; [congruence|]. split; [congruence|].
  split; [congruence|].
  intros id. rewrite actions_of_app. split.
  - intros Hid t Ht. destruct (decide (id = n)) as [->|Hne].
    + destruct (Hview1 n) as [_ Hsame]. destruct Hsame as [Heq Hnone]; [lia|].
      rewrite Hnone. simpl. exists t'. split; [done|].
      rewrite Ha, <- Hcfg1. assert (t1 = t) as -> by congruence. done.
    + destruct (Hview1 id) as [Hlt _]. destruct (Hlt ltac:(lia) t Ht) as (s & Hs & Hst).
      destruct (Hothers id s Hne Hs) as (s' & Hs' & Hcase).
      destruct Hcase as [[-> Hb]|(Hin & _)].
      * exists s. split; [done|]. by rewrite Hb, app_nil_r.
      * rewrite Hq1 in Hin. by apply elem_of_nil in Hin.
  - intros Hid. destruct (Hview1 id) as [_ Hsame]. destruct Hsame as [Heq Hnone]; [lia|].
    rewrite Hnone. simpl.
    destruct (heap u1 !! id) as [s|] eqn:Hs.
    + destruct (Hothers id s ltac:(lia) Hs) as (s' & Hs' & Hcase).
      destruct Hcase as [[-> Hb]|(Hin & _)].
      * split; [congruence|done].
      * rewrite Hq1 in Hin. by apply elem_of_nil in Hin.
    + split.
      * rewrite <- Heq. apply lookup_ge_None. apply lookup_ge_None in Hs. lia.
      * apply Hnew. by apply lookup_ge_None.
Qed.

Lemma in_flight_tasks_app h news :
  Forall (λ t, pc t = NotStarted) news →
  length (List.filter (λ t, in_flight (pc t)) (h ++ news))
  = length (List.filter (λ t, in_flight (pc t)) h).
Proof.
  intros Hn. rewrite List.filter_app, length_app.
  assert (List.filter (λ t, in_flight (pc t)) news = []) as ->; [|simpl; lia].
  induction Hn as [|t news Ht _ IH]; [done|]. simpl. by rewrite Ht.
Qed.

(** Every step of the uploader keeps its invariant and moves every item by
    at most one local step. *)
Theorem step_local u ev u' acts :
  Ginv u → step u ev = (u', acts) →
  Ginv u' ∧ config u' = config u ∧
  ∀ id, moved (config u) id ev (heap u !! id) (heap u' !! id) (actions_of id acts).
Proof.
  intros HG.
  assert (∀ e id, e ≠ LStart → e ≠ LCancel →
            ∀ t, heap u !! id = Some t → id ∈ uploadQueue u →
                 local_step (config u) e t = (t, [])) as Hnoop.
  { intros e id He1 He2 t Hl Hin.
    destruct (wf_queue _ (g_wf _ HG) id Hin) as [f Hf].
    assert (t = new_task (config u) id f) as -> by congruence.
    apply notstarted_noop; try done. apply new_task_inv. }
  destruct ev as [fileList|fileId| |id r|id r|id w r|id w|id r]; simpl.
  - (* addFiles *)
    unfold addFiles, processQueue. simpl.
    set (base := length (heap u)).
    set (news := imap (λ k file, new_task (config u) (base + k) file) fileList).
    set (ids := seq base (length fileList)).
    match goal with |- processQueue_loop _ ?x = _ → _ => set (u1 := x) end.
    intros Hloop.
    destruct HG as [[Hwq Hnd Hid] Ht Hc Hb Hk].
    assert (∀ id, heap u1 !! id =
              if decide (id < base) then heap u !! id
              else new_task (config u) id <$> fileList !! (id - base)) as Hheap.
    { intros id. simpl. destruct (decide (id < base)) as [Hlt|Hge].
      - by rewrite lookup_app_l.
      - rewrite lookup_app_r by (unfold base in *; lia). unfold news.
        rewrite list_lookup_imap. fold base.
        destruct (fileList !! (id - base)); simpl; [|done].
        do 2 f_equal. lia. }
    assert (Gpre (uploadQueue u ++ ids) u1) as Hpre.
    { unfold Gpre.
      split; [|split; [|split; [|split; [|split; [|split; [done|done]]]]]].
      - intros id [Hin|Hin]%elem_of_app.
        + destruct (Hwq id Hin) as [f Hf]. exists f. rewrite Hheap.
          apply lookup_lt_Some in Hf as Hlt. fold base in Hlt. by rewrite decide_True.
        + apply elem_of_seq in Hin as [Hge Hlt]. rewrite Hheap.
          rewrite decide_False by lia.
          destruct (fileList !! (id - base)) as [f|] eqn:Hf; [by exists f|].
          apply lookup_ge_None in Hf. lia.
      - apply NoDup_app. split; [done|]. split; [|apply NoDup_seq].
        intros id Hin [Hge _]%elem_of_seq.
        destruct (Hwq id Hin) as [f Hf]. apply lookup_lt_Some in Hf. unfold base in *. lia.
      - intros id t. rewrite Hheap. destruct (decide (id < base)); [apply Hid|].
        destruct (fileList !! (id - base)); simpl; [|done]. by intros [= <-].
      - intros id t. rewrite Hheap. destruct (decide (id < base)); [apply Ht|].
        destruct (fileList !! (id - base)); simpl; [|done]. intros [= <-].
        apply new_task_inv.
      - simpl. unfold in_flight_tasks. simpl. rewrite in_flight_tasks_app; [done|].
        unfold news. apply Forall_forall. intros t Hin.
        apply list_elem_of_lookup in Hin as [k Hk']. rewrite list_lookup_imap in Hk'.
        destruct (fileList !! k); simpl in Hk'; [|done]. by injection Hk' as <-. }
    destruct (processQueue_loop_spec _ _ _ _ Hpre Hloop)
      as (HG' & Hcfg & _ & Hlen & _ & Hids & Hview).
    split; [done|]. split; [done|]. intros id.
    assert (∀ t, heap u1 !! id = Some t →
              ∃ t', heap u' !! id = Some t' ∧
                    lstep (config u) id (AddFiles fileList) t (actions_of id acts) t') as Hl.
    { intros t Ht1. destruct (Hview id t Ht1) as (t' & Ht' & Hcase).
      exists t'. split; [done|].
      destruct Hcase as [[-> ->]|(_ & Hen & Hst)]; [by left|]. right. by exists LStart. }
    specialize (Hheap id). destruct (decide (id < base)) as [Hlt|Hge].
    + rewrite <- Hheap. destruct (heap u1 !! id) as [t|] eqn:Ht1; simpl.
      * by apply Hl.
      * apply lookup_ge_None in Ht1. simpl in Ht1. rewrite length_app in Ht1.
        unfold base in *. lia.
    + assert (heap u !! id = None) as -> by (apply lookup_ge_None; unfold base in *; lia).
      simpl. destruct (fileList !! (id - base)) as [f|] eqn:Hf; simpl in Hheap.
      * right. exists f. by apply Hl.
      * left. split.
        -- apply lookup_ge_None. rewrite Hlen. by apply lookup_ge_None.
        -- apply actions_of_none. eapply Forall_impl; [exact Hids|]. simpl.
           intros x Hx Heq. rewrite Heq in Hx. apply elem_of_app in Hx as [Hx|Hx].
           ++ destruct (Hwq id Hx) as [g Hg]. apply lookup_lt_Some in Hg.
              unfold base in *. lia.
           ++ apply elem_of_seq in Hx. apply lookup_ge_None in Hf. lia.
  - (* cancelUpload *)
    unfold cancelUpload. destruct (bool_decide _); [|intros [= <- <-]].
    2:{ split; [done|]. split; [done|]. intros. apply moved_refl. }
    destruct (heap u !! fileId) as [t|] eqn:Hl; [|intros [= <- <-]].
    2:{ split; [done|]. split; [done|]. intros. apply moved_refl. }
    match goal with |- on_task _ _ ?x = _ → _ => set (u1 := x) end.
    assert (config u1 = config u ∧ heap u1 = heap u ∧ uploadQueue u1 ⊆ uploadQueue u ∧
            Ginv u1 ∧ fileId ∉ uploadQueue u1) as (Hcfg1 & Hheap1 & Hsub1 & HG1 & Hnotin).
    { unfold u1. pose proof (wf_queue _ (g_wf _ HG)) as Hwq.
      destruct (Item.status (item t)) eqn:Hst;
        try (split; [done|]; split; [done|]; split; [done|]; split; [done|];
             intros Hin; destruct (Hwq _ Hin) as [f Hf];
             assert (t = new_task (config u) fileId f) as -> by congruence; done).
      split; [done|]. split; [done|].
      split; [intros x [_ ?]%list_elem_of_filter; done|].
      split; [|by intros [? _]%list_elem_of_filter].
      eapply Ginv_intro; [|done]. apply Gpre_with_queue.
      apply (Gpre_sub (uploadQueue u)).
      - by apply Ginv_Gpre.
      - apply NoDup_filter, (wf_nodup _ (g_wf _ HG)).
      - intros x [_ ?]%list_elem_of_filter. done. }
    intros Hon.
    change (cancelUpload_item (config u1)) with (local_step (config u1) LCancel) in Hon.
    destruct (on_task_moved LCancel fileId (CancelUpload fileId) u1 u' acts HG1)
      as (HG' & Hcfg & _ & _ & Hview); try done.
    split; [done|]. split; [congruence|]. intros id. specialize (Hview id).
    by rewrite Hheap1, Hcfg1 in Hview.
  - (* destroy *)
    unfold destroy.
    match goal with |- foldl _ (?x, _) _ = _ → _ => set (u1 := x) end.
    assert (Ginv u1) as HG1.
    { destruct HG as [[Hwq Hnd Hid] Ht Hc Hb Hk]. constructor; try done.
      constructor; simpl; try done; [by intros ? ?%elem_of_nil|constructor]. }
    intros Hfold.
    destruct (destroy_fold_spec (length (heap u1)) u1 u' acts HG1)
      as (HG' & _ & Hcfg & _ & Hlen & Hview); [done|done|exact Hfold|].
    split; [done|]. split; [done|]. intros id. destruct (Hview id) as [Hlt Hge].
    destruct (heap u !! id) as [t|] eqn:Hl; simpl.
    + apply lookup_lt_Some in Hl as Hlen'. destruct (Hlt Hlen' t Hl) as (t' & Hl' & Hst).
      exists t'. split; [done|]. right. by exists LDestroy.
    + apply lookup_ge_None in Hl as Hlen'. destruct (Hge Hlen') as [Heq Hnone].
      left. simpl in Heq. by rewrite Heq, Hl.
  - intros Hon. change (md5_settled r) with (local_step (config u) (LMD5 r)) in Hon.
    destruct (on_task_moved (LMD5 r) id (MD5Settled id r) u u' acts HG)
      as (HG' & Hcfg & _ & _ & Hview); try done. by apply Hnoop.
  - intros Hon. change (check_settled (config u) r) with (local_step (config u) (LCheck r)) in Hon.
    destruct (on_task_moved (LCheck r) id (CheckSettled id r) u u' acts HG)
      as (HG' & Hcfg & _ & _ & Hview); try done. by apply Hnoop.
  - intros Hon.
    change (then_after_workers (chunk_settled (config u) w r))
      with (local_step (config u) (LChunk w r)) in Hon.
    destruct (on_task_moved (LChunk w r) id (ChunkSettled id w r) u u' acts HG)
      as (HG' & Hcfg & _ & _ & Hview); try done. by apply Hnoop.
  - intros Hon.
    change (then_after_workers (timer_fired (config u) w))
      with (local_step (config u) (LTimer w)) in Hon.
    destruct (on_task_moved (LTimer w) id (TimerFired id w) u u' acts HG)
      as (HG' & Hcfg & _ & _ & Hview); try done. by apply Hnoop.
  - intros Hon. change (merge_settled r) with (local_step (config u) (LMerge r)) in Hon.
    destruct (on_task_moved (LMerge r) id (MergeSettled id r) u u' acts HG)
      as (HG' & Hcfg & _ & _ & Hview); try done. by apply Hnoop.
Qed.


(** * Runs of the uploader *)

Lemma treach_trans cfg t0 es a t1 es' a' t2 :
  treach cfg t0 es a t1 → treach cfg t1 es' a' t2 → treach cfg t0 (es ++ es') (a ++ a') t2.
Proof.
  intros H1 H2. induction H2 as [|es' a' t e b t' _ IH Hen Hstep].
  - by rewrite !app_nil_r.
  - rewrite !app_assoc. by econstructor.
Qed.

Lemma treach_one cfg t e a t' :
  enabled e t → local_step cfg e t = (t', a) → treach cfg t [e] a t'.
Proof. intros. by apply (treach_snoc cfg t [] [] t e a t'); [constructor|..]. Qed.

Lemma lstep_treach cfg id ev t a t' :
  lstep cfg id ev t a t' → ∃ es, treach cfg t es a t' ∧ Forall (from_event id ev) es.
Proof.
  intros [[-> ->]|(e & Hen & Hev & Hstep)].
  - exists []. split; constructor.
  - exists [e]. split; [by apply treach_one|by repeat constructor].
Qed.

Lemma history_refl cfg id ot : history cfg id [] ot ot [].
Proof.
  destruct ot as [t|]; simpl; [|by left]. exists t, []. split; [done|]. split; constructor.
Qed.

(** Every run keeps the invariant; each item goes through a sequence of
    local steps, and what the log holds for the item is what these steps
    did. *)
Theorem run_local evs : ∀ u u' acts,
  Ginv u → run u evs = (u', acts) →
  Ginv u' ∧ config u' = config u ∧
  ∀ id, history (config u) id evs (heap u !! id) (heap u' !! id) (actions_of id acts).
Proof.
  induction evs as [|ev evs IH]; intros u u' acts HG; simpl.
  { intros [= <- <-]. split; [done|]. split; [done|]. intros. apply history_refl. }
  destruct (step u ev) as [u1 a] eqn:Hstep. destruct (run u1 evs) as [u2 b] eqn:Hrun.
  intros [= <- <-].
  destruct (step_local u ev u1 a HG Hstep) as (HG1 & Hcfg1 & Hmoved).
  destruct (IH u1 u2 b HG1 Hrun) as (HG2 & Hcfg2 & Hhist).
  split; [done|]. split; [congruence|]. intros id.
  specialize (Hmoved id). specialize (Hhist id). rewrite Hcfg1 in Hhist.
  rewrite actions_of_app.
  assert (∀ es, Forall (from_event id ev) es →
            Forall (λ e, ∃ ev', ev' ∈ ev :: evs ∧ from_event id ev' e) es) as Hhead.
  { intros es Hes. eapply Forall_impl; [exact Hes|]. intros e He. exists ev. split; [by left|done]. }
  assert (∀ es, Forall (λ e, ∃ ev', ev' ∈ evs ∧ from_event id ev' e) es →
            Forall (λ e, ∃ ev', ev' ∈ ev :: evs ∧ from_event id ev' e) es) as Htail.
  { intros es Hes. eapply Forall_impl; [exact Hes|]. intros e (ev' & Hin & He). exists ev'. split; [by right|done]. }
  assert (∀ t t1, lstep (config u) id ev t (actions_of id a) t1 → heap u1 !! id = Some t1 →
            ∃ t' es, heap u2 !! id = Some t' ∧
              treach (config u) t es (actions_of id a ++ actions_of id b) t' ∧
              Forall (λ e, ∃ ev', ev' ∈ ev :: evs ∧ from_event id ev' e) es) as Hcompose.
  { intros t t1 Hl Hl1. rewrite Hl1 in Hhist. simpl in Hhist.
    destruct Hhist as (t' & es & Hl2 & Hreach & Hes).
    apply lstep_treach in Hl as (es0 & Hreach0 & Hes0).
    exists t', (es0 ++ es). split; [done|]. split; [by eapply treach_trans|].
    apply Forall_app. auto. }
  destruct (heap u !! id) as [t|] eqn:Hl; simpl in *.
  - destruct Hmoved as (t1 & Hl1 & Hls). by eapply Hcompose.
  - destruct Hmoved as [[Hl1 ->]|(f & t1 & Hl1 & Hls)].
    + rewrite Hl1 in Hhist. simpl in *.
      destruct Hhist as [?|(f & t' & es & ? & ? & ?)]; [by left|].
      right. exists f, t', es. auto.
    + right. exists f. by eapply Hcompose.
Qed.

(** ** From the constructor on *)

Lemma or_nat_pos x d : 1 ≤ d → 1 ≤ or_nat x d.
Proof. destruct x as [[|n]|]; simpl; lia. Qed.

Lemma or_N_pos x d : (0 < d)%N → (0 < or_N x d)%N.
Proof. destruct x as [[|p]|]; simpl; lia. Qed.

(** The uploader the constructor returns: nothing queued, nothing in
    flight, and bounds and chunk size that are at least one. *)
Lemma constructor_inv options u0 :
  constructor options = inr u0 →
  Ginv u0 ∧ heap u0 = [] ∧ 1 ≤ concurrentFiles (config u0) ∧
  1 ≤ concurrentChunks (config u0) ∧ (0 < chunkSize (config u0))%N.
Proof.
  unfold constructor, configure.
  destruct (truthy_string (opt_checkEndpoint options)),
    (truthy_string (opt_chunkEndpoint options)),
    (truthy_string (opt_mergeEndpoint options)); try done.
  intros [= <-]. simpl.
  assert (∀ x, 1 ≤ or_nat x 3) as Hpos by (intros; apply or_nat_pos; lia).
  split; [|split; [done|]; split; [done|split; [done|]]].
  - constructor; simpl; try done; try lia.
    constructor; simpl; try done; [by intros ? ?%elem_of_nil|constructor].
  - by apply or_N_pos.
Qed.

(** What is known of every reachable state. *)
Theorem reachable_inv u log :
  reachable u log →
  Ginv u ∧
  ∀ id t, heap u !! id = Some t →
    ∃ f es, treach (config u) (new_task (config u) id f) es (actions_of id log) t.
Proof.
  intros (options & u0 & evs & Hc & Hrun).
  apply constructor_inv in Hc as (HG0 & Hheap & _).
  destruct (run_local evs u0 u log HG0 Hrun) as (HG & Hcfg & Hhist).
  split; [done|]. intros id t Hl. specialize (Hhist id).
  rewrite Hheap, Hl in Hhist. simpl in Hhist.
  destruct Hhist as [[? _]|(f & t' & es & Ht' & Hreach & _)]; [done|].
  injection Ht' as <-. rewrite <- Hcfg in Hreach. eauto.
Qed.

Lemma reachable_step u log ev u' acts :
  reachable u log → step u ev = (u', acts) → reachable u' (log ++ acts).
Proof.
  intros (options & u0 & evs & Hc & Hrun) Hstep.
  exists options, u0, (evs ++ [ev]). split; [done|].
  clear Hc. revert u0 u log Hrun Hstep.
  induction evs as [|e evs IH]; intros u0 u log; simpl.
  - intros [= <- <-] ->. by rewrite app_nil_r.
  - destruct (step u0 e) as [u1 a]. destruct (run u1 evs) as [u2 b] eqn:Hrun.
    intros [= <- <-] Hstep. rewrite (IH u1 u2 b Hrun Hstep). by rewrite app_assoc.
Qed.

Lemma run_app evs1 : ∀ evs2 u u1 a u2 b,
  run u evs1 = (u1, a) → run u1 evs2 = (u2, b) → run u (evs1 ++ evs2) = (u2, a ++ b).
Proof.
  induction evs1 as [|e evs1 IH]; intros evs2 u u1 a u2 b; simpl.
  - by intros [= <- <-] ->.
  - destruct (step u e) as [u' a']. destruct (run u' evs1) as [u'' a''] eqn:Hrun.
    intros [= <- <-] Hrun2. rewrite (IH evs2 u' u'' a'' u2 b Hrun Hrun2).
    by rewrite app_assoc.
Qed.

Lemma reachable_run u log evs u' acts :
  reachable u log → run u evs = (u', acts) → reachable u' (log ++ acts).
Proof.
  intros (options & u0 & evs0 & Hc & Hrun0) Hrun.
  exists options, u0, (evs0 ++ evs). split; [done|]. by eapply run_app.
Qed.


(** * Chunk accounting: every chunk is uploaded once before the merge *)

Lemma busy_chunks_app ws ws' : busy_chunks (ws ++ ws') = busy_chunks ws ++ busy_chunks ws'.
Proof. apply omap_app. Qed.

Lemma busy_chunks_one w : busy_chunks [w] = chunk_of w.
Proof. by destruct w. Qed.

Lemma busy_chunks_cons y ws : busy_chunks (y :: ws) = chunk_of y ++ busy_chunks ws.
Proof. by destruct y. Qed.

Lemma busy_chunks_insert ws : ∀ w x,
  w < length ws → busy_chunks (<[w:=x]> ws) ≡ₚ chunk_of x ++ busy_chunks (<[w:=Finished]> ws).
Proof.
  induction ws as [|y ws IH]; intros [|w] x Hw; try (simpl in Hw; lia).
  - change (<[0:=x]> (y :: ws)) with (x :: ws).
    change (<[0:=Finished]> (y :: ws)) with (Finished :: ws).
    by rewrite !busy_chunks_cons.
  - change (<[S w:=x]> (y :: ws)) with (y :: <[w:=x]> ws).
    change (<[S w:=Finished]> (y :: ws)) with (y :: <[w:=Finished]> ws).
    rewrite !busy_chunks_cons, (IH w x) by (simpl in Hw; lia).
    rewrite !app_assoc. f_equiv. apply Permutation_app_comm.
Qed.

Lemma busy_chunks_lookup ws w c p :
  ws !! w = Some (Busy c p) → busy_chunks ws ≡ₚ c :: busy_chunks (<[w:=Finished]> ws).
Proof.
  intros Hw. rewrite <- (list_insert_id ws w (Busy c p) Hw) at 1.
  rewrite busy_chunks_insert by (by eapply lookup_lt_Some). done.
Qed.

Lemma first_failed_insert_failed ws : ∀ w e,
  w < length ws → first_failed ws = None → first_failed (<[w:=Failed e]> ws) ≠ None.
Proof.
  induction ws as [|y ws IH]; intros [|w] e Hw Hff; simpl in *; try lia; try done.
  destruct y; try done; apply IH; try done; lia.
Qed.

Lemma first_failed_insert_other ws : ∀ w x,
  (∀ e, x ≠ Failed e) → first_failed ws = None → first_failed (<[w:=x]> ws) = None.
Proof.
  induction ws as [|y ws IH]; intros [|w] x Hx Hff; simpl in *; try done.
  - destruct x as [| |e']; try done; [by destruct y|by destruct y|by destruct (Hx e')].
  - destruct y; try done; by apply IH.
Qed.

Lemma exists_finished_insert ws : ∀ w x,
  x ≠ Finished → Exists (λ w, w = Finished) (<[w:=x]> ws) → Exists (λ w, w = Finished) ws.
Proof.
  induction ws as [|y ws IH]; intros [|w] x Hx; simpl; try done.
  - intros [?|?]%Exists_cons; [done|]. by apply Exists_cons_tl.
  - intros [?|?]%Exists_cons; [by apply Exists_cons_hd|]. apply Exists_cons_tl. by eapply IH.
Qed.

Lemma all_finished_no_busy ws : Forall (λ w, w = Finished) ws → busy_chunks ws = [].
Proof. induction 1 as [|? ? -> _ IH]; [done|]. done. Qed.

Lemma first_failed_app ws x :
  first_failed ws = None → first_failed (ws ++ [x]) = first_failed [x].
Proof. induction ws as [|[] ws IH]; simpl; try done. Qed.

(** A well-formed resumable set and the chunks still to upload are
    together all chunks, once each. *)
Lemma resume_partition total l :
  resume_set_ok total l →
  l ++ filter (λ i, i ∉ l) (seq 0 total) ≡ₚ seq 0 total.
Proof.
  intros [Hnd Hlt]. apply NoDup_Permutation.
  - apply NoDup_app. split; [done|]. split; [|apply NoDup_filter, NoDup_seq].
    intros x Hx [Hnx _]%list_elem_of_filter. done.
  - apply NoDup_seq.
  - intros x. rewrite elem_of_app, list_elem_of_filter, elem_of_seq. split.
    + intros [Hx|[_ ?]]; [|done]. rewrite Forall_forall in Hlt. specialize (Hlt x Hx). lia.
    + intros Hx. destruct (decide (x ∈ l)); auto.
Qed.

Section Chunks.
Variable cfg : Config.

(** *** The workers' start *)

Lemma worker_loop_running t :
  aborted t = false →
  worker_loop t =
    match chunksToUpload t !! index t with
    | Some c => (with_index (S (index t)) t, Busy c (Retry.AwaitFn 0),
                 [FetchChunk (Item.id (item t)) c 0])
    | None => (t, Finished, [])
    end.
Proof.
  intros Hab. unfold worker_loop, uploadChunk_start, suspend_worker, Retry.start, Retry.iteration.
  destruct (chunksToUpload t !! index t); [|done]. simpl. by rewrite Hab.
Qed.

Lemma spawn_workers_chunks n : ∀ t t' a,
  aborted t = false → first_failed (workers t) = None →
  spawn_workers n t = (t', a) →
  first_failed (workers t') = None ∧
  busy_chunks (workers t') ++ drop (index t') (chunksToUpload t)
    ≡ₚ busy_chunks (workers t) ++ drop (index t) (chunksToUpload t) ∧
  Forall (λ x, is_merge_call x = false) a.
Proof.
  induction n as [|n IH]; intros t t' a Hab Hff; simpl.
  { by intros [= <- <-]. }
  rewrite worker_loop_running by done.
  destruct (chunksToUpload t !! index t) as [c|] eqn:Hc.
  - match goal with |- context [spawn_workers n ?x] =>
      destruct (spawn_workers n x) as [t2 b] eqn:Hs end. intros [= <- <-].
    apply IH in Hs as (Hff2 & Hperm & Hacts); simpl; try done;
      try (by rewrite first_failed_app).
    split; [done|]. split; [|by constructor].
    simpl in Hperm. rewrite Hperm, busy_chunks_app. simpl.
    rewrite (drop_S _ c (index t)) by done.
    rewrite <- app_assoc. done.
  - match goal with |- context [spawn_workers n ?x] =>
      destruct (spawn_workers n x) as [t2 b] eqn:Hs end. intros [= <- <-].
    apply IH in Hs as (Hff2 & Hperm & Hacts); simpl; try done;
      try (by rewrite first_failed_app).
    split; [done|]. split; [|done].
    simpl in Hperm. rewrite Hperm, busy_chunks_app. simpl. by rewrite app_nil_r.
Qed.

(** *** When [Promise.all] settles *)

Lemma after_workers_complete t :
  (pc t = AwaitWorkers → first_failed (workers t) ≠ None ∨ running_ok t) →
  (pc t = AwaitMerge →
     Item.uploadedChunks (item t) ≡ₚ seq 0 (Item.totalChunks (item t))) →
  Complete (after_workers t).1.
Proof.
  intros Hrun Hmerge. unfold after_workers.
  destruct (pc t) eqn:Hpc; try (constructor; simpl; rewrite Hpc; done).
  destruct (Hrun eq_refl) as [Hfail|(Hperm & Hfin & Hsome)]; unfold promise_all.
  { destruct (first_failed (workers t)); [|done].
    unfold catch_block. constructor; simpl; done. }
  destruct (first_failed (workers t)) as [e|] eqn:Hff.
  { unfold catch_block. constructor; simpl; done. }
  destruct (forallb is_finished (workers t)) eqn:Hall.
  2:{ constructor; simpl; rewrite ?Hpc; try done. }
  apply forallb_is_finished in Hall.
  destruct (aborted t) eqn:Hab.
  { unfold catch_block. constructor; simpl; done. }
  unfold call_mergeFile. simpl. rewrite Hab.
  constructor; simpl; try done. intros _.
  assert (Exists (λ w, w = Finished) (workers t)) as Hex.
  { destruct (workers t) as [|w ws]; [done|]. apply Exists_cons_hd.
    by apply Forall_cons in Hall as [? _]. }
  destruct (Hfin Hex) as [?|Hlen]; [done|].
  rewrite all_finished_no_busy, drop_ge, !app_nil_r in Hperm by done. done.
Qed.

Lemma after_workers_merge_call t t' a id m f n :
  after_workers t = (t', a) → FetchMerge id m f n ∈ a →
  pc t' = AwaitMerge ∧ n = Item.totalChunks (item t') ∧ id = Item.id (item t').
Proof.
  unfold_blocks. intros. break;
    repeat match goal with
           | H : _ ∈ [] |- _ => by apply elem_of_nil in H
           | H : _ ∈ _ :: _ |- _ => apply elem_of_cons in H as [H|H]; simplify_eq/=
           end; done.
Qed.

(** *** A worker's event *)

Lemma worker_event_running w t t1 :
  worker_event w t t1 → running_ok t → first_failed (workers t) = None →
  first_failed (workers t1) ≠ None ∨ running_ok t1.
Proof.
  intros (c & p & x & Hw & Hws & Hpc & Hab & Hreg & Hch & Hidx & Hst & Hstat & _ & _ & Hx & Hcase)
    (Hperm & Hfin & Hsome) Hff.
  assert (w < length (workers t)) as Hlt by (by eapply lookup_lt_Some).
  destruct Hst as (_ & _ & _ & _ & Htot).
  rewrite (busy_chunks_lookup _ _ _ _ Hw) in Hperm.
  assert (workers t1 ≠ []) as Hsome1.
  { rewrite Hws. intros Hnil. apply (f_equal length) in Hnil.
    rewrite length_insert in Hnil. simpl in Hnil. lia. }
  destruct Hcase as [([[p' ->]|[e ->]] & Hit & Hi)|(Hup & [(-> & Hi & Hcond)|(c' & -> & Hc' & Hi & Hab')])].
  - right. split; [|split; [|done]].
    + rewrite Hws, Hit, Hi, Hch. rewrite busy_chunks_insert by done. done.
    + rewrite Hws, Hab, Hch, Hi. intros Hex. apply Hfin.
      eapply exists_finished_insert; [|exact Hex]. done.
  - left. rewrite Hws. by apply first_failed_insert_failed.
  - right. split; [|split; [|done]].
    + rewrite Hws, Hup, Hi, Hch, Htot. rewrite <- Hperm.
      rewrite <- app_assoc. simpl. done.
    + rewrite Hab, Hch, Hi. auto.
  - right. split; [|split; [|done]].
    + rewrite Hws, Hup, Hi, Hch, Htot. rewrite busy_chunks_insert by done. simpl.
      rewrite <- Hperm. rewrite (drop_S _ c' (index t)) by done.
      rewrite <- app_assoc. simpl. f_equiv.
      rewrite (Permutation_middle _ _ c'). done.
    + rewrite Hws, Hab, Hch, Hi. intros Hex.
      apply exists_finished_insert in Hex; [|done].
      apply lookup_lt_Some in Hc'. destruct (Hfin Hex) as [?|?]; [congruence|right; lia].
Qed.

Lemma worker_step_complete f w t t' a :
  (∀ t t1 a, f t = (t1, a) → (t1 = t ∧ a = []) ∨ worker_event w t t1) →
  TInv cfg t → Complete t → then_after_workers f t = (t', a) → Complete t'.
Proof.
  intros Hf Hinv Hc. unfold then_after_workers.
  destruct (f t) as [t1 a1] eqn:Hft. apply Hf in Hft.
  pose proof (after_workers_complete t1) as H1.
  destruct (after_workers t1) as [t2 b]. intros [= <- <-]. simpl in H1.
  destruct Hc as [Hrun Hnofail Hfin Hsome Hmerge].
  destruct Hft as [[-> _]|Hev].
  { apply H1; [|done]. intros Hpc. right. repeat split; auto. }
  assert (pc t1 = pc t) as Hpc by (destruct Hev as (? & ? & ? & _ & _ & ? & _); done).
  apply H1; rewrite Hpc.
  - intros Hpc'. eapply worker_event_running; [done| |by apply Hnofail].
    repeat split; auto.
  - intros Hpc'. destruct Hev as (c & p & x & Hw & _).
    apply (inv_merge _ _ Hinv) in Hpc'.
    by apply (Forall_lookup_1 _ _ _ _ Hpc') in Hw.
Qed.

End Chunks.

Section Complete.
Variable cfg : Config.

Lemma Complete_idle t :
  pc t ≠ AwaitWorkers → pc t ≠ AwaitMerge → Complete t.
Proof. intros. by constructor. Qed.

Lemma reject_cases ws :
  reject_fetch <$> ws = ws ∨ first_failed (reject_fetch <$> ws) ≠ None.
Proof.
  induction ws as [|x ws IH]; [by left|]. rewrite fmap_cons.
  destruct IH as [->|Hne].
  - destruct x as [c [i|i e]| |e]; unfold reject_fetch; simpl; auto.
  - right. destruct x as [c [i|i e]| |e]; unfold reject_fetch at 1; simpl; auto.
Qed.

(** *** Cancellation *)

Lemma abort_reactions_complete t it :
  Complete t → TInv cfg t →
  Item.uploadedChunks it = Item.uploadedChunks (item t) →
  Item.totalChunks it = Item.totalChunks (item t) →
  Complete (abort_reactions cfg (with_item it (with_registered false (with_aborted true t)))).1.
Proof.
  intros [Hrun Hnofail Hfin Hsome Hmerge] Hinv Hup Htot.
  unfold abort_reactions. simpl.
  destruct (pc t) eqn:Hpc;
    try (apply Complete_idle; simpl; by rewrite ?Hpc).
  unfold then_after_workers. cbv beta. rewrite abort_fold_spec. simpl.
  match goal with |- context [after_workers ?x] =>
    pose proof (after_workers_complete x) as H; destruct (after_workers x) end.
  simpl in *. apply H; rewrite Hpc; [|done]. intros _.
  destruct (reject_cases (workers t)) as [->|?]; [|by left].
  right. repeat split; simpl; rewrite ?Hup, ?Htot; auto.
Qed.

Lemma cancel_complete t t' a :
  Complete t → TInv cfg t → local_step cfg LCancel t = (t', a) → Complete t'.
Proof.
  intros Hc Hinv. simpl. unfold cancelUpload_item.
  assert (∀ it, Item.uploadedChunks it = Item.uploadedChunks (item t) →
                Item.totalChunks it = Item.totalChunks (item t) →
                Complete (with_item it t)) as Hitem.
  { intros it Hup Htot. destruct Hc. constructor; simpl; rewrite ?Hup, ?Htot; auto. }
  destruct (Item.status (item t)) eqn:Hst; try (by intros [= <- <-]).
  - intros [= <- <-]. by apply Hitem.
  - destruct (registered t); [|intros [= <- <-]; by apply Hitem].
    pose proof (abort_reactions_complete t (Item.set_status cancelled (item t)) Hc Hinv) as H.
    destruct (abort_reactions _ _). intros [= <- <-]. by apply H.
  - destruct (registered t); [|intros [= <- <-]; by apply Hitem].
    pose proof (abort_reactions_complete t (Item.set_status cancelled (item t)) Hc Hinv) as H.
    destruct (abort_reactions _ _). intros [= <- <-]. by apply H.
  - destruct (registered t); [|intros [= <- <-]; by apply Hitem].
    pose proof (abort_reactions_complete t (Item.set_status cancelled (item t)) Hc Hinv) as H.
    destruct (abort_reactions _ _). intros [= <- <-]. by apply H.
Qed.

Lemma destroy_complete t t' a :
  Complete t → TInv cfg t → local_step cfg LDestroy t = (t', a) → Complete t'.
Proof.
  intros Hc Hinv. simpl. unfold destroy_item.
  destruct (registered t); [|by intros [= <- <-]].
  pose proof (abort_reactions_complete t (item t) Hc Hinv) as H.
  replace (with_item (item t) (with_registered false (with_aborted true t)))
    with (with_registered false (with_aborted true t)) in H by done.
  destruct (abort_reactions _ _). intros [= <- <-]. by apply H.
Qed.

(** *** The answer of the check *)

Lemma check_complete r t t' a :
  1 ≤ concurrentChunks cfg →
  Complete t → TInv cfg t → good_check (Item.totalChunks (item t)) r →
  local_step cfg (LCheck r) t = (t', a) → Complete t'.
Proof.
  intros Hk Hc Hinv Hgood. simpl. unfold check_settled.
  destruct (pc t) eqn:Hpc; try (by intros [= <- <-]).
  destruct r as [response|e]; [|intros [= <- <-]; by apply Complete_idle].
  simpl in Hgood.
  destruct (resp_ok response); simpl; [|intros [= <- <-]; by apply Complete_idle].
  destruct (CheckResult.exists_ _); [intros [= <- <-]; by apply Complete_idle|].
  specialize (Hgood eq_refl eq_refl). apply resume_partition in Hgood.
  assert (aborted t = false) as Hab.
  { destruct (aborted t) eqn:E; [|done]. by destruct (inv_aborted _ _ Hinv E) as [? _]. }
  assert (workers t = []) as Hw by (apply (inv_early _ _ Hinv); auto).
  destruct (filter _ _) as [|c chunks] eqn:Hchunks.
  - (* everything is there already *)
    unfold call_mergeFile. simpl. rewrite Hab. intros [= <- <-].
    constructor; simpl; try done. intros _. by rewrite app_nil_r in Hgood.
  - unfold uploadChunksWithConcurrency.
    destruct (spawn_workers _ _) as [t1 a1] eqn:Hspawn.
    pose proof Hspawn as Hspec.
    apply spawn_workers_spec in Hspec
      as (Hi & Hp & Ha & Hr & Hch & Hidx & ws & Hws & Hlen & Hall & _ & Hfin); simpl in *.
    apply spawn_workers_chunks in Hspawn as (Hff & Hperm & _); simpl in *; try done.
    pose proof (after_workers_complete (with_pc AwaitWorkers t1)) as H.
    destruct (after_workers _) as [t2 b]. intros [= <- <-]. simpl in H.
    apply H; [|done]. intros _. right.
    split; [|split].
    + simpl. rewrite Hi, Hch. simpl. rewrite Hperm. simpl.
      exact Hgood.
    + simpl. rewrite Ha, Hch, Hws. simpl. intros Hex. destruct (Hfin Hex); auto.
    + simpl. rewrite Hws. intros ->. simpl in Hlen. lia.
Qed.

(** *** Every local step *)

Lemma local_step_complete e t t' a :
  1 ≤ concurrentChunks cfg →
  Complete t → TInv cfg t →
  (∀ r, e = LCheck r → good_check (Item.totalChunks (item t)) r) →
  local_step cfg e t = (t', a) → Complete t'.
Proof.
  intros Hk Hc Hinv Hgood.
  destruct e as [| | |r|r|w r|w|r].
  - simpl. unfold processFile_start. intros [= <- <-]. by apply Complete_idle.
  - by apply cancel_complete.
  - by apply destroy_complete.
  - simpl. unfold_blocks. intros. break; try done; by apply Complete_idle.
  - apply check_complete; auto.
  - apply (worker_step_complete cfg _ w); auto. apply chunk_settled_spec.
  - apply (worker_step_complete cfg _ w); auto. apply timer_fired_spec.
  - simpl. unfold_blocks. intros. break; try done; by apply Complete_idle.
Qed.

Lemma treach_complete t0 es acts t :
  1 ≤ concurrentChunks cfg →
  TInv cfg t0 → Complete t0 →
  (∀ r, LCheck r ∈ es → good_check (Item.totalChunks (item t0)) r) →
  treach cfg t0 es acts t →
  Complete t ∧ TInv cfg t ∧ Item.totalChunks (item t) = Item.totalChunks (item t0).
Proof.
  intros Hk Hinv0 Hc0 Hgood Hreach.
  induction Hreach as [|es acts t e a t' Hreach IH Hen Hstep]; [done|].
  destruct IH as (Hc & Hinv & Htot).
  { intros r Hin. apply Hgood, elem_of_app. by left. }
  pose proof (local_step_tidy cfg e t) as Htidy. rewrite Hstep in Htidy.
  destruct Htidy as [(_ & _ & _ & _ & Htot') _]. simpl in Htot'.
  split; [|split; [by eapply local_step_inv|congruence]].
  eapply local_step_complete; try done.
  intros r ->. rewrite Htot. apply Hgood, elem_of_app. right. by left.
Qed.

(** *** Where merge requests come from *)

Lemma no_merge_call_in l id m f n :
  Forall (λ x, is_merge_call x = false) l → FetchMerge id m f n ∉ l.
Proof. intros H Hin. rewrite Forall_forall in H. by apply H in Hin. Qed.

Lemma spawn_workers_no_merge n : ∀ t,
  Forall (λ x, is_merge_call x = false) (spawn_workers n t).2.
Proof.
  induction n as [|n IH]; intros t; simpl; [done|].
  destruct (worker_loop t) as [[t1 x] a] eqn:Hw.
  specialize (IH (with_workers (workers t1 ++ [x]) t1)).
  destruct (spawn_workers n _) as [t2 b]. simpl in *.
  apply Forall_app. split; [|done].
  revert Hw. unfold_blocks. intros. break; by repeat constructor.
Qed.

Lemma worker_resume_no_merge w c s t :
  Forall (λ x, is_merge_call x = false) (worker_resume w c s t).2.
Proof. unfold_blocks. break; by repeat constructor. Qed.

Lemma then_after_workers_merge_call f t t' a id m fn n :
  (∀ t, Forall (λ x, is_merge_call x = false) (f t).2) →
  then_after_workers f t = (t', a) → FetchMerge id m fn n ∈ a →
  pc t' = AwaitMerge ∧ n = Item.totalChunks (item t') ∧ id = Item.id (item t').
Proof.
  intros Hf. unfold then_after_workers. specialize (Hf t).
  destruct (f t) as [t1 a1]. destruct (after_workers t1) as [t2 b] eqn:Haw.
  intros [= <- <-] [Hin|Hin]%elem_of_app.
  - by apply no_merge_call_in in Hin.
  - by eapply after_workers_merge_call.
Qed.

Lemma chunk_settled_no_merge w r t :
  Forall (λ x, is_merge_call x = false) (chunk_settled cfg w r t).2.
Proof.
  unfold chunk_settled. destruct (workers t !! w) as [[c [i|i e]| |e]|]; try done.
  apply worker_resume_no_merge.
Qed.

Lemma timer_fired_no_merge w t :
  Forall (λ x, is_merge_call x = false) (timer_fired cfg w t).2.
Proof.
  unfold timer_fired. destruct (workers t !! w) as [[c [i|i e]| |e]|]; try done.
  apply worker_resume_no_merge.
Qed.

Ltac in_list :=
  repeat match goal with
         | H : _ ∈ [] |- _ => by apply elem_of_nil in H
         | H : _ ∈ _ :: _ |- _ => apply elem_of_cons in H as [H|H]; simplify_eq/=
         end.

Lemma abort_reactions_merge_call t t' a id m fn n :
  abort_reactions cfg t = (t', a) → FetchMerge id m fn n ∈ a →
  pc t' = AwaitMerge ∧ n = Item.totalChunks (item t') ∧ id = Item.id (item t').
Proof.
  unfold abort_reactions. destruct (pc t) eqn:Hpc;
    try (intros [= <- <-] Hin; by apply elem_of_nil in Hin);
    try (unfold catch_block; intros [= <- <-] Hin; by in_list).
  apply then_after_workers_merge_call. intros t0. by rewrite abort_fold_spec.
Qed.

(** A merge request is the last thing a local step does: the state it
    leaves is the state in which the request is issued. *)
Lemma local_step_merge_call e t t' a id m fn n :
  local_step cfg e t = (t', a) → FetchMerge id m fn n ∈ a →
  pc t' = AwaitMerge ∧ n = Item.totalChunks (item t') ∧ id = Item.id (item t').
Proof.
  destruct e as [| | |r|r|w r|w|r]; simpl.
  - unfold processFile_start. intros [= <- <-] Hin. by in_list.
  - unfold cancelUpload_item. destruct (Item.status (item t));
      try (intros [= <- <-] Hin; by in_list).
    all: destruct (registered t); [|intros [= <- <-] Hin; by in_list].
    all: destruct (abort_reactions _ _) as [t1 a1] eqn:Hab; intros [= <- <-] Hin.
    all: apply elem_of_cons in Hin as [?|Hin]; [done|].
    all: by eapply abort_reactions_merge_call.
  - unfold destroy_item. destruct (registered t); [|intros [= <- <-] Hin; by in_list].
    apply abort_reactions_merge_call.
  - unfold_blocks. intros. break; by in_list.
  - unfold check_settled. destruct (pc t); try (intros [= <- <-] Hin; by in_list).
    destruct r as [response|e]; [|unfold_blocks; intros; break; by in_list].
    destruct (negb (resp_ok response)); [unfold_blocks; intros; break; by in_list|].
    destruct (CheckResult.exists_ _); [unfold_blocks; intros; break; by in_list|].
    destruct (filter _ _) as [|c chunks]; [unfold_blocks; intros; break; by in_list|].
    unfold uploadChunksWithConcurrency.
    match goal with |- context [spawn_workers ?n ?x] =>
      pose proof (spawn_workers_no_merge n x) as Hs; destruct (spawn_workers n x) as [t1 a1] end.
    destruct (after_workers _) as [t2 b] eqn:Haw. intros [= <- <-] Hin.
    apply elem_of_cons in Hin as [?|Hin]; [done|].
    apply elem_of_app in Hin as [Hin|Hin]; [by apply no_merge_call_in in Hin|].
    by eapply after_workers_merge_call.
  - apply then_after_workers_merge_call. intros. apply chunk_settled_no_merge.
  - apply then_after_workers_merge_call. intros. apply timer_fired_no_merge.
  - unfold_blocks. intros. break; by in_list.
Qed.

End Complete.


(** * One file: what the log can hold, and what terminal means *)

Ltac in_list :=
  repeat match goal with
         | H : _ ∈ [] |- _ => by apply elem_of_nil in H
         | H : _ ∈ _ :: _ |- _ => apply elem_of_cons in H as [H|H]; simplify_eq/=
         end.

Section Facts.
Variable cfg : Config.

Lemma treach_steady t0 es acts t :
  treach cfg t0 es acts t → steady (item t0) (item t).
Proof.
  induction 1 as [|es acts t e a t' _ IH _ Hstep]; [apply steady_refl|].
  pose proof (local_step_tidy cfg e t) as Htidy. rewrite Hstep in Htidy.
  destruct Htidy as [Hs _]. by eapply steady_trans.
Qed.

(** ** [processFile] only moves forward *)

Lemma local_step_rank e t t' a :
  enabled e t → local_step cfg e t = (t', a) → pc_rank (pc t) ≤ pc_rank (pc t').
Proof.
  intros Hen Hstep.
  assert (e = LStart ∨ e ≠ LStart) as [->|Hne] by (destruct e; auto).
  - destruct Hen as [Hpc _]. simpl in Hstep. unfold processFile_start in Hstep.
    simplify_eq. simpl. rewrite Hpc. simpl. lia.
  - by apply local_step_pc in Hstep as (_ & _ & _ & ?).
Qed.

Lemma treach_rank t0 es acts t :
  treach cfg t0 es acts t → pc_rank (pc t0) ≤ pc_rank (pc t).
Proof.
  induction 1 as [|es acts t e a t' _ IH Hen Hstep]; [done|].
  pose proof (local_step_rank e t t' a Hen Hstep). lia.
Qed.

(** ** Where chunk requests come from *)

Lemma no_chunk_call_in l id c k :
  Forall (λ x, is_chunk_call x = false) l → FetchChunk id c k ∉ l.
Proof. intros H Hin. rewrite Forall_forall in H. by apply H in Hin. Qed.

Lemma after_workers_no_chunk t :
  Forall (λ x, is_chunk_call x = false) (after_workers t).2 ∧
  workers (after_workers t).1 = workers t.
Proof. unfold_blocks. break; split; by repeat constructor. Qed.

Lemma then_after_workers_chunk_call f w t t' a id c k :
  (∀ t t1 a, f t = (t1, a) → (t1 = t ∧ a = []) ∨ worker_event w t t1) →
  then_after_workers f t = (t', a) → FetchChunk id c k ∈ a → workers t' ≠ [].
Proof.
  intros Hf. unfold then_after_workers.
  destruct (f t) as [t1 a1] eqn:Hft. apply Hf in Hft.
  pose proof (after_workers_no_chunk t1) as [Hno Hws].
  destruct (after_workers t1) as [t2 b]. simpl in *.
  intros [= <- <-] [Hin|Hin]%elem_of_app; [|by apply no_chunk_call_in in Hin].
  destruct Hft as [[_ ->]|(c0 & p & x & Hl & Hws1 & _)]; [by apply elem_of_nil in Hin|].
  rewrite Hws, Hws1. intros Hnil. apply (f_equal length) in Hnil.
  rewrite length_insert in Hnil. apply lookup_lt_Some in Hl. simpl in Hnil. lia.
Qed.

Lemma abort_reactions_no_chunk t :
  Forall (λ x, is_chunk_call x = false) (abort_reactions cfg t).2.
Proof.
  unfold abort_reactions. destruct (pc t); try done; try (by repeat constructor).
  unfold then_after_workers. cbv beta. rewrite abort_fold_spec.
  match goal with |- context [after_workers ?x] =>
    pose proof (after_workers_no_chunk x) as [H _]; destruct (after_workers x) end.
  done.
Qed.

(** A chunk request means that the workers have been started. *)
Lemma local_step_chunk_call e t t' a id c k :
  local_step cfg e t = (t', a) → FetchChunk id c k ∈ a → workers t' ≠ [].
Proof.
  destruct e as [| | |r|r|w r|w|r]; simpl.
  - unfold processFile_start. intros [= <- <-] Hin. by in_list.
  - unfold cancelUpload_item. destruct (Item.status (item t));
      try (intros [= <- <-] Hin; by in_list).
    all: destruct (registered t); [|intros [= <- <-] Hin; by in_list].
    all: match goal with |- context [abort_reactions cfg ?x] =>
           pose proof (abort_reactions_no_chunk x) as Hno;
           destruct (abort_reactions cfg x) as [t1 a1] end.
    all: intros [= <- <-] Hin; apply elem_of_cons in Hin as [?|Hin]; [done|].
    all: by apply no_chunk_call_in in Hin.
  - unfold destroy_item. destruct (registered t); [|intros [= <- <-] Hin; by in_list].
    match goal with |- context [abort_reactions cfg ?x] =>
      pose proof (abort_reactions_no_chunk x) as Hno;
      destruct (abort_reactions cfg x) as [t1 a1] end.
    intros [= <- <-] Hin. by apply no_chunk_call_in in Hin.
  - unfold_blocks. intros. break; by in_list.
  - unfold check_settled. destruct (pc t); try (intros [= <- <-] Hin; by in_list).
    destruct r as [response|e]; [|unfold_blocks; intros; break; by in_list].
    destruct (negb (resp_ok response)); [unfold_blocks; intros; break; by in_list|].
    destruct (CheckResult.exists_ _); [unfold_blocks; intros; break; by in_list|].
    destruct (filter _ _) as [|c0 chunks]; [unfold_blocks; intros; break; by in_list|].
    unfold uploadChunksWithConcurrency.
    destruct (spawn_workers _ _) as [t1 a1] eqn:Hspawn.
    pose proof (after_workers_no_chunk (with_pc AwaitWorkers t1)) as [Hno Hws].
    destruct (after_workers _) as [t2 b]. intros [= <- <-] Hin. simpl in *.
    rewrite Hws. destruct (concurrentChunks cfg) as [|n] eqn:Hn.
    + simpl in Hspawn. simplify_eq.
      apply elem_of_cons in Hin as [?|Hin]; [done|]. simpl in Hin.
      by apply no_chunk_call_in in Hin.
    + apply spawn_workers_spec in Hspawn as (_ & _ & _ & _ & _ & _ & ws & -> & Hlen & _).
      simpl. intros ->. done.
  - apply (then_after_workers_chunk_call _ w), chunk_settled_spec.
  - apply (then_after_workers_chunk_call _ w), timer_fired_spec.
  - unfold_blocks. intros. break; by in_list.
Qed.

(** Until the check is answered, the log of an item holds neither a chunk
    request nor a merge request. *)
Lemma treach_early t0 es acts t :
  TInv cfg t0 → treach cfg t0 es acts t → before_upload (pc t) = true →
  Forall (λ x, is_chunk_call x = false ∧ is_merge_call x = false) acts.
Proof.
  intros Hinv0 Hreach. induction Hreach as [|es acts t e a t' Hreach IH Hen Hstep]; [done|].
  intros Hearly.
  pose proof (local_step_rank e t t' a Hen Hstep) as Hrank.
  pose proof (treach_inv cfg _ _ _ _ Hinv0 Hreach) as Hinv.
  pose proof (local_step_inv cfg e t t' a Hinv Hen Hstep) as Hinv'.
  apply Forall_app. split.
  - apply IH. destruct (pc t), (pc t'); simpl in *; try done; lia.
  - apply Forall_forall. intros x Hx. destruct x; try done; exfalso.
    + apply (local_step_chunk_call _ _ _ _ _ _ _ Hstep) in Hx.
      apply Hx, (inv_early _ _ Hinv'). destruct (pc t'); auto; done.
    + apply (local_step_merge_call _ _ _ _ _ _ _ _ _ Hstep) in Hx as [Hpc _].
      by rewrite Hpc in Hearly.
Qed.

(** A file without chunks never gets a chunk request. *)
Lemma treach_no_chunks t0 es acts t :
  TInv cfg t0 → treach cfg t0 es acts t → Item.totalChunks (item t0) = 0 →
  Forall (λ x, is_chunk_call x = false) acts.
Proof.
  intros Hinv0 Hreach Hzero.
  induction Hreach as [|es acts t e a t' Hreach IH Hen Hstep]; [done|].
  pose proof (treach_inv cfg _ _ _ _ Hinv0 Hreach) as Hinv.
  pose proof (local_step_inv cfg e t t' a Hinv Hen Hstep) as Hinv'.
  assert (treach cfg t0 (es ++ [e]) (acts ++ a) t') as Hreach' by (by econstructor).
  apply treach_steady in Hreach' as (_ & _ & _ & _ & Htot).
  apply Forall_app. split; [done|].
  apply Forall_forall. intros x Hx. destruct x; try done; exfalso.
  apply (local_step_chunk_call _ _ _ _ _ _ _ Hstep) in Hx.
  apply Hx, (inv_empty _ _ Hinv'). congruence.
Qed.

(** ** Terminal statuses *)

Lemma after_workers_terminal t :
  terminal (Item.status (item t)) = true →
  (pc t = AwaitWorkers → aborted t = true) →
  terminal (Item.status (item (after_workers t).1)) = true.
Proof.
  intros Hterm Hab. unfold_blocks.
  break; simpl; try done; by specialize (Hab eq_refl).
Qed.

Lemma worker_step_terminal f w t t' a :
  (∀ t t1 a, f t = (t1, a) → (t1 = t ∧ a = []) ∨ worker_event w t t1) →
  TInv cfg t → terminal (Item.status (item t)) = true →
  then_after_workers f t = (t', a) → terminal (Item.status (item t')) = true.
Proof.
  intros Hf Hinv Hterm. unfold then_after_workers.
  destruct (f t) as [t1 a1] eqn:Hft. apply Hf in Hft.
  pose proof (after_workers_terminal t1) as H.
  destruct (after_workers t1) as [t2 b]. intros [= <- <-]. simpl in H.
  assert (Item.status (item t1) = Item.status (item t) ∧ pc t1 = pc t ∧ aborted t1 = aborted t)
    as (Hst & Hpc & Hab).
  { destruct Hft as [[-> _]|(c & p & x & _ & _ & ? & ? & _ & _ & _ & _ & ? & _)]; done. }
  apply H; rewrite ?Hst, ?Hpc, ?Hab; [done|].
  intros Hpc'. apply (inv_cancelled _ _ Hinv); [done|by rewrite Hpc'].
Qed.

Lemma abort_reactions_terminal t :
  terminal (Item.status (item t)) = true → aborted t = true →
  terminal (Item.status (item (abort_reactions cfg t).1)) = true.
Proof.
  intros Hterm Hab. unfold abort_reactions. destruct (pc t) eqn:Hpc; try done.
  unfold then_after_workers. cbv beta. rewrite abort_fold_spec.
  match goal with |- context [after_workers ?x] =>
    pose proof (after_workers_terminal x) as H; destruct (after_workers x) end.
  simpl in *. by apply H.
Qed.

(** A terminal status is never left. *)
Lemma local_step_terminal e t t' a :
  TInv cfg t → enabled e t → terminal (Item.status (item t)) = true →
  local_step cfg e t = (t', a) → terminal (Item.status (item t')) = true.
Proof.
  intros Hinv Hen Hterm.
  destruct e as [| | |r|r|w r|w|r]; simpl.
  - destruct Hen as [_ Hst]. by rewrite Hst in Hterm.
  - unfold cancelUpload_item.
    destruct (Item.status (item t)) eqn:Hst; try done; intros [= <- <-]; by rewrite Hst.
  - unfold destroy_item. destruct (registered t); [|by intros [= <- <-]].
    pose proof (abort_reactions_terminal (with_registered false (with_aborted true t))) as H.
    destruct (abort_reactions _ _). intros [= <- <-]. by apply H.
  - unfold md5_settled. destruct (pc t) eqn:Hpc; try (by intros [= <- <-]).
    assert (aborted t = true) as Hab by (apply (inv_cancelled _ _ Hinv); [done|by rewrite Hpc]).
    unfold call_checkFile, catch_block. simpl. rewrite Hab.
    destruct r as [md5|e]; intros [= <- <-]; simpl; [done|by destruct (isAbortError e)].
  - unfold check_settled. destruct (pc t) eqn:Hpc; try (by intros [= <- <-]).
    assert (aborted t = true) as Hab by (apply (inv_cancelled _ _ Hinv); [done|by rewrite Hpc]).
    by destruct (inv_aborted _ _ Hinv Hab) as [? _].
  - apply (worker_step_terminal _ w); [apply chunk_settled_spec|done|done].
  - apply (worker_step_terminal _ w); [apply timer_fired_spec|done|done].
  - unfold merge_settled. destruct (pc t) eqn:Hpc; try (by intros [= <- <-]).
    assert (aborted t = true) as Hab by (apply (inv_cancelled _ _ Hinv); [done|by rewrite Hpc]).
    by destruct (inv_aborted _ _ Hinv Hab) as (_ & ? & _).
Qed.

Lemma treach_terminal t0 es acts t :
  TInv cfg t0 → terminal (Item.status (item t0)) = true →
  treach cfg t0 es acts t → terminal (Item.status (item t)) = true.
Proof.
  intros Hinv0 Hterm Hreach.
  induction Hreach as [|es acts t e a t' Hreach IH Hen Hstep]; [done|].
  eapply local_step_terminal; [|done|done|done]. by eapply treach_inv.
Qed.

End Facts.


(** * From the uploader to one of its files *)

(** An answer for item [id] is one local step of that item, unless the item
    still waits in the queue. *)
Lemma step_targets u ev id e t u' acts :
  Ginv u → targets ev id e → heap u !! id = Some t → pc t ≠ NotStarted →
  step u ev = (u', acts) →
  ∃ t' a, local_step (config u) e t = (t', a) ∧ heap u' !! id = Some t' ∧
    actions_of id acts = a ∧ Ginv u' ∧ config u' = config u.
Proof.
  intros HG Htg Hl Hpc Hstep.
  assert (id ∈ uploadQueue u → local_step (config u) e t = (t, [])) as Hq.
  { intros Hin. destruct (wf_queue _ (g_wf _ HG) id Hin) as [f Hf].
    rewrite Hl in Hf. by simplify_eq. }
  assert (e ≠ LStart) as He by (by destruct e).
  assert (step u ev = on_task id (local_step (config u) e) u) as Heq.
  { destruct e; simpl in Htg; try done; by subst. }
  rewrite Heq in Hstep.
  destruct (on_task_spec e id u u' acts t HG He Hl Hq Hstep)
    as (t' & a & ? & ? & ? & ? & ? & _).
  by exists t', a.
Qed.

Lemma run_snoc u0 evs u log ev u' acts :
  run u0 evs = (u, log) → step u ev = (u', acts) →
  run u0 (evs ++ [ev]) = (u', log ++ acts).
Proof.
  intros Hrun Hstep. eapply run_app; [done|]. simpl. rewrite Hstep. by rewrite app_nil_r.
Qed.

(** The history of an item that exists. *)
Lemma run_history u evs u' acts id t :
  Ginv u → heap u !! id = Some t → run u evs = (u', acts) →
  Ginv u' ∧ config u' = config u ∧
  ∃ t' es, heap u' !! id = Some t' ∧ treach (config u) t es (actions_of id acts) t' ∧
           Forall (λ e, ∃ ev, ev ∈ evs ∧ from_event id ev e) es.
Proof.
  intros HG Hl Hrun. destruct (run_local evs u u' acts HG Hrun) as (HG' & Hcfg & Hhist).
  split; [done|]. split; [done|]. specialize (Hhist id). rewrite Hl in Hhist. exact Hhist.
Qed.

(** The history of an item since the uploader was made. *)
Lemma constructor_history options u0 evs u log id t :
  constructor options = inr u0 → run u0 evs = (u, log) → heap u !! id = Some t →
  Ginv u ∧ config u = config u0 ∧ 1 ≤ concurrentChunks (config u0) ∧
  (0 < chunkSize (config u0))%N ∧
  ∃ f es, treach (config u0) (new_task (config u0) id f) es (actions_of id log) t ∧
          Forall (λ e, ∃ ev, ev ∈ evs ∧ from_event id ev e) es.
Proof.
  intros Hc Hrun Hl.
  destruct (constructor_inv options u0 Hc) as (HG0 & Hheap & _ & Hk & Hsize).
  destruct (run_local evs u0 u log HG0 Hrun) as (HG & Hcfg & Hhist).
  split; [done|]. split; [done|]. split; [done|]. split; [done|].
  specialize (Hhist id). rewrite Hheap, Hl in Hhist. simpl in Hhist.
  destruct Hhist as [[? _]|(f & t' & es & Heq & Hreach & Hev)]; [done|].
  simplify_eq. by exists f, es.
Qed.

Lemma reachable_item u log id t :
  reachable u log → heap u !! id = Some t →
  Ginv u ∧ TInv (config u) t ∧ Item.id (item t) = id ∧ (0 < chunkSize (config u))%N ∧
  ∃ f es, treach (config u) (new_task (config u) id f) es (actions_of id log) t.
Proof.
  intros (options & u0 & evs & Hc & Hrun) Hl.
  destruct (constructor_history _ _ _ _ _ _ _ Hc Hrun Hl)
    as (HG & Hcfg & _ & Hsize & f & es & Hreach & _).
  rewrite Hcfg. split; [done|]. split; [|split; [|split; [done|by exists f, es]]].
  - rewrite <- Hcfg. by eapply g_tinv.
  - by eapply (wf_ids _ (g_wf _ HG)).
Qed.

(** Nothing happens any more to an item that is quiet. *)
Lemma run_quiet u evs u' acts id t :
  Ginv u → heap u !! id = Some t → quiet t → run u evs = (u', acts) →
  heap u' !! id = Some t ∧ actions_of id acts = [].
Proof.
  intros HG Hl Hq Hrun.
  destruct (run_history _ _ _ _ _ _ HG Hl Hrun) as (_ & _ & t' & es & Hl' & Hreach & _).
  destruct (quiet_treach _ _ _ _ _ Hq Hreach) as [-> ->]. done.
Qed.

Lemma run_terminal u evs u' acts id t :
  Ginv u → heap u !! id = Some t → terminal (Item.status (item t)) = true →
  run u evs = (u', acts) →
  ∃ t', heap u' !! id = Some t' ∧ terminal (Item.status (item t')) = true.
Proof.
  intros HG Hl Hterm Hrun.
  destruct (run_history _ _ _ _ _ _ HG Hl Hrun) as (_ & _ & t' & es & Hl' & Hreach & _).
  exists t'. split; [done|]. eapply treach_terminal; [|done|done]. by eapply g_tinv.
Qed.

(** [cancelUpload] leaves a settled file alone. *)
Lemma cancelUpload_terminal u id t :
  heap u !! id = Some t → terminal (Item.status (item t)) = true →
  step u (CancelUpload id) = (u, []).
Proof.
  intros Hl Hterm. simpl. unfold cancelUpload. case_bool_decide; [|done].
  rewrite Hl.
  assert (cancelUpload_item (config u) t = (t, [])) as Hno.
  { unfold cancelUpload_item. by destruct (Item.status (item t)). }
  assert (match Item.status (item t) with
          | pending => with_uploadQueue (filter (λ i, i ≠ id) (uploadQueue u)) u
          | _ => u
          end = u) as -> by (by destruct (Item.status (item t))).
  unfold on_task. rewrite Hl, Hno, list_insert_id by done.
  destruct (in_flight (pc t)); simpl; by destruct u.
Qed.

(** ** Files without bytes *)

Lemma Math_ceil_div_0 b : (0 < b)%N → Math_ceil_div 0 b = 0%N.
Proof. intros Hb. unfold Math_ceil_div. apply N.div_small. lia. Qed.

(** [totalChunks] is what [addFiles] computed from the size. *)
Lemma reachable_totalChunks u log id t :
  reachable u log → heap u !! id = Some t →
  Item.totalChunks (item t) =
    N.to_nat (Math_ceil_div (file_size (Item.file (item t))) (chunkSize (config u))).
Proof.
  intros Hr Hl. destruct (reachable_item _ _ _ _ Hr Hl) as (_ & _ & _ & _ & f & es & Hreach).
  apply treach_steady in Hreach as (_ & Hfile & _ & _ & Htot).
  rewrite Htot, Hfile. done.
Qed.


(** * The properties of the specification *)

Lemma actions_of_elem id a acts : a ∈ acts → action_id a = id → a ∈ actions_of id acts.
Proof. intros Hin Hid. unfold actions_of. by apply list_elem_of_filter. Qed.

Lemma run_pair options evs :
  run (uploader_of options) evs = (state_after options evs, log_after options evs).
Proof. unfold state_after, log_after. by destruct (run _ _). Qed.

Lemma reachable_after options evs :
  constructor options = inr (uploader_of options) →
  reachable (state_after options evs) (log_after options evs).
Proof. intros Hc. exists options, (uploader_of options), evs. split; [done|apply run_pair]. Qed.

Lemma pc_of_Some u id p :
  pc_of u id = Some p → ∃ t, heap u !! id = Some t ∧ pc t = p.
Proof. unfold pc_of. intros (t & ? & ?)%fmap_Some. by exists t. Qed.

(** ** Chunk accounting at the merge request *)

(** C1. When the uploader issues the merge request of a file, and every
    answer of the check endpoint for that file that reports a resumable set
    reports distinct indices below [totalChunks], the file's
    [uploadedChunks] hold every index below [totalChunks] exactly once, and
    the request carries that [totalChunks].  Nothing is assumed of the
    answers for other files. *)
Theorem merge_call_sees_all_chunks options u0 evs u log ev u' acts id md5 filename n :
  constructor options = inr u0 →
  run u0 evs = (u, log) →
  step u ev = (u', acts) →
  checks_ok id (evs ++ [ev]) u' →
  FetchMerge id md5 filename n ∈ acts →
  ∃ it, item_of u' id = Some it ∧ pc_of u' id = Some AwaitMerge ∧
        n = Item.totalChunks it ∧
        Item.uploadedChunks it ≡ₚ seq 0 (Item.totalChunks it) ∧
        NoDup (Item.uploadedChunks it) ∧
        (∀ i, i ∈ Item.uploadedChunks it ↔ i < Item.totalChunks it).
Proof.
  intros Hc Hrun Hstep Hchecks Hin.
  pose proof (run_snoc _ _ _ _ _ _ _ Hrun Hstep) as Hrun'.
  destruct (constructor_inv options u0 Hc) as (HG0 & Hheap & _ & Hk & _).
  destruct (run_local evs u0 u log HG0 Hrun) as (HG & Hcfg & _).
  destruct (step_local u ev u' acts HG Hstep) as (HG' & Hcfg' & Hmoved).
  assert (FetchMerge id md5 filename n ∈ actions_of id acts) as Hin'
    by (by apply actions_of_elem).
  assert (∃ t t' e, heap u' !! id = Some t' ∧
            local_step (config u) e t = (t', actions_of id acts)) as (t & t' & e & Hl' & Hlocal).
  { specialize (Hmoved id). unfold moved in Hmoved. destruct (heap u !! id) as [t|].
    - destruct Hmoved as (t' & Hl' & [[_ Hnil]|(e & _ & _ & Hls)]).
      + rewrite Hnil in Hin'. by apply elem_of_nil in Hin'.
      + by exists t, t', e.
    - destruct Hmoved as [[_ Hnil]|(f & t' & Hl' & [[_ Hnil]|(e & _ & _ & Hls)])].
      + rewrite Hnil in Hin'. by apply elem_of_nil in Hin'.
      + rewrite Hnil in Hin'. by apply elem_of_nil in Hin'.
      + by exists (new_task (config u) id f), t', e. }
  destruct (local_step_merge_call _ _ _ _ _ _ _ _ _ Hlocal Hin') as (Hpc & Hn & _).
  destruct (constructor_history _ _ _ _ _ _ _ Hc Hrun' Hl')
    as (_ & _ & _ & _ & f & es & Hreach & Hev).
  assert (item_of u' id = Some (item t')) as Hitem by (unfold item_of; by rewrite Hl').
  pose proof (treach_steady _ _ _ _ _ Hreach) as (_ & _ & _ & _ & Htot).
  assert (Complete t') as Hcpl.
  { eapply (treach_complete (config u0)); [done|apply new_task_inv| |  |exact Hreach].
    - by apply Complete_idle.
    - intros r Hr. rewrite <- Htot.
      rewrite Forall_forall in Hev. destruct (Hev _ Hr) as (ev0 & Hev0 & Hfrom).
      simpl in Hfrom. subst ev0. by eapply Hchecks. }
  pose proof (cpl_merge _ Hcpl Hpc) as Hperm.
  exists (item t'). split; [done|]. split; [unfold pc_of; rewrite Hl'; simpl; by rewrite Hpc|].
  split; [done|]. split; [done|]. split.
  - rewrite Hperm. apply NoDup_seq.
  - intros i. rewrite Hperm, elem_of_seq. lia.
Qed.

Lemma merging_checks_ok :
  checks_ok 0 merging_events (state_after sample_options merging_events).
Proof.
  intros r it Hin Hit. unfold merging_events, resume_events, checking_events in Hin.
  simpl in Hin. in_list. vm_compute in Hit. simplify_eq. simpl.
  intros _ _. split; [|by repeat constructor].
  apply NoDup_cons. split; [|apply NoDup_singleton].
  intros ?%list_elem_of_singleton. done.
Qed.

(** The resume scenario: the check reports chunks 0 and 1, chunk 2 is
    uploaded, and the merge request goes out with all three chunks. *)
Lemma merge_call_sees_all_chunks_witness :
  ∃ it, item_of (state_after sample_options merging_events) 0 = Some it ∧
        pc_of (state_after sample_options merging_events) 0 = Some AwaitMerge ∧
        3 = Item.totalChunks it ∧
        Item.uploadedChunks it ≡ₚ seq 0 (Item.totalChunks it) ∧
        NoDup (Item.uploadedChunks it) ∧
        (∀ i, i ∈ Item.uploadedChunks it ↔ i < Item.totalChunks it).
Proof.
  apply (merge_call_sees_all_chunks sample_options (uploader_of sample_options)
           resume_events (state_after sample_options resume_events)
           (log_after sample_options resume_events) (ChunkSettled 0 0 chunk_ok)
           (state_after sample_options merging_events)
           (step (state_after sample_options resume_events) (ChunkSettled 0 0 chunk_ok)).2
           0 (Some "900150983cd24fb0d6963f7d28e17f72") "a.bin" 3).
  - reflexivity.
  - apply run_pair.
  - vm_compute. reflexivity.
  - exact merging_checks_ok.
  - vm_compute. do 2 apply list_elem_of_further. apply list_elem_of_here.
Defined.

(** ** Concurrency bounds *)

Lemma active_uploads_le t : active_uploads t ≤ length (workers t).
Proof.
  unfold active_uploads. induction (workers t) as [|w ws IH]; simpl; [done|].
  destruct (is_busy w); simpl; lia.
Qed.

(** C2. In every state the uploader can reach, the files in flight (those
    [processQueue] dispatched and whose [processFile] has not settled) are
    at most [concurrentFiles], [uploadingCount] is their number, and the
    chunk uploads under way for any one file are at most
    [concurrentChunks]. *)
Theorem concurrency_bounds u log :
  reachable u log →
  uploadingCount u = in_flight_tasks u ∧
  in_flight_tasks u ≤ concurrentFiles (config u) ∧
  ∀ id t, heap u !! id = Some t → active_uploads t ≤ concurrentChunks (config u).
Proof.
  intros Hr. destruct (reachable_inv u log Hr) as [HG _].
  split; [apply HG|]. split; [rewrite <- (g_count _ HG); apply HG|].
  intros id t Hl. pose proof (inv_workers _ _ (g_tinv _ HG id t Hl)).
  pose proof (active_uploads_le t). lia.
Qed.

(** Four files are added where three files and two chunks per file are
    allowed: three files are in flight, the first with two chunk uploads
    under way. *)
Lemma concurrency_bounds_witness :
  let u := state_after small_options
             [AddFiles [five_bytes; five_bytes; five_bytes; five_bytes];
              MD5Settled 0 (Fulfilled "900150983cd24fb0d6963f7d28e17f72");
              CheckSettled 0 (check_answer false [])] in
  in_flight_tasks u = 3 ∧
  (active_uploads <$> heap u) = [2; 0; 0; 0] ∧
  uploadingCount u = in_flight_tasks u ∧
  in_flight_tasks u ≤ concurrentFiles (config u) ∧
  ∀ id t, heap u !! id = Some t → active_uploads t ≤ concurrentChunks (config u).
Proof.
  intros u. split; [reflexivity|]. split; [reflexivity|].
  apply (concurrency_bounds u
           (log_after small_options
              [AddFiles [five_bytes; five_bytes; five_bytes; five_bytes];
               MD5Settled 0 (Fulfilled "900150983cd24fb0d6963f7d28e17f72");
               CheckSettled 0 (check_answer false [])])).
  apply reachable_after. reflexivity.
Defined.

(** ** Progress *)

(** C3. The resume check installs the set the server reports without
    recomputing [progress]: with chunks 0 and 1 of three on the server, the
    file is announced as uploading with two chunks uploaded and progress 0,
    where the rounded percentage is 67. *)
Theorem progress_stale_after_resume_check :
  ∃ it, item_of (state_after sample_options resume_events) 0 = Some it ∧
        UpdateFileStatus it ∈ log_after sample_options resume_events ∧
        Item.status it = uploading ∧
        Item.uploadedChunks it = [0; 1] ∧ Item.totalChunks it = 3 ∧
        Item.progress it = 0%Z ∧
        percent (length (Item.uploadedChunks it)) (Item.totalChunks it) = 67%Z.
Proof.
  eexists. split; [vm_compute; reflexivity|].
  split; [|by vm_compute].
  vm_compute. do 2 apply list_elem_of_further. apply list_elem_of_here.
Qed.

(** ** Instant transfer *)

(** C4. When the check request of a file is answered with [exists = true],
    the file becomes [success] with progress 100 and is announced once;
    nothing changes it afterwards; and the whole run holds no chunk request
    and no merge request for it. *)
Theorem instant_transfer u log id response u1 acts evs u2 acts' :
  reachable u log →
  pc_of u id = Some AwaitCheck →
  resp_ok response = true →
  CheckResult.exists_ (resp_json response) = true →
  step u (CheckSettled id (Fulfilled response)) = (u1, acts) →
  run u1 evs = (u2, acts') →
  ∃ it, item_of u1 id = Some it ∧
        Item.status it = success ∧ Item.progress it = 100%Z ∧
        actions_of id acts = [UpdateFileStatus it] ∧
        item_of u2 id = Some it ∧
        actions_of id acts' = [] ∧
        Forall (λ a, is_chunk_call a = false ∧ is_merge_call a = false)
               (actions_of id (log ++ acts ++ acts')).
Proof.
  intros Hr (t & Hl & Hpc)%pc_of_Some Hok Hex Hstep Hrun.
  destruct (reachable_item _ _ _ _ Hr Hl) as (HG & Hinv & Hid & _ & f & es & Hreach).
  destruct (step_targets u _ id (LCheck (Fulfilled response)) t u1 acts HG eq_refl Hl
              ltac:(by rewrite Hpc) Hstep) as (t' & a & Hlocal & Hl1 & Ha & HG1 & Hcfg1).
  simpl in Hlocal. unfold check_settled in Hlocal. rewrite Hpc, Hok, Hex in Hlocal.
  simpl in Hlocal. unfold finish_success in Hlocal. injection Hlocal as <- <-.
  assert (quiet (with_pc Done (with_registered false
            (with_item (Item.set_progress 100 (Item.set_status success (item t))) t)))) as Hq.
  { eapply inv_success; [by eapply (g_tinv _ HG1)|done]. }
  destruct (run_quiet _ _ _ _ _ _ HG1 Hl1 Hq Hrun) as [Hl2 Ha2].
  exists (Item.set_progress 100 (Item.set_status success (item t))).
  split; [unfold item_of; by rewrite Hl1|]. split; [done|]. split; [done|].
  split; [done|]. split; [unfold item_of; by rewrite Hl2|]. split; [done|].
  rewrite !actions_of_app, Ha2, Ha, app_nil_r. apply Forall_app. split.
  - eapply treach_early; [apply new_task_inv|exact Hreach|by rewrite Hpc].
  - by repeat constructor.
Qed.

(** Scenario 3: the check answers that the file exists; a cancellation
    that comes later finds nothing to do. *)
Lemma instant_transfer_witness :
  pc_of (state_after sample_options checking_events) 0 = Some AwaitCheck ∧
  ∃ it, item_of (state_after sample_options
                   (checking_events ++ [CheckSettled 0 (check_answer true [])])) 0 = Some it ∧
        Item.status it = success ∧ Item.progress it = 100%Z ∧
        actions_of 0 (step (state_after sample_options checking_events)
                           (CheckSettled 0 (check_answer true []))).2 = [UpdateFileStatus it] ∧
        item_of (state_after sample_options
                   (checking_events ++ [CheckSettled 0 (check_answer true []); CancelUpload 0])) 0
          = Some it ∧
        actions_of 0 (run (state_after sample_options
                             (checking_events ++ [CheckSettled 0 (check_answer true [])]))
                          [CancelUpload 0]).2 = [] ∧
        Forall (λ a, is_chunk_call a = false ∧ is_merge_call a = false)
          (actions_of 0
             (log_after sample_options checking_events ++
              (step (state_after sample_options checking_events)
                    (CheckSettled 0 (check_answer true []))).2 ++
              (run (state_after sample_options
                      (checking_events ++ [CheckSettled 0 (check_answer true [])]))
                   [CancelUpload 0]).2)).
Proof.
  split; [reflexivity|].
  apply (instant_transfer (state_after sample_options checking_events)
           (log_after sample_options checking_events) 0
           (mkResponse true 200 (CheckResult.mk true None []))
           (state_after sample_options (checking_events ++ [CheckSettled 0 (check_answer true [])]))
           _ [CancelUpload 0]
           (state_after sample_options
              (checking_events ++ [CheckSettled 0 (check_answer true []); CancelUpload 0]))).
  - apply reachable_after. reflexivity.
  - reflexivity.
  - reflexivity.
  - reflexivity.
  - vm_compute. reflexivity.
  - vm_compute. reflexivity.
Defined.

(** ** Fingerprints *)

(** C6. The fallback fingerprint is made of the clock and the file name:
    the same file gets different fingerprints at different times, and two
    files with different bytes get the same one when name and time agree.
    [calculateMD5] takes this path whenever the host has no [Worker]. *)
Theorem fallback_fingerprint_ignores_bytes :
  Fingerprint.calculateMD5Fallback (host_without_worker 1000) five_bytes
    = Fulfilled "md5-1000-a.bin" ∧
  Fingerprint.calculateMD5Fallback (host_without_worker 2000) five_bytes
    = Fulfilled "md5-2000-a.bin" ∧
  Fingerprint.calculateMD5Fallback (host_without_worker 1000) (mkFile "a.bin" [Byte.xff])
    = Fulfilled "md5-1000-a.bin" ∧
  ∀ (Spark : Type) (spark_new : Spark) spark_append spark_end clock chunkSize file,
    Fingerprint.calculateMD5 spark_new spark_append spark_end
      (host_without_worker clock) chunkSize file
    = Some (Fingerprint.calculateMD5Fallback (host_without_worker clock) file).
Proof. by vm_compute. Qed.

(** ** The merge answer *)

(** C7, as stated.  The merge request is answered with HTTP 200 and a body
    that says [success: false]: the file becomes [success]. *)
Lemma merge_body_failure_ends_in_success :
  pc_of (state_after sample_options merging_events) 0 = Some AwaitMerge ∧
  MergeResult.success (MergeResult.mk false None) = false ∧
  ∃ it, item_of (step (state_after sample_options merging_events)
                      (MergeSettled 0 (merge_answer true 200 false))).1 0 = Some it ∧
        Item.status it = success ∧ Item.error it = None.
Proof. split; [reflexivity|]. split; [reflexivity|]. eexists. by vm_compute. Qed.

(** C7, amended.  When the merge request of a file fails, by an answer
    whose HTTP status is not ok or by an error of the request itself, the
    file becomes [error] with the message of that failure, the change is
    announced once, and nothing happens to the file afterwards: no second
    merge request, no other change.  The body of the answer plays no part. *)
Theorem merge_failure_is_final u log id (r : Settled (Response MergeResult.t)) e
    u1 acts evs u2 acts' :
  reachable u log →
  pc_of u id = Some AwaitMerge →
  Retry.failure r = Some e → isAbortError e = false →
  step u (MergeSettled id r) = (u1, acts) →
  run u1 evs = (u2, acts') →
  ∃ it, item_of u1 id = Some it ∧
        Item.status it = error ∧ Item.error it = Some (err_message e) ∧
        actions_of id acts = [UpdateFileStatus it] ∧
        item_of u2 id = Some it ∧
        actions_of id acts' = [].
Proof.
  intros Hr (t & Hl & Hpc)%pc_of_Some Hfail Habort Hstep Hrun.
  destruct (reachable_item _ _ _ _ Hr Hl) as (HG & Hinv & _).
  destruct (step_targets u _ id (LMerge r) t u1 acts HG eq_refl Hl
              ltac:(by rewrite Hpc) Hstep) as (t' & a & Hlocal & Hl1 & Ha & HG1 & Hcfg1).
  assert (local_step (config u) (LMerge r) t = catch_block e t) as Hcatch.
  { simpl. unfold merge_settled. rewrite Hpc. destruct r as [response|e']; simpl in Hfail.
    - destruct (resp_ok response); [done|]. by simplify_eq.
    - by simplify_eq. }
  rewrite Hcatch in Hlocal. unfold catch_block in Hlocal. rewrite Habort in Hlocal.
  injection Hlocal as <- <-.
  set (it := Item.set_error (err_message e) (Item.set_status error (item t))) in *.
  assert (quiet (with_pc Done (with_registered false (with_item it t)))) as Hq.
  { split; [done|]. split; [done|]. split; [done|]. simpl.
    eapply Forall_impl; [exact (inv_merge _ _ Hinv Hpc)|]. by intros w ->. }
  destruct (run_quiet _ _ _ _ _ _ HG1 Hl1 Hq Hrun) as [Hl2 Ha2].
  exists it. split; [unfold item_of; by rewrite Hl1|]. split; [done|]. split; [done|].
  split; [done|]. split; [unfold item_of; by rewrite Hl2|done].
Qed.

(** The merge request is refused with HTTP 400, as the reference server
    does when a chunk is missing. *)
Lemma merge_failure_is_final_witness :
  pc_of (state_after sample_options merging_events) 0 = Some AwaitMerge ∧
  ∃ it, item_of (state_after sample_options
                   (merging_events ++ [MergeSettled 0 (merge_answer false 400 false)])) 0
          = Some it ∧
        Item.status it = error ∧
        Item.error it = Some (err_message (http_error 400)) ∧
        actions_of 0 (step (state_after sample_options merging_events)
                           (MergeSettled 0 (merge_answer false 400 false))).2
          = [UpdateFileStatus it] ∧
        item_of (state_after sample_options
                   (merging_events ++ [MergeSettled 0 (merge_answer false 400 false);
                                       MergeSettled 0 (merge_answer true 200 true)])) 0
          = Some it ∧
        actions_of 0 (run (state_after sample_options
                             (merging_events ++ [MergeSettled 0 (merge_answer false 400 false)]))
                          [MergeSettled 0 (merge_answer true 200 true)]).2 = [].
Proof.
  split; [reflexivity|].
  apply (merge_failure_is_final (state_after sample_options merging_events)
           (log_after sample_options merging_events) 0
           (merge_answer false 400 false) (http_error 400)
           (state_after sample_options
              (merging_events ++ [MergeSettled 0 (merge_answer false 400 false)]))
           _ [MergeSettled 0 (merge_answer true 200 true)]
           (state_after sample_options
              (merging_events ++ [MergeSettled 0 (merge_answer false 400 false);
                                  MergeSettled 0 (merge_answer true 200 true)]))).
  - apply reachable_after. reflexivity.
  - reflexivity.
  - reflexivity.
  - reflexivity.
  - vm_compute. reflexivity.
  - vm_compute. reflexivity.
Defined.

(** ** Terminal statuses *)

(** C8, as stated.  A file is cancelled while its fingerprint is computed;
    when the fingerprint arrives, [processFile] stores it in the cancelled
    item and announces the item once more. *)
Lemma cancelled_item_still_changes :
  ∃ it it',
    item_of (state_after sample_options cancelled_events) 0 = Some it ∧
    Item.status it = cancelled ∧
    item_of (step (state_after sample_options cancelled_events)
                  (MD5Settled 0 (Fulfilled "900150983cd24fb0d6963f7d28e17f72"))).1 0 = Some it' ∧
    Item.md5 it = None ∧
    Item.md5 it' = Some "900150983cd24fb0d6963f7d28e17f72" ∧
    (step (state_after sample_options cancelled_events)
          (MD5Settled 0 (Fulfilled "900150983cd24fb0d6963f7d28e17f72"))).2
      = [UpdateFileStatus it'].
Proof. do 2 eexists. by vm_compute. Qed.

(** ** A failed worker and its siblings *)

(** C9. Two workers upload chunks 0 and 1 of five.  The worker of chunk 0
    uses up its attempts: the file settles as [error], and the signal of the
    file is not fired.  When the request of chunk 1 is answered afterwards,
    its worker records the chunk in the failed file, announces the file with
    a new progress, claims chunk 2 and sends its request. *)
Theorem sibling_worker_outlives_failed_file :
  ∃ t it',
    heap (state_after small_options failing_events) !! 0 = Some t ∧
    Item.status (item t) = error ∧ pc t = Done ∧ aborted t = false ∧
    workers t !! 1 = Some (Busy 1 (Retry.AwaitFn 0)) ∧
    Item.uploadedChunks (item t) = [] ∧ Item.progress (item t) = 0%Z ∧
    item_of (step (state_after small_options failing_events)
                  (ChunkSettled 0 1 chunk_ok)).1 0 = Some it' ∧
    Item.status it' = error ∧
    Item.uploadedChunks it' = [1] ∧ Item.progress it' = 20%Z ∧
    (step (state_after small_options failing_events) (ChunkSettled 0 1 chunk_ok)).2
      = [UpdateFileStatus it'; FetchChunk 0 2 0].
Proof. do 2 eexists. by vm_compute. Qed.

(** ** Files without bytes *)

(** C10, as stated.  An empty file is checked and reported as not on the
    server; the merge request goes out with [totalChunks = 0] and is
    answered with HTTP 500, as the reference server answers it (it removes a
    directory of chunks that was never made).  The file settles to [error]
    with progress 0, not to [success]. *)
Lemma zero_byte_file_merge_refused :
  let evs := empty_events ++ [CheckSettled 0 (check_answer false []);
                              MergeSettled 0 (merge_answer false 500 false)] in
  ∃ it, item_of (state_after sample_options evs) 0 = Some it ∧
    file_size (Item.file it) = 0%N ∧ Item.totalChunks it = 0 ∧
    actions_of 0 (step (state_after sample_options empty_events)
                       (CheckSettled 0 (check_answer false []))).2
      = [FetchMerge 0 (Some "d41d8cd98f00b204e9800998ecf8427e") "empty.bin" 0] ∧
    Forall (λ a, is_chunk_call a = false) (log_after sample_options evs) ∧
    pc_of (state_after sample_options evs) 0 = Some Done ∧
    Item.status it = error ∧ Item.progress it = 0%Z ∧
    Item.error it = Some "HTTP error! status: 500".
Proof. intros evs. eexists. split; [by vm_compute|]. vm_compute. repeat split; repeat constructor. Qed.

(** C10, amended.  A file of size 0 has [totalChunks = 0] and never gets a
    chunk request.  When its check request is answered with
    [exists = false], the merge request with [totalChunks = 0] is all the
    uploader does for it; when that is answered with an ok status, the file
    becomes [success] with progress 100. *)
Theorem zero_byte_file u log id t :
  reachable u log →
  heap u !! id = Some t →
  file_size (Item.file (item t)) = 0%N →
  Item.totalChunks (item t) = 0 ∧
  Forall (λ a, is_chunk_call a = false) (actions_of id log) ∧
  ∀ response u1 acts,
    pc t = AwaitCheck →
    resp_ok response = true →
    CheckResult.exists_ (resp_json response) = false →
    step u (CheckSettled id (Fulfilled response)) = (u1, acts) →
    actions_of id acts
      = [FetchMerge id (Item.md5 (item t)) (file_name (Item.file (item t))) 0] ∧
    pc_of u1 id = Some AwaitMerge ∧
    ∀ mresponse u2 acts2,
      resp_ok mresponse = true →
      step u1 (MergeSettled id (Fulfilled mresponse)) = (u2, acts2) →
      ∃ it, item_of u2 id = Some it ∧
            Item.status it = success ∧ Item.progress it = 100%Z ∧
            actions_of id acts2 = [UpdateFileStatus it].
Proof.
  intros Hr Hl Hsize.
  destruct (reachable_item _ _ _ _ Hr Hl) as (HG & Hinv & Hid & Hpos & f & es & Hreach).
  assert (Item.totalChunks (item t) = 0) as Htot.
  { rewrite (reachable_totalChunks _ _ _ _ Hr Hl), Hsize, Math_ceil_div_0; done. }
  split; [done|]. split.
  { eapply treach_no_chunks; [apply new_task_inv|exact Hreach|].
    apply treach_steady in Hreach as (_ & _ & _ & _ & <-). done. }
  intros response u1 acts Hpc Hok Hex Hstep.
  assert (aborted t = false) as Hab.
  { destruct (aborted t) eqn:Hab; [|done]. by destruct (inv_aborted _ _ Hinv Hab) as [? _]. }
  destruct (step_targets u _ id (LCheck (Fulfilled response)) t u1 acts HG eq_refl Hl
              ltac:(by rewrite Hpc) Hstep) as (t1 & a & Hlocal & Hl1 & Ha & HG1 & Hcfg1).
  simpl in Hlocal. unfold check_settled in Hlocal.
  rewrite Hpc, Hok, Hex, Htot in Hlocal. simpl in Hlocal.
  unfold call_mergeFile in Hlocal. simpl in Hlocal. rewrite Hab, Htot, Hid in Hlocal.
  injection Hlocal as <- <-.
  split; [done|]. split; [unfold pc_of; by rewrite Hl1|].
  intros mresponse u2 acts2 Hmok Hstep2.
  destruct (step_targets u1 _ id (LMerge (Fulfilled mresponse)) _ u2 acts2 HG1 eq_refl Hl1
              ltac:(done) Hstep2) as (t2 & a2 & Hlocal2 & Hl2 & Ha2 & _).
  simpl in Hlocal2. unfold merge_settled in Hlocal2. simpl in Hlocal2.
  rewrite Hmok in Hlocal2. simpl in Hlocal2. unfold finish_success in Hlocal2.
  injection Hlocal2 as <- <-.
  eexists. split; [unfold item_of; by rewrite Hl2|]. done.
Qed.

(** An empty file whose check reports nothing on the server. *)
Lemma zero_byte_file_witness :
  let u := state_after sample_options empty_events in
  let u1 := state_after sample_options (empty_events ++ [CheckSettled 0 (check_answer false [])]) in
  let u2 := state_after sample_options
              (empty_events ++ [CheckSettled 0 (check_answer false []);
                                MergeSettled 0 (merge_answer true 200 true)]) in
  item_of u 0 = Some (Item.set_md5 "d41d8cd98f00b204e9800998ecf8427e"
                        (Item.set_status checking (new_item (config u) 0 empty_file))) ∧
  (step u (CheckSettled 0 (check_answer false []))).2
    = [FetchMerge 0 (Some "d41d8cd98f00b204e9800998ecf8427e") "empty.bin" 0] ∧
  pc_of u1 0 = Some AwaitMerge ∧
  ∃ it, item_of u2 0 = Some it ∧ Item.status it = success ∧ Item.progress it = 100%Z ∧
        actions_of 0 (step u1 (MergeSettled 0 (merge_answer true 200 true))).2
          = [UpdateFileStatus it].
Proof.
  intros u u1 u2. split; [by vm_compute|]. split; [by vm_compute|].
  destruct (zero_byte_file u (log_after sample_options empty_events) 0
              (mkTask (Item.set_md5 "d41d8cd98f00b204e9800998ecf8427e"
                         (Item.set_status checking (new_item (config u) 0 empty_file)))
                      AwaitCheck false true [] 0 []))
    as (_ & _ & Hcheck).
  - apply reachable_after. by vm_compute.
  - by vm_compute.
  - by vm_compute.
  - destruct (Hcheck (mkResponse true 200 (CheckResult.mk false None [])) u1
                (step u (CheckSettled 0 (check_answer false []))).2)
      as (_ & Hpc & Hmerge).
    + reflexivity.
    + reflexivity.
    + reflexivity.
    + by vm_compute.
    + split; [exact Hpc|].
      apply (Hmerge (mkResponse true 200 (MergeResult.mk true None)) u2
               (step u1 (MergeSettled 0 (merge_answer true 200 true))).2).
      * reflexivity.
      * by vm_compute.
Defined.


(** * The retry executor under cancellation and in general *)

Section RetryMore.
Context {B : Type}.
Implicit Types (fn : nat → Settled (Response B)) (signal : nat → bool).

Lemma backoff_range i : (1000 ≤ Retry.backoff i ≤ 10000)%Z.
Proof.
  unfold Retry.backoff.
  assert (0 < 2 ^ Z.of_nat i)%Z by (apply Z.pow_pos_nonneg; lia). lia.
Qed.

Lemma calls_cons_call i (tr : list Retry.Act) :
  Retry.calls (Retry.CallFn i :: tr) = S (Retry.calls tr).
Proof. reflexivity. Qed.

Lemma calls_cons_timer ms (tr : list Retry.Act) :
  Retry.calls (Retry.SetTimeout ms :: tr) = Retry.calls tr.
Proof. reflexivity. Qed.

Lemma sleeps_cons_call i (tr : list Retry.Act) :
  Retry.sleeps (Retry.CallFn i :: tr) = Retry.sleeps tr.
Proof. reflexivity. Qed.

Lemma sleeps_cons_timer ms (tr : list Retry.Act) :
  Retry.sleeps (Retry.SetTimeout ms :: tr) = ms :: Retry.sleeps tr.
Proof. reflexivity. Qed.

Lemma drive_AwaitFn fn signal maxRetries fuel i :
  Retry.drive fn signal maxRetries (S fuel) (Retry.Suspended (Retry.AwaitFn i))
  = let '(r, tr) := Retry.drive fn signal maxRetries fuel
                      (Retry.fn_settled maxRetries (signal (S i)) i (fn i)) in
    (r, Retry.CallFn i :: tr).
Proof. reflexivity. Qed.

Lemma drive_AwaitTimer fn signal maxRetries fuel i e :
  Retry.drive fn signal maxRetries (S fuel) (Retry.Suspended (Retry.AwaitTimer i e))
  = let '(r, tr) := Retry.drive fn signal maxRetries fuel
                      (Retry.timer_fired maxRetries (signal (S i)) i e) in
    (r, Retry.SetTimeout (Retry.backoff i) :: tr).
Proof. reflexivity. Qed.

(** Whatever the operation and the signal do: from the call of iteration
    [i] on, the executor settles, with at most one call per remaining
    iteration and one timer less. *)
Lemma drive_settles fn signal maxRetries k : ∀ i fuel,
  i + k = maxRetries →
  2 * k + 1 ≤ fuel →
  ∃ result tr,
    Retry.drive fn signal maxRetries fuel (Retry.Suspended (Retry.AwaitFn i))
      = (Some result, tr) ∧
    Retry.calls tr ≤ S k ∧ length (Retry.sleeps tr) ≤ k ∧
    Forall (λ ms, 1000 ≤ ms ≤ 10000)%Z (Retry.sleeps tr).
Proof.
  induction k as [|k IH]; intros i fuel Hk Hfuel.
  - destruct fuel as [|fuel]; [lia|]. rewrite drive_AwaitFn.
    assert (∀ e, ∃ e', Retry.catch_attempt (B:=B) maxRetries (signal (S i)) i e
                       = Retry.Throw e') as Hcatch.
    { intros e. unfold Retry.catch_attempt, Retry.for_next.
      assert ((i <? maxRetries) = false) as -> by (apply Nat.ltb_ge; lia).
      assert ((S i <=? maxRetries) = false) as -> by (apply Nat.leb_gt; lia).
      destruct (isAbortError e); by eexists. }
    assert (∃ result, Retry.drive fn signal maxRetries fuel
                        (Retry.fn_settled maxRetries (signal (S i)) i (fn i))
                      = (Some result, [])) as [result Hres].
    { unfold Retry.fn_settled. destruct (fn i) as [r|e].
      - destruct (resp_ok r); [by rewrite drive_Return; eexists|].
        destruct (Hcatch (http_error (resp_status r))) as [e' ->].
        rewrite drive_Throw; by eexists.
      - destruct (Hcatch e) as [e' ->]. rewrite drive_Throw; by eexists. }
    rewrite Hres. exists result, [Retry.CallFn i]. split; [done|].
    split; [by cbv|]. split; [by cbv|]. by constructor.
  - destruct fuel as [|[|fuel]]; [lia..|].
    destruct (IH (S i) fuel) as (result & tr & Hrun & Hcalls & Hlen & Hall); [lia..|].
    assert ((i <? maxRetries) = true) as Hlt by (apply Nat.ltb_lt; lia).
    assert ((S i <=? maxRetries) = true) as Hle by (apply Nat.leb_le; lia).
    assert (∀ e, ∃ result' tr',
              Retry.drive fn signal maxRetries (S fuel)
                (Retry.catch_attempt (B:=B) maxRetries (signal (S i)) i e) = (Some result', tr') ∧
              Retry.calls tr' ≤ S k ∧ length (Retry.sleeps tr') ≤ S k ∧
              Forall (λ ms, 1000 ≤ ms ≤ 10000)%Z (Retry.sleeps tr')) as Hcatch.
    { intros e. unfold Retry.catch_attempt. destruct (isAbortError e).
      { rewrite drive_Throw. exists (RejectedWith e), []. split; [done|].
        split; [cbv; lia|]. split; [cbv; lia|]. constructor. }
      rewrite Hlt, drive_AwaitTimer.
      unfold Retry.timer_fired, Retry.for_next, Retry.iteration. rewrite Hle.
      destruct (signal (S i)).
      { rewrite drive_Throw. eexists _, _. split; [done|].
        rewrite calls_cons_timer, sleeps_cons_timer.
        split; [cbv; lia|]. split; [simpl; lia|].
        constructor; [apply backoff_range|constructor]. }
      rewrite Hrun. eexists _, _. split; [done|].
      rewrite calls_cons_timer, sleeps_cons_timer.
      split; [lia|]. split; [simpl; lia|]. constructor; [apply backoff_range|done]. }
    rewrite drive_AwaitFn.
    assert (∃ result' tr',
              Retry.drive fn signal maxRetries (S fuel)
                (Retry.fn_settled maxRetries (signal (S i)) i (fn i)) = (Some result', tr') ∧
              Retry.calls tr' ≤ S k ∧ length (Retry.sleeps tr') ≤ S k ∧
              Forall (λ ms, 1000 ≤ ms ≤ 10000)%Z (Retry.sleeps tr'))
      as (result' & tr' & -> & ? & ? & ?).
    { unfold Retry.fn_settled. destruct (fn i) as [r|e]; [|apply Hcatch].
      destruct (resp_ok r); [|apply Hcatch].
      rewrite drive_Return. exists (Fulfilled r), []. split; [done|].
      split; [cbv; lia|]. split; [cbv; lia|]. constructor. }
    exists result', (Retry.CallFn i :: tr'). split; [done|].
    rewrite calls_cons_call, sleeps_cons_call. split; [lia|]. done.
Qed.
End RetryMore.

(** X1. Whatever the operation does and whenever the signal fires,
    [uploadWithRetry] settles, having called the operation at most
    [maxRetries + 1] times and armed at most [maxRetries] timers, each of
    1 s to 10 s. *)
Theorem uploadWithRetry_always_settles {B : Type}
    (fn : nat → Settled (Response B)) (maxRetries : nat) (signal : nat → bool) :
  ∃ result tr,
    Retry.uploadWithRetry fn maxRetries signal = (Some result, tr) ∧
    Retry.calls tr ≤ maxRetries + 1 ∧
    length (Retry.sleeps tr) ≤ maxRetries ∧
    Forall (λ ms, 1000 ≤ ms ≤ 10000)%Z (Retry.sleeps tr).
Proof.
  unfold Retry.uploadWithRetry, Retry.start, Retry.iteration.
  destruct (signal 0).
  { rewrite drive_Throw. exists (RejectedWith AbortError), [].
    split; [done|]. split; [cbv; lia|]. split; [cbv; lia|]. constructor. }
  destruct (drive_settles fn signal maxRetries maxRetries 0 (2 * S maxRetries))
    as (result & tr & Hrun & ? & ? & ?); [lia..|].
  exists result, tr. split; [done|]. split; [lia|]. done.
Qed.

Section RetryPrefix.
Context {B : Type}.
Implicit Types (fn : nat → Settled (Response B)) (signal : nat → bool).

(** A failed attempt that is followed by another one. *)
Lemma fn_settled_retry fn maxRetries aborted i e :
  i < maxRetries → Retry.failure (fn i) = Some e → isAbortError e = false →
  Retry.fn_settled maxRetries aborted i (fn i) = Retry.Suspended (Retry.AwaitTimer i e).
Proof.
  intros Hlt Hfail Habort. unfold Retry.fn_settled, Retry.catch_attempt.
  apply Nat.ltb_lt in Hlt.
  destruct (fn i) as [r|e']; simpl in Hfail.
  - destruct (resp_ok r); [done|]. simplify_eq. by rewrite Habort, Hlt.
  - simplify_eq. by rewrite Habort, Hlt.
Qed.

(** [d] failed attempts in a row, from iteration [i] to iteration [k]: each
    is one call and one timer, and the executor goes on as it does from
    iteration [k]. *)
Lemma drive_failed_prefix fn signal maxRetries k d : ∀ i fuel result rest,
  i + d = k → k ≤ maxRetries →
  (∀ j, j < k → signal j = false) →
  (∀ j, j < k → ∃ e, Retry.failure (fn j) = Some e ∧ isAbortError e = false) →
  Retry.drive fn signal maxRetries fuel (Retry.iteration (signal k) k) = (result, rest) →
  Retry.drive fn signal maxRetries (2 * d + fuel) (Retry.iteration (signal i) i)
  = (result,
     concat ((λ j, [Retry.CallFn j; Retry.SetTimeout (Retry.backoff j)]) <$> seq i d) ++ rest).
Proof.
  induction d as [|d IH]; intros i fuel result rest Hk Hmax Hsig Hfail Hrest.
  { replace i with k by lia. done. }
  replace (2 * S d + fuel) with (S (S (2 * d + fuel))) by lia.
  rewrite (Hsig i) by lia. unfold Retry.iteration at 1. rewrite drive_AwaitFn.
  destruct (Hfail i) as (e & He & Habort); [lia|].
  rewrite (fn_settled_retry fn maxRetries _ i e) by (done || lia).
  rewrite drive_AwaitTimer. unfold Retry.timer_fired, Retry.for_next.
  assert ((S i <=? maxRetries) = true) as -> by (apply Nat.leb_le; lia).
  rewrite (IH (S i) fuel result rest) by (done || lia). done.
Qed.

Lemma attempts_from_concat i n :
  Retry.attempts_from i (S n)
  = concat ((λ j, [Retry.CallFn j; Retry.SetTimeout (Retry.backoff j)]) <$> seq i n)
    ++ [Retry.CallFn (i + n)].
Proof.
  revert i. induction n as [|n IH]; intros i.
  { simpl. by replace (i + 0) with i by lia. }
  rewrite attempts_from_SS, IH. replace (i + S n) with (S i + n) by lia. reflexivity.
Qed.
End RetryPrefix.

(** X2. The first response that is ok is what [uploadWithRetry] returns:
    when the attempts before iteration [k] fail and attempt [k] is answered
    with an ok response, that response is the result, after [k + 1] calls
    with a timer between consecutive ones. *)
Theorem uploadWithRetry_first_success {B : Type}
    (fn : nat → Settled (Response B)) (maxRetries : nat) (signal : nat → bool) k r :
  Retry.uncancelled fn signal →
  k ≤ maxRetries →
  (∀ j, j < k → is_Some (Retry.failure (fn j))) →
  fn k = Fulfilled r → resp_ok r = true →
  Retry.uploadWithRetry fn maxRetries signal
  = (Some (Fulfilled r), Retry.attempts_from 0 (k + 1)).
Proof.
  intros [Hsig Hfn] Hk Hfail Hres Hok.
  unfold Retry.uploadWithRetry, Retry.start.
  replace (2 * S maxRetries) with (2 * k + S (S (2 * (maxRetries - k)))) by lia.
  replace (k + 1) with (S k) by lia. rewrite attempts_from_concat.
  apply (drive_failed_prefix fn signal maxRetries k k 0); [done|done|by intros; apply Hsig|..].
  - intros j Hj. destruct (Hfail j Hj) as [e He]. exists e. split; [done|].
    destruct (fn j) as [r'|e'] eqn:Hfj; simpl in He.
    + destruct (resp_ok r'); [done|]. by simplify_eq.
    + simplify_eq. by eapply Hfn.
  - rewrite Hsig. unfold Retry.iteration. rewrite drive_AwaitFn.
    unfold Retry.fn_settled. rewrite Hres, Hok. by rewrite drive_Return.
Qed.

(** Two failures, then an ok response, with [maxRetries = 3]. *)
Lemma uploadWithRetry_first_success_witness :
  Retry.uploadWithRetry
    (λ i, if i <? 2 then chunk_http_error else chunk_ok) 3 (λ _, false)
  = (Some chunk_ok,
     [Retry.CallFn 0; Retry.SetTimeout 1000; Retry.CallFn 1; Retry.SetTimeout 2000;
      Retry.CallFn 2]).
Proof.
  apply (uploadWithRetry_first_success
           (λ i, if i <? 2 then chunk_http_error else chunk_ok) 3 (λ _, false) 2
           (mkResponse true 200 ())).
  - split; [done|]. intros i e. by destruct (i <? 2).
  - lia.
  - intros j Hj. apply Nat.ltb_lt in Hj. rewrite Hj. by eexists.
  - reflexivity.
  - reflexivity.
Defined.

(** X3. Cancellation between two attempts: when the signal is found set at
    the start of iteration [k], after [k] failed attempts,
    [uploadWithRetry] throws an [AbortError]; every failed attempt was
    followed by its full backoff timer, and the operation is not called
    again. *)
Theorem uploadWithRetry_cancelled_before_attempt {B : Type}
    (fn : nat → Settled (Response B)) (maxRetries : nat) (signal : nat → bool) k :
  k ≤ maxRetries →
  (∀ j, j < k → signal j = false) → signal k = true →
  (∀ j, j < k → ∃ e, Retry.failure (fn j) = Some e ∧ isAbortError e = false) →
  Retry.uploadWithRetry fn maxRetries signal
  = (Some (RejectedWith AbortError),
     concat ((λ j, [Retry.CallFn j; Retry.SetTimeout (Retry.backoff j)]) <$> seq 0 k)).
Proof.
  intros Hk Hsig Hset Hfail. unfold Retry.uploadWithRetry, Retry.start.
  replace (2 * S maxRetries) with (2 * k + (2 * (maxRetries - k) + 2)) by lia.
  rewrite <- (app_nil_r (concat _)).
  apply (drive_failed_prefix fn signal maxRetries k k 0); try done.
  rewrite Hset. unfold Retry.iteration. by rewrite drive_Throw.
Qed.

(** The first attempt fails and the file is cancelled during the backoff. *)
Lemma uploadWithRetry_cancelled_before_attempt_witness :
  Retry.uploadWithRetry (λ _, chunk_http_error) 3 (λ i, 1 <=? i)
  = (Some (RejectedWith AbortError), [Retry.CallFn 0; Retry.SetTimeout 1000]).
Proof.
  apply (uploadWithRetry_cancelled_before_attempt (λ _, chunk_http_error) 3 (λ i, 1 <=? i) 1).
  - lia.
  - intros j Hj. apply Nat.leb_gt. lia.
  - reflexivity.
  - intros j Hj. by eexists.
Defined.

(** X4. Cancellation during an attempt: when attempt [k] ends in an
    [AbortError], [uploadWithRetry] rethrows that error at once; no timer
    follows the attempt and the operation is not called again. *)
Theorem uploadWithRetry_cancelled_during_attempt {B : Type}
    (fn : nat → Settled (Response B)) (maxRetries : nat) (signal : nat → bool) k e :
  k ≤ maxRetries →
  (∀ j, j ≤ k → signal j = false) →
  (∀ j, j < k → ∃ e, Retry.failure (fn j) = Some e ∧ isAbortError e = false) →
  fn k = RejectedWith e → isAbortError e = true →
  Retry.uploadWithRetry fn maxRetries signal
  = (Some (RejectedWith e), Retry.attempts_from 0 (k + 1)).
Proof.
  intros Hk Hsig Hfail Hres Habort. unfold Retry.uploadWithRetry, Retry.start.
  replace (2 * S maxRetries) with (2 * k + S (S (2 * (maxRetries - k)))) by lia.
  replace (k + 1) with (S k) by lia. rewrite attempts_from_concat.
  apply (drive_failed_prefix fn signal maxRetries k k 0);
    [done|done|by intros; apply Hsig; lia|done|].
  rewrite Hsig by lia. unfold Retry.iteration. rewrite drive_AwaitFn.
  unfold Retry.fn_settled, Retry.catch_attempt. rewrite Hres, Habort.
  by rewrite drive_Throw.
Qed.

(** The second request is aborted while it is under way. *)
Lemma uploadWithRetry_cancelled_during_attempt_witness :
  Retry.uploadWithRetry
    (λ i, if i <? 1 then chunk_http_error else RejectedWith AbortError) 3 (λ _, false)
  = (Some (RejectedWith AbortError),
     [Retry.CallFn 0; Retry.SetTimeout 1000; Retry.CallFn 1]).
Proof.
  apply (uploadWithRetry_cancelled_during_attempt
           (λ i, if i <? 1 then chunk_http_error else RejectedWith AbortError) 3 (λ _, false)
           1 AbortError).
  - lia.
  - done.
  - intros j Hj. apply Nat.ltb_lt in Hj. rewrite Hj. by eexists.
  - reflexivity.
  - reflexivity.
Defined.


(** * Chunks of a file *)

(** A slice of [chunkSize] bytes from a multiple of [chunkSize], cut at the
    end of the file. *)
Lemma file_slice_chunk file (chunkSize : N) i :
  file_slice file (N.of_nat i * chunkSize)
    (N.min (N.of_nat i * chunkSize + chunkSize) (file_size file))
  = take (N.to_nat chunkSize) (drop (i * N.to_nat chunkSize) (file_bytes file)).
Proof.
  unfold file_slice, file_size.
  replace (N.to_nat (N.of_nat i * chunkSize)) with (i * N.to_nat chunkSize) by lia.
  set (c := N.to_nat chunkSize). set (l := file_bytes file).
  destruct (decide (i * c ≤ length l)) as [Hle|Hgt].
  - replace (N.to_nat (N.min (N.of_nat i * chunkSize + chunkSize) (N.of_nat (length l))
                       - N.of_nat i * chunkSize))
      with (c `min` (length l - i * c)) by lia.
    destruct (decide (c ≤ length l - i * c)).
    + by rewrite Nat.min_l.
    + rewrite Nat.min_r by lia.
      rewrite !take_ge; [done|rewrite length_drop; lia..].
  - rewrite drop_ge by lia. by rewrite !take_nil.
Qed.

Lemma concat_chunks (l : list Byte.byte) c k :
  concat ((λ i, take c (drop (i * c) l)) <$> seq 0 k) = take (k * c) l.
Proof.
  induction k as [|k IH]; [done|].
  rewrite seq_S, fmap_app, concat_app, IH. simpl. rewrite app_nil_r.
  rewrite take_take_drop. f_equal. lia.
Qed.

Lemma ceil_covers (n c : N) : (0 < c)%N → (n ≤ Math_ceil_div n c * c)%N.
Proof.
  intros Hc. unfold Math_ceil_div.
  pose proof (N.div_mod (n + c - 1) c ltac:(lia)) as Hdiv.
  pose proof (N.mod_upper_bound (n + c - 1) c ltac:(lia)) as Hmod.
  revert Hdiv Hmod. generalize ((n + c - 1) / c)%N ((n + c - 1) mod c)%N.
  intros q r Hdiv Hmod. nia.
Qed.

Lemma ceil_tight (n c : N) i :
  (0 < c)%N → (i < Math_ceil_div n c)%N → (i * c < n)%N.
Proof.
  intros Hc. unfold Math_ceil_div.
  pose proof (N.div_mod (n + c - 1) c ltac:(lia)) as Hdiv.
  pose proof (N.mod_upper_bound (n + c - 1) c ltac:(lia)) as Hmod.
  revert Hdiv Hmod. generalize ((n + c - 1) / c)%N ((n + c - 1) mod c)%N.
  intros q r Hdiv Hmod Hi.
  assert ((i + 1) * c ≤ q * c)%N by (apply N.mul_le_mono_r; lia). lia.
Qed.

(** X5. The chunks [uploadChunk] posts for the indices [0 .. totalChunks-1]
    are, put together in that order, the bytes of the file; none is empty
    and none is longer than [chunkSize]. *)
Theorem uploadChunk_slices_partition options u file :
  constructor options = inr u →
  let n := N.to_nat (Math_ceil_div (file_size file) (chunkSize (config u))) in
  concat (uploadChunk_slice (config u) file <$> seq 0 n) = file_bytes file ∧
  ∀ i, i < n →
    1 ≤ length (uploadChunk_slice (config u) file i) ∧
    (N.of_nat (length (uploadChunk_slice (config u) file i)) ≤ chunkSize (config u))%N.
Proof.
  intros Hc n.
  assert (0 < chunkSize (config u))%N as Hpos
    by (destruct (constructor_inv _ _ Hc) as (_ & _ & _ & _ & ?); done).
  pose proof (ceil_covers (file_size file) _ Hpos) as Hcov.
  split.
  - erewrite list_fmap_ext; [|intros ? i _; by apply file_slice_chunk].
    rewrite concat_chunks. apply take_ge. unfold file_size in *. lia.
  - intros i Hi. unfold uploadChunk_slice. rewrite file_slice_chunk.
    pose proof (ceil_tight (file_size file) (chunkSize (config u)) (N.of_nat i) Hpos
                  ltac:(lia)) as Htight.
    rewrite length_take, length_drop. unfold file_size in *. lia.
Qed.

(** Five bytes in chunks of two. *)
Lemma uploadChunk_slices_partition_witness :
  let u := uploader_of sample_options in
  (uploadChunk_slice (config u) five_bytes <$> seq 0 3)
    = [[Byte.x01; Byte.x02]; [Byte.x03; Byte.x04]; [Byte.x05]] ∧
  concat (uploadChunk_slice (config u) five_bytes <$> seq 0 3) = file_bytes five_bytes ∧
  ∀ i, i < 3 →
    1 ≤ length (uploadChunk_slice (config u) five_bytes i) ∧
    (N.of_nat (length (uploadChunk_slice (config u) five_bytes i)) ≤ chunkSize (config u))%N.
Proof.
  intros u. split; [reflexivity|].
  apply (uploadChunk_slices_partition sample_options u five_bytes). reflexivity.
Defined.

(** * The fingerprint computed by the worker *)

Section WorkerDigest.
Context {Spark : Type}.
Variable spark_new : Spark.
Variable spark_append : Spark → list Byte.byte → Spark.
Variable spark_end : Spark → string.

(** The hasher is incremental: feeding two buffers one after the other is
    feeding their concatenation. *)
Hypothesis spark_incremental :
  ∀ s a b, spark_append (spark_append s a) b = spark_append s (a ++ b).

(** With no read error, [loadNextChunk] feeds the rest of the file to the
    hasher and posts the digest. *)
Lemma loadNextChunk_digest env file chunkSize totalChunks d : ∀ fuel spark currentChunk,
  (∀ k, Fingerprint.reader_error env k = None) →
  totalChunks - S currentChunk = d → d ≤ fuel →
  Fingerprint.loadNextChunk spark_append spark_end env file chunkSize totalChunks
    fuel spark currentChunk
  = Some (Fulfilled (spark_end (spark_append spark
            (take (S d * N.to_nat chunkSize)
               (drop (currentChunk * N.to_nat chunkSize) (file_bytes file)))))).
Proof.
  induction d as [|d IH]; intros fuel spark currentChunk Hread Hd Hfuel.
  - destruct fuel; simpl; rewrite Hread, file_slice_chunk;
      (assert ((S currentChunk <? totalChunks) = false) as -> by (apply Nat.ltb_ge; lia));
      by rewrite Nat.add_0_r.
  - destruct fuel as [|fuel]; [lia|]. simpl. rewrite Hread, file_slice_chunk.
    assert ((S currentChunk <? totalChunks) = true) as -> by (apply Nat.ltb_lt; lia).
    rewrite (IH fuel _ (S currentChunk)) by (done || lia).
    rewrite spark_incremental. do 3 f_equal.
    replace (S currentChunk * N.to_nat chunkSize)
      with (currentChunk * N.to_nat chunkSize + N.to_nat chunkSize) by lia.
    rewrite <- drop_drop, take_take_drop. f_equal.
Qed.

(** X6. On a host with workers, when the hashing library loads and every
    chunk can be read, [calculateMD5] resolves with the digest of the bytes
    of the file, for any incremental hasher: the result depends on nothing
    but the bytes, and not on [chunkSize]. *)
Theorem calculateMD5_worker_digest env chunkSize file :
  (0 < chunkSize)%N →
  Fingerprint.worker_defined env = true →
  Fingerprint.worker_created env = true →
  Fingerprint.importScripts env = None →
  (∀ k, Fingerprint.reader_error env k = None) →
  Fingerprint.calculateMD5 spark_new spark_append spark_end env chunkSize file
  = Some (Fulfilled (spark_end (spark_append spark_new (file_bytes file)))).
Proof.
  intros Hpos Hdef Hcreated Himport Hread.
  unfold Fingerprint.calculateMD5, Fingerprint.worker_onmessage.
  rewrite Hdef, Hcreated, Himport.
  set (n := N.to_nat (Math_ceil_div (file_size file) chunkSize)).
  rewrite (loadNextChunk_digest env file chunkSize n (n - 1)) by (done || lia).
  rewrite drop_0, take_ge; [done|].
  pose proof (ceil_covers (file_size file) chunkSize Hpos). unfold file_size in *.
  assert (n * N.to_nat chunkSize ≤ S (n - 1) * N.to_nat chunkSize)
    by (apply Nat.mul_le_mono_r; lia).
  lia.
Qed.
End WorkerDigest.

(** The hasher that keeps what it was fed, on five bytes read in chunks of
    two. *)
Lemma calculateMD5_worker_digest_witness :
  Fingerprint.calculateMD5 [] app (λ s, pretty (length s))
    (Fingerprint.mkEnv true true None (λ _, None) 0) 2 five_bytes
  = Some (Fulfilled "5").
Proof.
  rewrite (calculateMD5_worker_digest [] app (λ s, pretty (length s))
             (λ s a b, eq_sym (app_assoc s a b))
             (Fingerprint.mkEnv true true None (λ _, None) 0) 2 five_bytes) by done.
  by vm_compute.
Defined.

(** X7. On a host with workers, [calculateMD5] rejects with
    ["Worker error: "] and the message when the hashing library cannot be
    loaded, and with ["Failed to read file chunk: "] and the reader's
    message when the first chunk that cannot be read is reached, whatever
    the chunks after it would do. *)
Theorem calculateMD5_worker_failure {Spark : Type} (spark_new : Spark) spark_append spark_end
    env chunkSize file k msg :
  Fingerprint.worker_defined env = true →
  Fingerprint.worker_created env = true →
  (Fingerprint.importScripts env = Some msg →
   Fingerprint.calculateMD5 spark_new spark_append spark_end env chunkSize file
   = Some (RejectedWith (Error ("Worker error: " +:+ msg)))) ∧
  (Fingerprint.importScripts env = None →
   k < N.to_nat (Math_ceil_div (file_size file) chunkSize) `max` 1 →
   (∀ j, j < k → Fingerprint.reader_error env j = None) →
   Fingerprint.reader_error env k = Some msg →
   Fingerprint.calculateMD5 spark_new spark_append spark_end env chunkSize file
   = Some (RejectedWith (Error ("Failed to read file chunk: " +:+ msg)))).
Proof.
  intros Hdef Hcreated.
  unfold Fingerprint.calculateMD5, Fingerprint.worker_onmessage. rewrite Hdef, Hcreated.
  split; [by intros ->|]. intros -> Hk Hbefore Hat.
  set (n := N.to_nat (Math_ceil_div (file_size file) chunkSize)) in *.
  assert (∀ d currentChunk fuel spark,
            currentChunk + d = k → d ≤ fuel →
            Fingerprint.loadNextChunk spark_append spark_end env file chunkSize n
              fuel spark currentChunk
            = Some (RejectedWith (Error ("Failed to read file chunk: " +:+ msg)))) as Hloop.
  { induction d as [|d IH]; intros currentChunk fuel spark Hd Hfuel.
    - replace currentChunk with k by lia. destruct fuel; simpl; by rewrite Hat.
    - destruct fuel as [|fuel]; [lia|]. simpl. rewrite Hbefore by lia.
      assert ((S currentChunk <? n) = true) as -> by (apply Nat.ltb_lt; lia).
      apply IH; lia. }
  apply (Hloop k); lia.
Qed.

(** The second chunk of three cannot be read. *)
Lemma calculateMD5_worker_failure_witness :
  Fingerprint.calculateMD5 [] app (λ s, pretty (length s))
    (Fingerprint.mkEnv true true None
       (λ j, if j =? 1 then Some "NotReadableError" else None) 0) 2 five_bytes
  = Some (RejectedWith (Error "Failed to read file chunk: NotReadableError")).
Proof.
  apply (calculateMD5_worker_failure [] app (λ s, pretty (length s))
           (Fingerprint.mkEnv true true None
              (λ j, if j =? 1 then Some "NotReadableError" else None) 0) 2 five_bytes
           1 "NotReadableError"); try done.
  - vm_compute. lia.
  - intros j Hj. by replace j with 0 by lia.
Defined.


(** * The queue *)

(** ** A slot that is free is used *)

Lemma processQueue_loop_busy queue : ∀ u, work_conserving (processQueue_loop queue u).1.
Proof.
  induction queue as [|id rest IH]; intros u; simpl; [by intros Hne|].
  destruct (uploadingCount u <? concurrentFiles (config u)) eqn:Hlt.
  - destruct (heap u !! id) as [t|]; [|apply IH].
    match goal with |- context [processQueue_loop rest ?x] =>
      specialize (IH x); destruct (processQueue_loop rest x) end.
    done.
  - apply Nat.ltb_ge in Hlt. by intros _.
Qed.

Lemma on_task_busy id f u : work_conserving u → work_conserving (on_task id f u).1.
Proof.
  intros Hw. unfold on_task. destruct (heap u !! id) as [t|]; [|done].
  destruct (f t) as [t' a]. destruct (in_flight (pc t) && negb (in_flight (pc t'))); [|done].
  unfold processQueue.
  match goal with |- context [processQueue_loop ?q ?x] =>
    pose proof (processQueue_loop_busy q x); destruct (processQueue_loop q x) end.
  done.
Qed.

Lemma destroy_loop_busy ids : ∀ u a,
  work_conserving u →
  work_conserving
    (foldl (λ '(u, a) id, let '(u, b) := on_task id (destroy_item (config u)) u in (u, a ++ b))
           (u, a) ids).1.
Proof.
  induction ids as [|id ids IH]; intros u a Hw; [done|]. simpl.
  pose proof (on_task_busy id (destroy_item (config u)) u Hw).
  destruct (on_task id (destroy_item (config u)) u) as [u1 b]. by apply IH.
Qed.

Lemma step_busy u ev : work_conserving u → work_conserving (step u ev).1.
Proof.
  intros Hw. destruct ev; cbn [step]; try by apply on_task_busy.
  - unfold addFiles, processQueue. apply processQueue_loop_busy.
  - unfold cancelUpload. case_bool_decide; [|done].
    destruct (heap u !! fileId) as [t|]; [|done]. apply on_task_busy.
    destruct (Item.status (item t)); try done.
    intros Hne. apply Hw. intros Hq. apply Hne. simpl. by rewrite Hq.
  - unfold destroy. apply destroy_loop_busy. unfold work_conserving. simpl. by intros Hne.
Qed.

Lemma run_busy evs : ∀ u, work_conserving u → work_conserving (run u evs).1.
Proof.
  induction evs as [|ev evs IH]; intros u Hw; [done|]. simpl.
  pose proof (step_busy u ev Hw). destruct (step u ev) as [u1 a].
  specialize (IH u1 H). by destruct (run u1 evs).
Qed.

(** X8. Whenever a file waits in the queue, [concurrentFiles] files are in
    flight: the uploader never leaves a slot free while a file waits. *)
Theorem queue_waits_only_when_full u log :
  reachable u log →
  uploadQueue u ≠ [] →
  in_flight_tasks u = concurrentFiles (config u) ∧
  uploadingCount u = concurrentFiles (config u).
Proof.
  intros Hr Hq. destruct (reachable_inv u log Hr) as [HG _].
  destruct Hr as (options & u0 & evs & Hc & Hrun).
  assert (work_conserving u) as Hw.
  { pose proof (run_busy evs u0) as H. rewrite Hrun in H. apply H.
    unfold constructor in Hc. destruct (configure options); [done|]. simplify_eq.
    unfold work_conserving. simpl. by intros Hne. }
  specialize (Hw Hq). pose proof (g_bound _ HG). pose proof (g_count _ HG). lia.
Qed.

(** Four files where three may be in flight: the fourth waits. *)
Lemma queue_waits_only_when_full_witness :
  let u := state_after sample_options
             [AddFiles [five_bytes; five_bytes; five_bytes; five_bytes]] in
  uploadQueue u = [3] ∧
  in_flight_tasks u = concurrentFiles (config u) ∧
  uploadingCount u = concurrentFiles (config u).
Proof.
  intros u. split; [reflexivity|].
  apply (queue_waits_only_when_full u
           (log_after sample_options
              [AddFiles [five_bytes; five_bytes; five_bytes; five_bytes]])).
  - apply reachable_after. reflexivity.
  - by vm_compute.
Defined.

(** ** First in, first out *)

Lemma elem_of_drop_1 {A} (x : A) k l : x ∈ drop k l → x ∈ l.
Proof. intros Hx. rewrite <- (take_drop k l). apply elem_of_app. by right. Qed.

Lemma StronglySorted_drop {A} (R : relation A) k : ∀ l,
  StronglySorted R l → StronglySorted R (drop k l).
Proof.
  induction k as [|k IH]; intros l Hl; [done|].
  destruct l as [|x l]; [done|]. simpl. apply IH. by apply StronglySorted_inv in Hl as [? _].
Qed.

Lemma StronglySorted_take_drop {A} (R : relation A) k : ∀ l x y,
  StronglySorted R l → x ∈ take k l → y ∈ drop k l → R x y.
Proof.
  induction k as [|k IH]; intros l x y Hl Hx Hy; [by apply elem_of_nil in Hx|].
  destruct l as [|z l]; [by apply elem_of_nil in Hx|]. simpl in Hx, Hy.
  apply StronglySorted_inv in Hl as [Hl Hz].
  apply elem_of_cons in Hx as [->|Hx]; [|by eapply IH].
  rewrite Forall_forall in Hz. apply Hz. by eapply elem_of_drop_1.
Qed.

Lemma StronglySorted_filter {A} (R : relation A) (P : A → Prop) `{∀ x, Decision (P x)} l :
  StronglySorted R l → StronglySorted R (filter P l).
Proof.
  induction 1 as [|x l Hl IH Hx]; [constructor|].
  rewrite filter_cons. case_decide; [|exact IH].
  constructor; [exact IH|]. rewrite Forall_forall in *.
  intros y [_ Hy]%list_elem_of_filter. by apply Hx.
Qed.

Lemma StronglySorted_seq b n : StronglySorted lt (seq b n).
Proof.
  revert b. induction n as [|n IH]; intros b; [constructor|]. simpl.
  constructor; [apply IH|]. apply Forall_forall. intros y Hy%elem_of_seq. lia.
Qed.

Lemma StronglySorted_app_lt (l1 l2 : list nat) :
  StronglySorted lt l1 → StronglySorted lt l2 →
  (∀ x y, x ∈ l1 → y ∈ l2 → x < y) → StronglySorted lt (l1 ++ l2).
Proof.
  induction 1 as [|x l Hl IH Hx]; intros H2 Hlt; [done|]. simpl.
  constructor.
  - apply IH; [done|]. intros a b Ha Hb. apply Hlt; [by right|done].
  - apply Forall_app. split; [done|]. apply Forall_forall. intros y Hy.
    apply Hlt; [by left|done].
Qed.

(** [processQueue] takes files from the head of the queue, and touches no
    other file. *)
Lemma processQueue_loop_prefix queue : ∀ u u' acts,
  processQueue_loop queue u = (u', acts) →
  ∃ k, uploadQueue u' = drop k queue ∧
       ∀ id, id ∉ take k queue → heap u' !! id = heap u !! id.
Proof.
  induction queue as [|id0 rest IH]; intros u u' acts; simpl.
  { intros [= <- <-]. by exists 0. }
  destruct (uploadingCount u <? concurrentFiles (config u)).
  2:{ intros [= <- <-]. by exists 0. }
  destruct (heap u !! id0) as [t|] eqn:Hl.
  - match goal with |- context [processQueue_loop rest ?x] =>
      specialize (IH x); destruct (processQueue_loop rest x) as [u2 b] end.
    intros [= <- <-]. destruct (IH _ _ eq_refl) as (k & Hq & Hheap).
    exists (S k). split; [done|]. intros id Hid. simpl in Hid.
    rewrite Hheap by (intros ?; apply Hid; by right). simpl.
    apply list_lookup_insert_ne. intros ->. apply Hid. by left.
  - intros Hloop. destruct (IH _ _ _ Hloop) as (k & Hq & Hheap).
    exists (S k). split; [done|]. intros id Hid. simpl in Hid.
    rewrite Hheap by (intros ?; apply Hid; by right). done.
Qed.

Lemma processQueue_fifo u u' acts :
  fifo u → processQueue_loop (uploadQueue u) u = (u', acts) → fifo u'.
Proof.
  intros [Hsorted Hstarted] Hloop.
  destruct (processQueue_loop_prefix _ _ _ _ Hloop) as (k & Hq & Hheap).
  split; [rewrite Hq; by apply StronglySorted_drop|].
  intros id id' t Hid Hl Hpc. rewrite Hq in Hid.
  destruct (decide (id' ∈ take k (uploadQueue u))) as [Hin|Hout].
  - by eapply StronglySorted_take_drop.
  - rewrite (Hheap _ Hout) in Hl. eapply Hstarted; [|done..]. by eapply elem_of_drop_1.
Qed.

Lemma on_task_fifo id f u u' acts :
  fifo u →
  (∀ t, pc t = NotStarted → pc (f t).1 = NotStarted) →
  on_task id f u = (u', acts) → fifo u'.
Proof.
  intros [Hsorted Hstarted] Hf. unfold on_task.
  destruct (heap u !! id) as [t|] eqn:Hl; [|by intros [= <- <-]].
  specialize (Hf t). destruct (f t) as [t' a]. simpl in Hf.
  assert (fifo (with_heap (<[id:=t']> (heap u)) u)) as Hfifo.
  { split; [done|]. simpl. intros id1 id2 t2 Hin Hl2 Hpc.
    destruct (decide (id2 = id)) as [->|Hne].
    - eapply Hstarted; [done..|].
      rewrite list_lookup_insert_eq in Hl2 by (by eapply lookup_lt_Some).
      simplify_eq. intros Hns. by apply Hpc, Hf.
    - rewrite list_lookup_insert_ne in Hl2 by done. by eapply Hstarted. }
  destruct (in_flight (pc t) && negb (in_flight (pc t'))); [|by intros [= <- <-]].
  unfold processQueue.
  match goal with |- context [processQueue_loop ?q ?x] =>
    destruct (processQueue_loop q x) as [u2 b] eqn:E end.
  intros [= <- <-]. eapply processQueue_fifo; [|exact E]. exact Hfifo.
Qed.

Lemma local_step_stays_unstarted cfg e t :
  e ≠ LStart → pc t = NotStarted → pc (local_step cfg e t).1 = NotStarted.
Proof.
  intros He Hpc. destruct (local_step cfg e t) as [t' a] eqn:Hstep.
  apply local_step_pc in Hstep as (H & _); [|done]. simpl. by apply H.
Qed.

Lemma on_task_queue_nil id f u :
  uploadQueue u = [] → uploadQueue (on_task id f u).1 = [].
Proof.
  intros Hq. unfold on_task. destruct (heap u !! id) as [t|]; [|done].
  destruct (f t) as [t' a]. destruct (in_flight (pc t) && negb (in_flight (pc t'))); [|done].
  unfold processQueue. simpl. by rewrite Hq.
Qed.

Lemma destroy_loop_queue_nil ids : ∀ u a,
  uploadQueue u = [] →
  uploadQueue
    (foldl (λ '(u, a) id, let '(u, b) := on_task id (destroy_item (config u)) u in (u, a ++ b))
           (u, a) ids).1 = [].
Proof.
  induction ids as [|id ids IH]; intros u a Hq; [done|]. simpl.
  pose proof (on_task_queue_nil id (destroy_item (config u)) u Hq).
  destruct (on_task id (destroy_item (config u)) u) as [u1 b]. by apply IH.
Qed.

Lemma step_fifo u ev u' acts :
  Ginv u → fifo u → step u ev = (u', acts) → fifo u'.
Proof.
  intros HG Hfifo.
  destruct ev; cbn [step];
    try (apply on_task_fifo; [done|]; intros t;
         match goal with |- _ → pc (?f t).1 = _ =>
           first [ exact (local_step_stays_unstarted (config u) (LMD5 r) t ltac:(done))
                 | exact (local_step_stays_unstarted (config u) (LCheck r) t ltac:(done))
                 | exact (local_step_stays_unstarted (config u) (LChunk w r) t ltac:(done))
                 | exact (local_step_stays_unstarted (config u) (LTimer w) t ltac:(done))
                 | exact (local_step_stays_unstarted (config u) (LMerge r) t ltac:(done)) ]
         end).
  - (* addFiles *)
    unfold addFiles, processQueue. apply processQueue_fifo.
    destruct Hfifo as [Hsorted Hstarted]. split; simpl.
    + apply StronglySorted_app_lt; [done|apply StronglySorted_seq|].
      intros x y Hx Hy%elem_of_seq.
      destruct (wf_queue _ (g_wf _ HG) x Hx) as [f Hf]. apply lookup_lt_Some in Hf. lia.
    + intros id id' t Hid Hl Hpc.
      assert (heap u !! id' = Some t) as Hold.
      { apply lookup_app_Some in Hl as [Hl|[_ Hl]]; [done|].
        apply list_lookup_imap_Some in Hl as (f & _ & ->). done. }
      apply elem_of_app in Hid as [Hid|Hid%elem_of_seq]; [by eapply Hstarted|].
      apply lookup_lt_Some in Hold. lia.
  - (* cancelUpload *)
    unfold cancelUpload. case_bool_decide; [|by intros [= <- <-]].
    destruct (heap u !! fileId) as [t|]; [|by intros [= <- <-]].
    apply on_task_fifo.
    + destruct Hfifo as [Hsorted Hstarted].
      destruct (Item.status (item t)); try done.
      split; simpl; [by apply StronglySorted_filter|].
      intros id id' t' [_ Hid]%list_elem_of_filter Hl Hpc. by eapply Hstarted.
    + intros t'. destruct (Item.status (item t));
        exact (local_step_stays_unstarted (config u) LCancel t' ltac:(done)).
  - (* destroy *)
    unfold destroy. intros Hd.
    pose proof (destroy_loop_queue_nil (seq 0 (length (heap u)))
                  (with_files [] (with_uploadQueue [] u)) [] eq_refl) as Hq.
    simpl in Hq, Hd. rewrite Hd in Hq. simpl in Hq.
    split; rewrite Hq; [constructor|]. intros id id' t Hid. by apply elem_of_nil in Hid.
Qed.

Lemma run_fifo evs : ∀ u u' acts,
  Ginv u → fifo u → run u evs = (u', acts) → fifo u'.
Proof.
  induction evs as [|ev evs IH]; intros u u' acts HG Hfifo; simpl.
  { by intros [= <- <-]. }
  destruct (step u ev) as [u1 a] eqn:Hstep. destruct (run u1 evs) as [u2 b] eqn:Hrun.
  intros [= <- <-].
  destruct (step_local u ev u1 a HG Hstep) as (HG1 & _).
  eapply IH; [exact HG1| |exact Hrun]. eapply step_fifo; [exact HG|exact Hfifo|exact Hstep].
Qed.

(** X9. Files are dispatched in the order in which they were added: a file
    whose [processFile] call has started was added before every file that
    still waits in the queue, and the queue itself is in the order of
    addition. *)
Theorem dispatch_is_fifo u log :
  reachable u log →
  StronglySorted lt (uploadQueue u) ∧
  ∀ id id' t, id ∈ uploadQueue u → heap u !! id' = Some t → pc t ≠ NotStarted → id' < id.
Proof.
  intros (options & u0 & evs & Hc & Hrun).
  destruct (constructor_inv options u0 Hc) as (HG0 & Hheap & _).
  apply (run_fifo evs u0 u log HG0); [|done].
  unfold constructor in Hc. destruct (configure options); [done|]. simplify_eq.
  split; [constructor|]. intros id id' t Hid. by apply elem_of_nil in Hid.
Qed.

(** Five files, then the first one fails its check: the fourth file takes
    its place and the fifth still waits. *)
Lemma dispatch_is_fifo_witness :
  let u := state_after sample_options
             [AddFiles [five_bytes; five_bytes; five_bytes; five_bytes; five_bytes];
              MD5Settled 0 (Fulfilled "900150983cd24fb0d6963f7d28e17f72");
              CheckSettled 0 (RejectedWith (Error "Failed to fetch"))] in
  uploadQueue u = [4] ∧ (pc <$> heap u) = [Done; AwaitMD5; AwaitMD5; AwaitMD5; NotStarted] ∧
  StronglySorted lt (uploadQueue u) ∧
  ∀ id id' t, id ∈ uploadQueue u → heap u !! id' = Some t → pc t ≠ NotStarted → id' < id.
Proof.
  intros u. split; [reflexivity|]. split; [reflexivity|].
  apply (dispatch_is_fifo u
           (log_after sample_options
              [AddFiles [five_bytes; five_bytes; five_bytes; five_bytes; five_bytes];
               MD5Settled 0 (Fulfilled "900150983cd24fb0d6963f7d28e17f72");
               CheckSettled 0 (RejectedWith (Error "Failed to fetch"))])).
  apply reachable_after. reflexivity.
Defined.


(** * Requests and the abort signal *)

Section Abort.
Variable cfg : Config.

Lemma guarded_nil t : guarded t [].
Proof. constructor. Qed.

Lemma guarded_silent t a :
  aborted t = true → guarded t a → Forall (λ x, is_network_call x = false) a.
Proof.
  intros Hab Hg. eapply Forall_impl; [exact Hg|]. simpl. intros x Hx.
  apply not_true_is_false. intros E. specialize (Hx E). congruence.
Qed.

Lemma silent_guarded t a :
  Forall (λ x, is_network_call x = false) a → guarded t a.
Proof. intros Hs. eapply Forall_impl; [exact Hs|]. simpl. by intros x ->. Qed.

Lemma after_workers_guarded t :
  guarded t (after_workers t).2 ∧ aborted (after_workers t).1 = aborted t.
Proof. unfold guarded. unfold_blocks. break; split; repeat constructor; simpl; done. Qed.

Lemma chunk_settled_guarded w r t : guarded t (chunk_settled cfg w r t).2.
Proof. unfold guarded. unfold_blocks. break; repeat constructor; simpl; done. Qed.

Lemma timer_fired_guarded w t : guarded t (timer_fired cfg w t).2.
Proof. unfold guarded. unfold_blocks. break; repeat constructor; simpl; done. Qed.

Lemma then_after_workers_guarded f w t :
  (∀ t t1 a, f t = (t1, a) → (t1 = t ∧ a = []) ∨ worker_event w t t1) →
  guarded t (f t).2 →
  guarded t (then_after_workers f t).2 ∧ aborted (then_after_workers f t).1 = aborted t.
Proof.
  intros Hf Hg. unfold then_after_workers.
  destruct (f t) as [t1 a1] eqn:Hft. apply Hf in Hft.
  pose proof (after_workers_guarded t1) as [Hg2 Hab2].
  destruct (after_workers t1) as [t2 b]. simpl in *.
  assert (aborted t1 = aborted t) as Hab1.
  { destruct Hft as [[-> _]|(c & p & x & _ & _ & _ & ? & _)]; done. }
  unfold guarded in *. rewrite Hab1 in *. split; [|done]. by apply Forall_app.
Qed.

Lemma spawn_workers_guarded n : ∀ t, guarded t (spawn_workers n t).2.
Proof.
  induction n as [|n IH]; intros t; simpl; [constructor|].
  destruct (worker_loop t) as [[t1 x] a] eqn:Hw.
  specialize (IH (with_workers (workers t1 ++ [x]) t1)).
  destruct (spawn_workers n _) as [t2 b]. unfold guarded in *. simpl in *.
  assert (aborted t1 = aborted t ∧
          Forall (λ x, is_network_call x = true → aborted t = false) a) as [Hab Ha].
  { revert Hw. unfold_blocks. intros. break; split; repeat constructor; simpl; done. }
  apply Forall_app. split; [done|]. by rewrite <- Hab.
Qed.

Lemma abort_reactions_silent t :
  aborted t = true →
  Forall (λ x, is_network_call x = false) (abort_reactions cfg t).2 ∧
  aborted (abort_reactions cfg t).1 = true.
Proof.
  intros Hab. unfold abort_reactions.
  destruct (pc t); try (by split; [repeat constructor|]).
  unfold then_after_workers. cbv beta. rewrite abort_fold_spec.
  match goal with |- context [after_workers ?x] =>
    pose proof (after_workers_guarded x) as [Hg Hab']; destruct (after_workers x) end.
  simpl in *. split; [|congruence]. by eapply guarded_silent.
Qed.

(** A local step sends requests only while the signal of the file is not
    fired. *)
Lemma local_step_guarded e t t' a :
  local_step cfg e t = (t', a) → guarded t a.
Proof.
  destruct e as [| | |r|r|w r|w|r]; simpl.
  - unfold processFile_start. intros [= <- <-]. by repeat constructor.
  - unfold cancelUpload_item.
    destruct (Item.status (item t)); try (intros [= <- <-]; by repeat constructor).
    all: destruct (registered t); [|intros [= <- <-]; by repeat constructor].
    all: match goal with |- context [abort_reactions cfg ?x] =>
           pose proof (abort_reactions_silent x eq_refl) as [Hs _];
           destruct (abort_reactions cfg x) as [t1 a1] end.
    all: intros [= <- <-]; constructor; [done|].
    all: by apply silent_guarded.
  - unfold destroy_item. destruct (registered t); [|intros [= <- <-]; constructor].
    match goal with |- context [abort_reactions cfg ?x] =>
      pose proof (abort_reactions_silent x eq_refl) as [Hs _];
      destruct (abort_reactions cfg x) as [t1 a1] end.
    intros [= <- <-]. by apply silent_guarded.
  - unfold guarded. unfold_blocks. intros. break; repeat constructor; simpl; done.
  - unfold guarded, check_settled. destruct (pc t); try (intros [= <- <-]; constructor).
    destruct r as [response|e]; [|unfold_blocks; intros; break; by repeat constructor].
    destruct (negb (resp_ok response)); [unfold_blocks; intros; break; by repeat constructor|].
    destruct (CheckResult.exists_ _); [unfold_blocks; intros; break; by repeat constructor|].
    destruct (filter _ _) as [|c0 chunks].
    { unfold_blocks. intros. break; repeat constructor; simpl; done. }
    unfold uploadChunksWithConcurrency.
    match goal with |- context [spawn_workers ?n ?x] =>
      pose proof (spawn_workers_guarded n x) as Hg;
      destruct (spawn_workers n x) as [t1 a1] eqn:Hspawn end.
    apply spawn_workers_spec in Hspawn as (_ & _ & Hab & _).
    pose proof (after_workers_guarded (with_pc AwaitWorkers t1)) as [Hg2 _].
    destruct (after_workers _) as [t2 b]. intros [= <- <-]. unfold guarded in *. simpl in *.
    constructor; [done|]. apply Forall_app. split; [done|]. by rewrite Hab in Hg2.
  - intros H. pose proof (then_after_workers_guarded (chunk_settled cfg w r) w t
                            (chunk_settled_spec cfg w r) (chunk_settled_guarded w r t)) as [Hg _].
    by rewrite H in Hg.
  - intros H. pose proof (then_after_workers_guarded (timer_fired cfg w) w t
                            (timer_fired_spec cfg w) (timer_fired_guarded w t)) as [Hg _].
    by rewrite H in Hg.
  - unfold guarded. unfold_blocks. intros. break; repeat constructor; simpl; done.
Qed.

(** Only the start of [processFile] makes a new, unfired signal. *)
Lemma local_step_aborted e t t' a :
  e ≠ LStart → aborted t = true → local_step cfg e t = (t', a) → aborted t' = true.
Proof.
  intros He Hab. destruct e as [| | |r|r|w r|w|r]; try done; simpl.
  - unfold cancelUpload_item.
    destruct (Item.status (item t)); try (by intros [= <- <-]).
    all: destruct (registered t); [|by intros [= <- <-]].
    all: match goal with |- context [abort_reactions cfg ?x] =>
           pose proof (abort_reactions_silent x eq_refl) as [_ Hs];
           destruct (abort_reactions cfg x) as [t1 a1] end.
    all: by intros [= <- <-].
  - unfold destroy_item. destruct (registered t); [|by intros [= <- <-]].
    match goal with |- context [abort_reactions cfg ?x] =>
      pose proof (abort_reactions_silent x eq_refl) as [_ Hs];
      destruct (abort_reactions cfg x) as [t1 a1] end.
    by intros [= <- <-].
  - unfold_blocks. intros. by break.
  - unfold check_settled. destruct (pc t); try (by intros [= <- <-]).
    destruct r as [response|e]; [|unfold_blocks; intros; by break].
    destruct (negb (resp_ok response)); [unfold_blocks; intros; by break|].
    destruct (CheckResult.exists_ _); [unfold_blocks; intros; by break|].
    destruct (filter _ _) as [|c0 chunks]; [unfold_blocks; intros; by break|].
    unfold uploadChunksWithConcurrency.
    destruct (spawn_workers _ _) as [t1 a1] eqn:Hspawn.
    apply spawn_workers_spec in Hspawn as (_ & _ & Hab1 & _).
    pose proof (after_workers_guarded (with_pc AwaitWorkers t1)) as [_ Hab2].
    destruct (after_workers _) as [t2 b]. intros [= <- <-]. simpl in *. congruence.
  - intros H. pose proof (then_after_workers_guarded (chunk_settled cfg w r) w t
                            (chunk_settled_spec cfg w r) (chunk_settled_guarded w r t)) as [_ Hg].
    rewrite H in Hg. simpl in Hg. congruence.
  - intros H. pose proof (then_after_workers_guarded (timer_fired cfg w) w t
                            (timer_fired_spec cfg w) (timer_fired_guarded w t)) as [_ Hg].
    rewrite H in Hg. simpl in Hg. congruence.
  - unfold_blocks. intros. by break.
Qed.

(** Before [processFile] starts there is no signal to fire. *)
Lemma local_step_unstarted e t t' a :
  TInv cfg t → enabled e t → (pc t = NotStarted → aborted t = false) →
  local_step cfg e t = (t', a) → pc t' = NotStarted → aborted t' = false.
Proof.
  intros Hinv Hen Hidle Hstep Hpc'.
  pose proof (local_step_rank cfg e t t' a Hen Hstep) as Hrank.
  assert (pc t = NotStarted) as Hpc by (destruct (pc t); rewrite Hpc' in Hrank; simpl in *; lia || done).
  destruct (inv_notstarted _ _ Hinv Hpc) as [Hst Hreg].
  destruct e as [| | |r|r|w r|w|r];
    try (rewrite (notstarted_noop cfg _ t Hinv Hpc) in Hstep by done; simplify_eq; by apply Hidle).
  - simpl in Hstep. unfold processFile_start in Hstep. by simplify_eq.
  - simpl in Hstep. unfold cancelUpload_item in Hstep. rewrite Hreg in Hstep.
    destruct Hst as [Hst|Hst]; rewrite Hst in Hstep; simplify_eq; by apply Hidle.
Qed.

Lemma treach_unstarted t0 es acts t :
  TInv cfg t0 → (pc t0 = NotStarted → aborted t0 = false) →
  treach cfg t0 es acts t → pc t = NotStarted → aborted t = false.
Proof.
  intros Hinv0 H0 Hreach.
  induction Hreach as [|es acts t e a t' Hreach IH Hen Hstep]; [done|].
  eapply local_step_unstarted; [|done|done|done]. by eapply treach_inv.
Qed.

(** Once the signal of a file is fired, no request is sent for the file. *)
Lemma treach_aborted t0 es acts t :
  pc t0 ≠ NotStarted → aborted t0 = true → treach cfg t0 es acts t →
  aborted t = true ∧ pc t ≠ NotStarted ∧ Forall (λ x, is_network_call x = false) acts.
Proof.
  intros Hpc0 Hab0.
  induction 1 as [|es acts t e a t' Hreach (Hab & Hpc & Hacts) Hen Hstep]; [done|].
  assert (e ≠ LStart) as He by (intros ->; by destruct Hen).
  split; [by eapply local_step_aborted|]. split.
  - apply local_step_pc in Hstep as (_ & _ & _ & Hrank); [|done].
    destruct (pc t), (pc t'); simpl in *; done || lia.
  - apply Forall_app. split; [done|]. apply local_step_guarded in Hstep.
    by eapply guarded_silent.
Qed.
End Abort.


(** * Cancelling a file *)

(** [cancelUpload(id)] for a file of the list is the step [LCancel] of
    that file; the file is not in the queue afterwards. *)
Lemma step_cancel u id t u1 acts :
  Ginv u → id ∈ files u → heap u !! id = Some t →
  step u (CancelUpload id) = (u1, acts) →
  ∃ t1, local_step (config u) LCancel t = (t1, actions_of id acts) ∧
        heap u1 !! id = Some t1 ∧ Ginv u1 ∧ config u1 = config u ∧ id ∉ uploadQueue u1.
Proof.
  intros HG Hfiles Hl. simpl. unfold cancelUpload.
  rewrite bool_decide_eq_true_2 by done. rewrite Hl.
  match goal with |- on_task _ _ ?x = _ → _ => set (u0 := x) end.
  assert (config u0 = config u ∧ heap u0 = heap u ∧ Ginv u0 ∧ id ∉ uploadQueue u0)
    as (Hcfg0 & Hheap0 & HG0 & Hnotin).
  { unfold u0. pose proof (wf_queue _ (g_wf _ HG)) as Hwq.
    destruct (Item.status (item t)) eqn:Hst;
      try (split; [done|]; split; [done|]; split; [done|];
           intros Hin; destruct (Hwq _ Hin) as [f Hf];
           assert (t = new_task (config u) id f) as -> by congruence; done).
    split; [done|]. split; [done|].
    split; [|by intros [? _]%list_elem_of_filter].
    eapply Ginv_intro; [|done]. apply Gpre_with_queue.
    apply (Gpre_sub (uploadQueue u)).
    - by apply Ginv_Gpre.
    - apply NoDup_filter, (wf_nodup _ (g_wf _ HG)).
    - intros x [_ ?]%list_elem_of_filter. done. }
  intros Hon.
  change (cancelUpload_item (config u0)) with (local_step (config u0) LCancel) in Hon.
  rewrite <- Hheap0 in Hl.
  destruct (on_task_spec LCancel id u0 u1 acts t HG0 ltac:(done) Hl ltac:(done) Hon)
    as (t1 & a & Hstep & Hl1 & Ha & HG1 & Hcfg1 & _ & _ & Hsub & _).
  exists t1. rewrite <- Hcfg0, Ha. split; [done|]. split; [done|]. split; [done|].
  split; [congruence|]. intros Hin. by apply Hnotin, Hsub.
Qed.

(** A file that was cancelled before it was dispatched does nothing any
    more. *)
Lemma cancelled_unstarted_noop cfg e t :
  TInv cfg t → pc t = NotStarted → Item.status (item t) = cancelled → enabled e t →
  local_step cfg e t = (t, []).
Proof.
  intros Hinv Hpc Hst Hen. destruct e as [| | |r|r|w r|w|r];
    try (by apply notstarted_noop).
  - destruct Hen as [_ Hp]. congruence.
  - simpl. unfold cancelUpload_item. by rewrite Hst.
Qed.

Lemma cancelled_unstarted_treach cfg t es acts t' :
  TInv cfg t → pc t = NotStarted → Item.status (item t) = cancelled →
  treach cfg t es acts t' → t' = t ∧ acts = [].
Proof.
  intros Hinv Hpc Hst. induction 1 as [|es acts t1 e a t2 _ IH Hen Hstep]; [done|].
  destruct IH as [-> ->].
  rewrite (cancelled_unstarted_noop cfg e t Hinv Hpc Hst Hen) in Hstep. by simplify_eq.
Qed.

(** ** Where the check request comes from *)

Section CheckCall.
Variable cfg : Config.

Lemma after_workers_no_check t :
  Forall (λ x, match x with FetchCheck _ _ _ => False | _ => True end) (after_workers t).2.
Proof. unfold_blocks. break; by repeat constructor. Qed.

Lemma chunk_settled_no_check w r t :
  Forall (λ x, match x with FetchCheck _ _ _ => False | _ => True end)
         (chunk_settled cfg w r t).2.
Proof. unfold_blocks. break; by repeat constructor. Qed.

Lemma timer_fired_no_check w t :
  Forall (λ x, match x with FetchCheck _ _ _ => False | _ => True end)
         (timer_fired cfg w t).2.
Proof. unfold_blocks. break; by repeat constructor. Qed.

Lemma spawn_workers_no_check n : ∀ t,
  Forall (λ x, match x with FetchCheck _ _ _ => False | _ => True end) (spawn_workers n t).2.
Proof.
  induction n as [|n IH]; intros t; simpl; [constructor|].
  destruct (worker_loop t) as [[t1 x] a] eqn:Hw.
  specialize (IH (with_workers (workers t1 ++ [x]) t1)).
  destruct (spawn_workers n _) as [t2 b]. simpl in *.
  apply Forall_app. split; [|done].
  revert Hw. unfold_blocks. intros. break; by repeat constructor.
Qed.

Lemma then_after_workers_no_check f t :
  Forall (λ x, match x with FetchCheck _ _ _ => False | _ => True end) (f t).2 →
  Forall (λ x, match x with FetchCheck _ _ _ => False | _ => True end)
         (then_after_workers f t).2.
Proof.
  intros Hf. unfold then_after_workers. destruct (f t) as [t1 a1].
  pose proof (after_workers_no_check t1). destruct (after_workers t1). simpl in *.
  by apply Forall_app.
Qed.

Lemma abort_reactions_no_check t :
  Forall (λ x, match x with FetchCheck _ _ _ => False | _ => True end)
         (abort_reactions cfg t).2.
Proof.
  unfold abort_reactions. destruct (pc t); try (by repeat constructor).
  apply then_after_workers_no_check. by rewrite abort_fold_spec.
Qed.

(** The check request is sent when the fingerprint arrives, and only
    then. *)
Lemma local_step_check_call e t t' a id m fn :
  local_step cfg e t = (t', a) → FetchCheck id m fn ∈ a →
  pc t = AwaitMD5 ∧ pc t' = AwaitCheck.
Proof.
  assert (∀ l, Forall (λ x, match x with FetchCheck _ _ _ => False | _ => True end) l →
               FetchCheck id m fn ∈ l → False) as Hno.
  { intros l Hl Hin. rewrite Forall_forall in Hl. by apply Hl in Hin. }
  destruct e as [| | |r|r|w r|w|r]; simpl.
  - unfold processFile_start. intros [= <- <-] Hin. by in_list.
  - unfold cancelUpload_item. destruct (Item.status (item t));
      try (intros [= <- <-] Hin; by in_list).
    all: destruct (registered t); [|intros [= <- <-] Hin; by in_list].
    all: match goal with |- context [abort_reactions cfg ?x] =>
           pose proof (abort_reactions_no_check x) as Hx;
           destruct (abort_reactions cfg x) as [t1 a1] end.
    all: intros [= <- <-] Hin; apply elem_of_cons in Hin as [?|Hin]; [done|].
    all: by apply Hno in Hin.
  - unfold destroy_item. destruct (registered t); [|intros [= <- <-] Hin; by in_list].
    match goal with |- context [abort_reactions cfg ?x] =>
      pose proof (abort_reactions_no_check x) as Hx;
      destruct (abort_reactions cfg x) as [t1 a1] end.
    intros [= <- <-] Hin. by apply Hno in Hin.
  - unfold_blocks. intros. break; by in_list.
  - unfold check_settled. destruct (pc t); try (intros [= <- <-] Hin; by in_list).
    destruct r as [response|e]; [|unfold_blocks; intros; break; by in_list].
    destruct (negb (resp_ok response)); [unfold_blocks; intros; break; by in_list|].
    destruct (CheckResult.exists_ _); [unfold_blocks; intros; break; by in_list|].
    destruct (filter _ _) as [|c0 chunks]; [unfold_blocks; intros; break; by in_list|].
    unfold uploadChunksWithConcurrency.
    match goal with |- context [spawn_workers ?n ?x] =>
      pose proof (spawn_workers_no_check n x) as Hs;
      destruct (spawn_workers n x) as [t1 a1] end.
    pose proof (after_workers_no_check (with_pc AwaitWorkers t1)) as Ha.
    destruct (after_workers _) as [t2 b]. intros [= <- <-] Hin. simpl in *.
    apply elem_of_cons in Hin as [?|Hin]; [done|].
    apply elem_of_app in Hin as [Hin|Hin]; by apply Hno in Hin.
  - intros Hstep Hin. exfalso. eapply Hno; [|exact Hin].
    pose proof (then_after_workers_no_check (chunk_settled cfg w r) t
                  (chunk_settled_no_check w r t)) as H. by rewrite Hstep in H.
  - intros Hstep Hin. exfalso. eapply Hno; [|exact Hin].
    pose proof (then_after_workers_no_check (timer_fired cfg w) t
                  (timer_fired_no_check w t)) as H. by rewrite Hstep in H.
  - unfold_blocks. intros. break; by in_list.
Qed.

(** Until the fingerprint is there, no request at all is sent for the
    file. *)
Lemma treach_before_fingerprint t0 es acts t :
  TInv cfg t0 → treach cfg t0 es acts t →
  pc t = NotStarted ∨ pc t = AwaitMD5 →
  Forall (λ x, is_network_call x = false) acts.
Proof.
  intros Hinv0 Hreach. induction Hreach as [|es acts t e a t' Hreach IH Hen Hstep]; [done|].
  intros Hpc'.
  pose proof (local_step_rank cfg e t t' a Hen Hstep) as Hrank.
  pose proof (treach_inv cfg _ _ _ _ Hinv0 Hreach) as Hinv.
  pose proof (local_step_inv cfg e t t' a Hinv Hen Hstep) as Hinv'.
  apply Forall_app. split.
  - apply IH. destruct (pc t), (pc t'); simpl in *; (by left) || (by right) || (destruct Hpc'; done || lia).
  - apply Forall_forall. intros x Hx. destruct x; try done; exfalso.
    + apply (local_step_check_call _ _ _ _ _ _ _ Hstep) in Hx as [_ Hpc].
      rewrite Hpc in Hpc'. by destruct Hpc'.
    + apply (local_step_chunk_call _ _ _ _ _ _ _ _ Hstep) in Hx.
      apply Hx, (inv_early _ _ Hinv'). destruct Hpc' as [->| ->]; auto.
    + apply (local_step_merge_call _ _ _ _ _ _ _ _ _ Hstep) in Hx as [Hpc _].
      rewrite Hpc in Hpc'. by destruct Hpc'.
Qed.
End CheckCall.

Lemma in_flight_status cfg t :
  TInv cfg t →
  Item.status (item t) = checking ∨ Item.status (item t) = uploading
    ∨ Item.status (item t) = merging →
  in_flight (pc t) = true.
Proof.
  intros Hinv Hst. destruct (pc t) eqn:Hpc; try done.
  - destruct (inv_notstarted _ _ Hinv Hpc) as [[H|H] _]; rewrite H in Hst; naive_solver.
  - destruct (inv_done _ _ Hinv Hpc) as [H _].
    destruct Hst as [Hst|[Hst|Hst]]; by rewrite Hst in H.
Qed.

(** X10. [cancelUpload] on a file that is being checked, uploaded or
    merged announces it as cancelled at once, and from then on no request
    is sent for it: no check, no chunk, no merge.  Its status stays
    terminal. *)
Theorem cancelUpload_stops_requests u log id it u1 acts evs u2 acts' :
  reachable u log →
  id ∈ files u →
  item_of u id = Some it →
  Item.status it = checking ∨ Item.status it = uploading ∨ Item.status it = merging →
  step u (CancelUpload id) = (u1, acts) →
  run u1 evs = (u2, acts') →
  (∃ rest, actions_of id acts = UpdateFileStatus (Item.set_status cancelled it) :: rest) ∧
  Forall (λ a, is_network_call a = false) (actions_of id (acts ++ acts')) ∧
  (∃ it2, item_of u2 id = Some it2 ∧ terminal (Item.status it2) = true).
Proof.
  unfold item_of at 1. intros Hr Hfiles (t & Hl & ->)%fmap_Some Hst Hstep Hrun.
  destruct (reachable_item _ _ _ _ Hr Hl) as (HG & Hinv & _).
  destruct (step_cancel u id t u1 acts HG Hfiles Hl Hstep)
    as (t1 & Hlocal & Hl1 & HG1 & Hcfg1 & _).
  pose proof (in_flight_status _ _ Hinv Hst) as Hfl.
  assert (TInv (config u) t1) as Hinv1
    by (eapply (local_step_inv _ LCancel); [exact Hinv|done|exact Hlocal]).
  assert ((∃ rest, actions_of id acts
                   = UpdateFileStatus (Item.set_status cancelled (item t)) :: rest) ∧
          aborted t1 = true ∧ terminal (Item.status (item t1)) = true ∧
          Forall (λ a, is_network_call a = false) (actions_of id acts))
    as (Hhead & Hab1 & Hterm1 & Hsilent).
  { revert Hlocal. simpl. unfold cancelUpload_item.
    destruct (registered t) eqn:Hreg.
    - match goal with |- context [abort_reactions ?c ?x] =>
        pose proof (abort_reactions_silent c x eq_refl) as [Hs Hab];
        pose proof (abort_reactions_terminal c x eq_refl eq_refl) as Hterm;
        destruct (abort_reactions c x) as [t2 a2] end.
      destruct Hst as [Hst|[Hst|Hst]]; rewrite Hst; intros [= <- <-];
        (split; [by eexists|]); (split; [done|]); (split; [done|]); by constructor.
    - assert (aborted t = true) as Hab.
      { destruct (inv_handle _ _ Hinv Hfl); congruence. }
      destruct Hst as [Hst|[Hst|Hst]]; rewrite Hst; intros [= <- <-];
        (split; [by eexists|]); (split; [done|]); (split; [done|]); by repeat constructor. }
  assert (pc t1 ≠ NotStarted) as Hpc1.
  { apply local_step_pc in Hlocal as (_ & _ & _ & Hrank); [|done].
    destruct (pc t), (pc t1); simpl in *; done || lia. }
  destruct (run_history _ _ _ _ _ _ HG1 Hl1 Hrun) as (_ & _ & t2 & es & Hl2 & Hreach & _).
  destruct (treach_aborted _ _ _ _ _ Hpc1 Hab1 Hreach) as (_ & _ & Hsilent2).
  split; [done|]. split.
  - rewrite actions_of_app. by apply Forall_app.
  - exists (item t2). split; [unfold item_of; by rewrite Hl2|].
    eapply treach_terminal; [|exact Hterm1|exact Hreach]. by rewrite Hcfg1.
Qed.

(** Scenario 4: the file is cancelled while two chunks are under way;
    answers that arrive later change nothing. *)
Lemma cancelUpload_stops_requests_witness :
  let evs := [AddFiles [five_bytes];
              MD5Settled 0 (Fulfilled "900150983cd24fb0d6963f7d28e17f72");
              CheckSettled 0 (check_answer false [])] in
  let u := state_after small_options evs in
  let later := [ChunkSettled 0 0 chunk_ok; TimerFired 0 1] in
  (Item.status <$> item_of u 0) = Some uploading ∧
  (∃ rest, actions_of 0 (step u (CancelUpload 0)).2
           = UpdateFileStatus (Item.set_status cancelled
               (Item.set_status uploading
                  (Item.set_uploadedChunks []
                     (Item.set_md5 "900150983cd24fb0d6963f7d28e17f72"
                        (Item.set_status checking (new_item (config u) 0 five_bytes))))))
             :: rest) ∧
  Forall (λ a, is_network_call a = false)
    (actions_of 0 ((step u (CancelUpload 0)).2 ++ (run (step u (CancelUpload 0)).1 later).2)) ∧
  (∃ it2, item_of (run (step u (CancelUpload 0)).1 later).1 0 = Some it2 ∧
          terminal (Item.status it2) = true).
Proof.
  intros evs u later. split; [by vm_compute|].
  apply (cancelUpload_stops_requests u (log_after small_options evs) 0 _
           (step u (CancelUpload 0)).1 (step u (CancelUpload 0)).2 later
           (run (step u (CancelUpload 0)).1 later).1 (run (step u (CancelUpload 0)).1 later).2).
  - apply reachable_after. by vm_compute.
  - vm_compute. apply list_elem_of_here.
  - by vm_compute.
  - right. left. by vm_compute.
  - by destruct (step u (CancelUpload 0)).
  - by destruct (run _ later).
Defined.

(** X11. [cancelUpload] on a file that still waits in the queue takes it
    out of the queue and announces it as cancelled; the file is never
    dispatched: nothing changes it afterwards, and no request is ever sent
    for it. *)
Theorem cancelUpload_pending_never_starts u log id it u1 acts evs u2 acts' :
  reachable u log →
  id ∈ files u →
  item_of u id = Some it →
  Item.status it = pending →
  step u (CancelUpload id) = (u1, acts) →
  run u1 evs = (u2, acts') →
  id ∉ uploadQueue u1 ∧
  item_of u1 id = Some (Item.set_status cancelled it) ∧
  actions_of id acts = [UpdateFileStatus (Item.set_status cancelled it)] ∧
  item_of u2 id = Some (Item.set_status cancelled it) ∧
  pc_of u2 id = Some NotStarted ∧
  actions_of id acts' = [] ∧
  Forall (λ a, is_network_call a = false) (actions_of id (log ++ acts ++ acts')).
Proof.
  unfold item_of at 1. intros Hr Hfiles (t & Hl & ->)%fmap_Some Hst Hstep Hrun.
  destruct (reachable_item _ _ _ _ Hr Hl) as (HG & Hinv & _ & _ & f & es0 & Hreach0).
  destruct (step_cancel u id t u1 acts HG Hfiles Hl Hstep)
    as (t1 & Hlocal & Hl1 & HG1 & Hcfg1 & Hnotin).
  pose proof (inv_pending _ _ Hinv Hst) as Hpc.
  simpl in Hlocal. unfold cancelUpload_item in Hlocal. rewrite Hst in Hlocal.
  injection Hlocal as <- Ha.
  set (t1 := with_item (Item.set_status cancelled (item t)) t) in *.
  assert (TInv (config u1) t1) as Hinv1 by (by eapply (g_tinv _ HG1)).
  destruct (run_history _ _ _ _ _ _ HG1 Hl1 Hrun) as (_ & _ & t2 & es & Hl2 & Hreach & _).
  destruct (cancelled_unstarted_treach _ _ _ _ _ Hinv1 Hpc eq_refl Hreach) as [-> Ha2].
  split; [done|]. split; [unfold item_of; by rewrite Hl1|]. split; [done|].
  split; [unfold item_of; by rewrite Hl2|]. split; [unfold pc_of; by rewrite Hl2, <- Hpc|].
  split; [done|].
  rewrite !actions_of_app, Ha2, <- Ha, app_nil_r. apply Forall_app. split.
  - eapply treach_before_fingerprint; [apply new_task_inv|exact Hreach0|by left].
  - by repeat constructor.
Qed.

(** The fourth of four files is cancelled while it waits; later the first
    file settles and a slot becomes free. *)
Lemma cancelUpload_pending_never_starts_witness :
  let evs := [AddFiles [five_bytes; five_bytes; five_bytes; five_bytes]] in
  let u := state_after sample_options evs in
  let later := [MD5Settled 0 (RejectedWith (Error "Worker error: x"))] in
  uploadQueue u = [3] ∧
  3 ∉ uploadQueue (step u (CancelUpload 3)).1 ∧
  item_of (step u (CancelUpload 3)).1 3
    = Some (Item.set_status cancelled (new_item (config u) 3 five_bytes)) ∧
  actions_of 3 (step u (CancelUpload 3)).2
    = [UpdateFileStatus (Item.set_status cancelled (new_item (config u) 3 five_bytes))] ∧
  item_of (run (step u (CancelUpload 3)).1 later).1 3
    = Some (Item.set_status cancelled (new_item (config u) 3 five_bytes)) ∧
  pc_of (run (step u (CancelUpload 3)).1 later).1 3 = Some NotStarted ∧
  actions_of 3 (run (step u (CancelUpload 3)).1 later).2 = [] ∧
  Forall (λ a, is_network_call a = false)
    (actions_of 3 (log_after sample_options evs ++ (step u (CancelUpload 3)).2
                   ++ (run (step u (CancelUpload 3)).1 later).2)).
Proof.
  intros evs u later. split; [by vm_compute|].
  apply (cancelUpload_pending_never_starts u (log_after sample_options evs) 3
           (new_item (config u) 3 five_bytes)
           (step u (CancelUpload 3)).1 (step u (CancelUpload 3)).2 later
           (run (step u (CancelUpload 3)).1 later).1 (run (step u (CancelUpload 3)).1 later).2).
  - apply reachable_after. by vm_compute.
  - vm_compute. do 3 apply list_elem_of_further. apply list_elem_of_here.
  - by vm_compute.
  - done.
  - by destruct (step u (CancelUpload 3)).
  - by destruct (run _ later).
Defined.


(** * How a file settles *)

(** X12. When the fingerprint cannot be computed, the file becomes [error]
    with the message of the failure, without a single request having been
    sent for it; nothing happens to it afterwards. *)
Theorem fingerprint_failure_is_final u log id e u1 acts evs u2 acts' :
  reachable u log →
  pc_of u id = Some AwaitMD5 →
  isAbortError e = false →
  step u (MD5Settled id (RejectedWith e)) = (u1, acts) →
  run u1 evs = (u2, acts') →
  ∃ it, item_of u1 id = Some it ∧
        Item.status it = error ∧ Item.error it = Some (err_message e) ∧
        actions_of id acts = [UpdateFileStatus it] ∧
        item_of u2 id = Some it ∧
        actions_of id acts' = [] ∧
        Forall (λ a, is_network_call a = false) (actions_of id (log ++ acts ++ acts')).
Proof.
  intros Hr (t & Hl & Hpc)%pc_of_Some Habort Hstep Hrun.
  destruct (reachable_item _ _ _ _ Hr Hl) as (HG & Hinv & _ & _ & f & es & Hreach).
  destruct (step_targets u _ id (LMD5 (RejectedWith e)) t u1 acts HG eq_refl Hl
              ltac:(by rewrite Hpc) Hstep) as (t' & a & Hlocal & Hl1 & Ha & HG1 & Hcfg1).
  simpl in Hlocal. unfold md5_settled, catch_block in Hlocal.
  rewrite Hpc, Habort in Hlocal. injection Hlocal as <- <-.
  set (it := Item.set_error (err_message e) (Item.set_status error (item t))) in *.
  assert (quiet (with_pc Done (with_registered false (with_item it t)))) as Hq.
  { split; [done|]. split; [done|]. split; [done|]. simpl.
    rewrite (inv_early _ _ Hinv) by (rewrite Hpc; auto). constructor. }
  destruct (run_quiet _ _ _ _ _ _ HG1 Hl1 Hq Hrun) as [Hl2 Ha2].
  exists it. split; [unfold item_of; by rewrite Hl1|]. split; [done|]. split; [done|].
  split; [done|]. split; [unfold item_of; by rewrite Hl2|]. split; [done|].
  rewrite !actions_of_app, Ha2, Ha, app_nil_r. apply Forall_app. split.
  - eapply treach_before_fingerprint; [apply new_task_inv|exact Hreach|by right].
  - by repeat constructor.
Qed.

(** The worker cannot load the hashing library. *)
Lemma fingerprint_failure_is_final_witness :
  let u := state_after sample_options [AddFiles [five_bytes]] in
  let ev := MD5Settled 0 (RejectedWith (Error "Worker error: importScripts failed")) in
  pc_of u 0 = Some AwaitMD5 ∧
  ∃ it, item_of (step u ev).1 0 = Some it ∧
        Item.status it = error ∧
        Item.error it = Some "Worker error: importScripts failed" ∧
        actions_of 0 (step u ev).2 = [UpdateFileStatus it] ∧
        item_of (run (step u ev).1 [CancelUpload 0]).1 0 = Some it ∧
        actions_of 0 (run (step u ev).1 [CancelUpload 0]).2 = [] ∧
        Forall (λ a, is_network_call a = false)
          (actions_of 0 (log_after sample_options [AddFiles [five_bytes]] ++ (step u ev).2
                         ++ (run (step u ev).1 [CancelUpload 0]).2)).
Proof.
  intros u ev. split; [by vm_compute|].
  apply (fingerprint_failure_is_final u (log_after sample_options [AddFiles [five_bytes]]) 0
           (Error "Worker error: importScripts failed")
           (step u ev).1 (step u ev).2 [CancelUpload 0]
           (run (step u ev).1 [CancelUpload 0]).1 (run (step u ev).1 [CancelUpload 0]).2).
  - apply reachable_after. by vm_compute.
  - by vm_compute.
  - done.
  - apply surjective_pairing.
  - apply surjective_pairing.
Defined.

(** X13. When the check request fails, by an answer whose HTTP status is
    not ok or by an error of the request itself, the file becomes [error]
    with the message of that failure; the check is not repeated, no chunk
    and no merge request is ever sent, and nothing happens to the file
    afterwards. *)
Theorem check_failure_is_final u log id (r : Settled (Response CheckResult.t)) e
    u1 acts evs u2 acts' :
  reachable u log →
  pc_of u id = Some AwaitCheck →
  Retry.failure r = Some e → isAbortError e = false →
  step u (CheckSettled id r) = (u1, acts) →
  run u1 evs = (u2, acts') →
  ∃ it, item_of u1 id = Some it ∧
        Item.status it = error ∧ Item.error it = Some (err_message e) ∧
        actions_of id acts = [UpdateFileStatus it] ∧
        item_of u2 id = Some it ∧
        actions_of id acts' = [] ∧
        Forall (λ a, is_chunk_call a = false ∧ is_merge_call a = false)
               (actions_of id (log ++ acts ++ acts')).
Proof.
  intros Hr (t & Hl & Hpc)%pc_of_Some Hfail Habort Hstep Hrun.
  destruct (reachable_item _ _ _ _ Hr Hl) as (HG & Hinv & _ & _ & f & es & Hreach).
  destruct (step_targets u _ id (LCheck r) t u1 acts HG eq_refl Hl
              ltac:(by rewrite Hpc) Hstep) as (t' & a & Hlocal & Hl1 & Ha & HG1 & Hcfg1).
  assert (local_step (config u) (LCheck r) t = catch_block e t) as Hcatch.
  { simpl. unfold check_settled. rewrite Hpc. destruct r as [response|e']; simpl in Hfail.
    - destruct (resp_ok response); [done|]. by simplify_eq.
    - by simplify_eq. }
  rewrite Hcatch in Hlocal. unfold catch_block in Hlocal. rewrite Habort in Hlocal.
  injection Hlocal as <- <-.
  set (it := Item.set_error (err_message e) (Item.set_status error (item t))) in *.
  assert (quiet (with_pc Done (with_registered false (with_item it t)))) as Hq.
  { split; [done|]. split; [done|]. split; [done|]. simpl.
    rewrite (inv_early _ _ Hinv) by (rewrite Hpc; auto). constructor. }
  destruct (run_quiet _ _ _ _ _ _ HG1 Hl1 Hq Hrun) as [Hl2 Ha2].
  exists it. split; [unfold item_of; by rewrite Hl1|]. split; [done|]. split; [done|].
  split; [done|]. split; [unfold item_of; by rewrite Hl2|]. split; [done|].
  rewrite !actions_of_app, Ha2, Ha, app_nil_r. apply Forall_app. split.
  - eapply treach_early; [apply new_task_inv|exact Hreach|by rewrite Hpc].
  - by repeat constructor.
Qed.

(** The check endpoint answers 500. *)
Lemma check_failure_is_final_witness :
  let u := state_after sample_options checking_events in
  let ev := CheckSettled 0 (Fulfilled (mkResponse false 500 (CheckResult.mk false None []))) in
  pc_of u 0 = Some AwaitCheck ∧
  ∃ it, item_of (step u ev).1 0 = Some it ∧
        Item.status it = error ∧
        Item.error it = Some (err_message (http_error 500)) ∧
        actions_of 0 (step u ev).2 = [UpdateFileStatus it] ∧
        item_of (run (step u ev).1 [CheckSettled 0 (check_answer true [])]).1 0 = Some it ∧
        actions_of 0 (run (step u ev).1 [CheckSettled 0 (check_answer true [])]).2 = [] ∧
        Forall (λ a, is_chunk_call a = false ∧ is_merge_call a = false)
          (actions_of 0 (log_after sample_options checking_events ++ (step u ev).2
                         ++ (run (step u ev).1 [CheckSettled 0 (check_answer true [])]).2)).
Proof.
  intros u ev. split; [by vm_compute|].
  apply (check_failure_is_final u (log_after sample_options checking_events) 0
           (Fulfilled (mkResponse false 500 (CheckResult.mk false None []))) (http_error 500)
           (step u ev).1 (step u ev).2 [CheckSettled 0 (check_answer true [])]
           (run (step u ev).1 [CheckSettled 0 (check_answer true [])]).1
           (run (step u ev).1 [CheckSettled 0 (check_answer true [])]).2).
  - apply reachable_after. by vm_compute.
  - by vm_compute.
  - done.
  - done.
  - apply surjective_pairing.
  - apply surjective_pairing.
Defined.

(** X14. When the merge request is answered with an ok HTTP status, the
    file becomes [success] with progress 100, whatever the body says; it is
    announced once and nothing happens to it afterwards. *)
Theorem merge_answer_ok_is_success u log id response u1 acts evs u2 acts' :
  reachable u log →
  pc_of u id = Some AwaitMerge →
  resp_ok response = true →
  step u (MergeSettled id (Fulfilled response)) = (u1, acts) →
  run u1 evs = (u2, acts') →
  ∃ it it', item_of u id = Some it ∧ item_of u1 id = Some it' ∧
        it' = Item.set_progress 100 (Item.set_status success it) ∧
        actions_of id acts = [UpdateFileStatus it'] ∧
        item_of u2 id = Some it' ∧
        actions_of id acts' = [].
Proof.
  intros Hr (t & Hl & Hpc)%pc_of_Some Hok Hstep Hrun.
  destruct (reachable_item _ _ _ _ Hr Hl) as (HG & Hinv & _).
  destruct (step_targets u _ id (LMerge (Fulfilled response)) t u1 acts HG eq_refl Hl
              ltac:(by rewrite Hpc) Hstep) as (t' & a & Hlocal & Hl1 & Ha & HG1 & Hcfg1).
  simpl in Hlocal. unfold merge_settled, finish_success in Hlocal.
  rewrite Hpc, Hok in Hlocal. simpl in Hlocal. injection Hlocal as <- <-.
  set (it' := Item.set_progress 100 (Item.set_status success (item t))) in *.
  assert (quiet (with_pc Done (with_registered false (with_item it' t)))) as Hq.
  { eapply inv_success; [by eapply (g_tinv _ HG1)|done]. }
  destruct (run_quiet _ _ _ _ _ _ HG1 Hl1 Hq Hrun) as [Hl2 Ha2].
  exists (item t), it'. split; [unfold item_of; by rewrite Hl|].
  split; [unfold item_of; by rewrite Hl1|]. split; [done|]. split; [done|].
  split; [unfold item_of; by rewrite Hl2|done].
Qed.

(** The resume scenario to its end. *)
Lemma merge_answer_ok_is_success_witness :
  let u := state_after sample_options merging_events in
  let ev := MergeSettled 0 (merge_answer true 200 true) in
  pc_of u 0 = Some AwaitMerge ∧
  ∃ it it', item_of u 0 = Some it ∧ item_of (step u ev).1 0 = Some it' ∧
        it' = Item.set_progress 100 (Item.set_status success it) ∧
        actions_of 0 (step u ev).2 = [UpdateFileStatus it'] ∧
        item_of (run (step u ev).1 [CancelUpload 0]).1 0 = Some it' ∧
        actions_of 0 (run (step u ev).1 [CancelUpload 0]).2 = [].
Proof.
  intros u ev. split; [by vm_compute|].
  apply (merge_answer_ok_is_success u (log_after sample_options merging_events) 0
           (mkResponse true 200 (MergeResult.mk true None))
           (step u ev).1 (step u ev).2 [CancelUpload 0]
           (run (step u ev).1 [CancelUpload 0]).1 (run (step u ev).1 [CancelUpload 0]).2).
  - apply reachable_after. by vm_compute.
  - by vm_compute.
  - done.
  - apply surjective_pairing.
  - apply surjective_pairing.
Defined.


(** * Progress and success *)

Section Progress.
Variable cfg : Config.

Lemma same_progress_refl it : same_progress it it.
Proof. by repeat split. Qed.

Lemma same_progress_trans a b c : same_progress a b → same_progress b c → same_progress a c.
Proof. unfold same_progress. intros (?&?&?&?) (?&?&?&?). repeat split; try congruence; auto. Qed.

Lemma after_workers_same_progress t :
  same_progress (item t) (item (after_workers t).1).
Proof. unfold same_progress. unfold_blocks. break; by repeat split. Qed.

(** A worker's event either leaves the item alone or records one more
    chunk and recomputes [progress]. *)

Lemma chunk_settled_item w r t :
  item (chunk_settled cfg w r t).1 = item t ∨
  ∃ c, item (chunk_settled cfg w r t).1
       = Item.set_progress
           (percent (length (Item.uploadedChunks (item t) ++ [c])) (Item.totalChunks (item t)))
           (Item.set_uploadedChunks (Item.uploadedChunks (item t) ++ [c]) (item t)).
Proof. unfold_blocks. break; (by left) || (right; by eexists). Qed.

Lemma timer_fired_item w t : item (timer_fired cfg w t).1 = item t.
Proof. unfold_blocks. by break. Qed.

Lemma abort_reactions_same_progress t :
  same_progress (item t) (item (abort_reactions cfg t).1).
Proof.
  unfold abort_reactions. destruct (pc t); try apply same_progress_refl;
    try (unfold catch_block; simpl; by repeat split).
  unfold then_after_workers. cbv beta. rewrite abort_fold_spec.
  match goal with |- context [after_workers ?x] =>
    pose proof (after_workers_same_progress x) as H; destruct (after_workers x) end.
  done.
Qed.

Lemma before_upload_rank p p' :
  pc_rank p ≤ pc_rank p' → before_upload p' = true → before_upload p = true.
Proof. destruct p, p'; simpl; done || lia. Qed.

(** A step that leaves the chunk accounting alone keeps [progress_ok]. *)
Lemma progress_ok_same t t' :
  Item.status (item t) ≠ success →
  pc_rank (pc t) ≤ pc_rank (pc t') →
  same_progress (item t) (item t') →
  progress_ok t → progress_ok t'.
Proof.
  intros Hns Hrank (Hp & Hu & Htot & Hs) (H1 & H2 & H3).
  split; [|split].
  - intros Hb. rewrite Hp. apply H1. by eapply before_upload_rank.
  - intros Hs'. by apply Hs in Hs'.
  - intros _. rewrite Hp, Hu, Htot. by apply H3.
Qed.

(** A step that ends in success through [finish_success]. *)
Lemma progress_ok_success t :
  progress_ok (with_pc Done (with_registered false
     (with_item (Item.set_progress 100 (Item.set_status success (item t))) t))).
Proof. split; [done|]. split; [done|]. by intros []. Qed.

Lemma local_step_progress_ok e t t' a :
  TInv cfg t → enabled e t → progress_ok t →
  local_step cfg e t = (t', a) → progress_ok t'.
Proof.
  intros Hinv Hen Hok Hstep.
  destruct (decide (Item.status (item t) = success)) as [Hs|Hns].
  { rewrite (quiet_noop cfg e t (inv_success _ _ Hinv Hs) Hen) in Hstep. by simplify_eq. }
  pose proof (local_step_rank cfg e t t' a Hen Hstep) as Hrank.
  destruct e as [| | |r|r|w r|w|r]; simpl in Hstep.
  - unfold processFile_start in Hstep. simplify_eq.
    apply (progress_ok_same t); [done|done| |done]. by repeat split.
  - apply (progress_ok_same t); [done|done| |done].
    revert Hstep. unfold cancelUpload_item.
    destruct (Item.status (item t)) eqn:Hst; try (intros [= <- <-]; by repeat split).
    all: destruct (registered t); [|intros [= <- <-]; by repeat split].
    all: match goal with |- context [abort_reactions cfg ?x] =>
           pose proof (abort_reactions_same_progress x) as Hx;
           destruct (abort_reactions cfg x) as [t1 a1] end.
    all: intros [= <- <-]; simpl in Hx.
    all: destruct Hx as (?&?&?&Hsx); repeat split; try done.
    all: intros Hs'; by apply Hsx in Hs'.
  - apply (progress_ok_same t); [done|done| |done].
    revert Hstep. unfold destroy_item.
    destruct (registered t); [|intros [= <- <-]; by repeat split].
    match goal with |- context [abort_reactions cfg ?x] =>
      pose proof (abort_reactions_same_progress x) as Hx;
      destruct (abort_reactions cfg x) as [t1 a1] end.
    by intros [= <- <-].
  - apply (progress_ok_same t); [done|done| |done].
    revert Hstep. unfold same_progress. unfold_blocks. intros. break; by repeat split.
  - revert Hstep Hrank. unfold check_settled.
    destruct (pc t) eqn:Hpc; try (intros [= <- <-]; by rewrite ?Hpc).
    assert (Item.progress (item t) = 0%Z) as Hzero by (apply Hok; by rewrite Hpc).
    assert (∀ e, progress_ok (catch_block e t).1) as Hcatch.
    { intros e. apply (progress_ok_same t); [done|rewrite Hpc; simpl; lia| |done].
      unfold catch_block. destruct (isAbortError e); simpl; by repeat split. }
    destruct r as [response|e]; [|intros H _; specialize (Hcatch e); by rewrite H in Hcatch].
    destruct (negb (resp_ok response)).
    { intros H _. specialize (Hcatch (http_error (resp_status response))).
      by rewrite H in Hcatch. }
    destruct (CheckResult.exists_ _).
    { unfold finish_success. intros [= <- <-] _. apply progress_ok_success. }
    assert (∀ t2, Item.progress (item t2) = 0%Z → Item.status (item t2) ≠ success →
                  progress_ok t2) as Hfresh.
    { intros t2 Hp Hs. split; [done|]. split; [done|]. by left. }
    destruct (filter _ _) as [|c0 chunks].
    { unfold_blocks. intros. break; by apply Hfresh. }
    unfold uploadChunksWithConcurrency.
    destruct (spawn_workers _ _) as [t1 a1] eqn:Hspawn.
    apply spawn_workers_spec in Hspawn as (Hitem & _).
    pose proof (after_workers_same_progress (with_pc AwaitWorkers t1)) as (Hp & _ & _ & Hs).
    destruct (after_workers _) as [t2 b]. intros [= <- <-] _. simpl in *.
    rewrite Hitem in *. simpl in *. apply Hfresh; [congruence|].
    intros Hs'. by apply Hs in Hs'.
  - revert Hstep. unfold then_after_workers.
    destruct (chunk_settled cfg w r t) as [t1 a1] eqn:Hcs.
    pose proof (chunk_settled_item w r t) as Hitem. rewrite Hcs in Hitem. simpl in Hitem.
    pose proof (after_workers_same_progress t1) as Hsame.
    destruct (after_workers t1) as [t2 b]. intros [= <- <-]. simpl in Hsame.
    destruct (chunk_settled_spec cfg w r t t1 a1 Hcs) as [[-> _]|Hev].
    { by apply (progress_ok_same t). }
    destruct Hev as (c0 & p & x & Hlw & _ & Hpc1 & _ & _ & _ & _ & _ & Hst1 & _).
    destruct Hitem as [Hitem|[c Hitem]].
    { apply (progress_ok_same t); [done|done| |done]. by rewrite <- Hitem. }
    assert (before_upload (pc t) = false) as Hlate.
    { destruct (before_upload (pc t)) eqn:Hb; [|done].
      rewrite (inv_early _ _ Hinv) in Hlw; [done|]. destruct (pc t); auto; done. }
    destruct Hsame as (Hp & Hu & Htot & Hs).
    split; [|split].
    + intros Hb. apply (before_upload_rank _ _ Hrank) in Hb. congruence.
    + intros Hs'. apply Hs in Hs'. congruence.
    + intros _. right. rewrite Hp, Hu, Htot, Hitem. done.
  - revert Hstep. unfold then_after_workers.
    destruct (timer_fired cfg w t) as [t1 a1] eqn:Hcs.
    pose proof (timer_fired_item w t) as Hitem. rewrite Hcs in Hitem. simpl in Hitem.
    pose proof (after_workers_same_progress t1) as Hsame.
    destruct (after_workers t1) as [t2 b]. intros [= <- <-]. simpl in Hsame.
    apply (progress_ok_same t); [done|done| |done]. by rewrite <- Hitem.
  - revert Hstep Hrank. unfold merge_settled.
    destruct (pc t) eqn:Hpc; try (intros [= <- <-]; by rewrite ?Hpc).
    assert (∀ e, progress_ok (catch_block e t).1) as Hcatch.
    { intros e. apply (progress_ok_same t); [done|rewrite Hpc; simpl; lia| |done].
      unfold catch_block. destruct (isAbortError e); simpl; by repeat split. }
    destruct r as [response|e]; [|intros H _; specialize (Hcatch e); by rewrite H in Hcatch].
    destruct (negb (resp_ok response)).
    { intros H _. specialize (Hcatch (http_error (resp_status response))).
      by rewrite H in Hcatch. }
    unfold finish_success. intros [= <- <-] _. apply progress_ok_success.
Qed.

Lemma treach_progress_ok t0 es acts t :
  TInv cfg t0 → progress_ok t0 → treach cfg t0 es acts t → progress_ok t.
Proof.
  intros Hinv0 H0 Hreach.
  induction Hreach as [|es acts t e a t' Hreach IH Hen Hstep]; [done|].
  eapply local_step_progress_ok; [|done|done|done]. by eapply treach_inv.
Qed.
End Progress.

(** The percentage is rounded as the source rounds it, from the double:
    23 of 40 chunks make 57, the product [23 / 40 * 100] being
    [57.49999999999999], and one of eight makes 13. *)
Lemma percent_rounds_the_double :
  percent 23 40 = 57%Z ∧ percent 1 8 = 13%Z ∧ percent 2 3 = 67%Z ∧
  percent 1 5 = 20%Z ∧ percent 40 40 = 100%Z.
Proof. by vm_compute. Qed.

(** X15. What [progress] is, in every state the uploader can reach: 100
    if the file succeeded; otherwise either 0 or the rounded percentage of
    the uploaded chunks,
    [Math.round(uploadedChunks.length / totalChunks * 100)] as JavaScript
    computes it in doubles; and 0 as long as the check has not been
    answered. *)
Theorem progress_values u log id t :
  reachable u log →
  heap u !! id = Some t →
  (before_upload (pc t) = true → Item.progress (item t) = 0%Z) ∧
  (Item.status (item t) = success → Item.progress (item t) = 100%Z) ∧
  (Item.status (item t) ≠ success →
   Item.progress (item t) = 0%Z ∨
   Item.progress (item t)
   = percent (length (Item.uploadedChunks (item t))) (Item.totalChunks (item t))).
Proof.
  intros Hr Hl. destruct (reachable_item _ _ _ _ Hr Hl) as (_ & _ & _ & _ & f & es & Hreach).
  apply (treach_progress_ok _ _ _ _ _ (new_task_inv _ _ _)) in Hreach; [done|].
  split; [done|]. split; [done|]. by left.
Qed.

(** A file of 40 chunks of which the server has 22; the upload of one more
    is announced with progress 57. *)
Lemma progress_values_witness :
  let u := state_after small_options
             [AddFiles [mkFile "b.bin" (replicate 40 Byte.x00)];
              MD5Settled 0 (Fulfilled "fd4b38e94292e00251b9f39c47ee5710");
              CheckSettled 0 (check_answer false (seq 0 22));
              ChunkSettled 0 0 chunk_ok] in
  ∃ t, heap u !! 0 = Some t ∧
    Item.progress (item t) = 57%Z ∧ Item.uploadedChunks (item t) = seq 0 23 ∧
    Item.totalChunks (item t) = 40 ∧
    (before_upload (pc t) = true → Item.progress (item t) = 0%Z) ∧
    (Item.status (item t) = success → Item.progress (item t) = 100%Z) ∧
    (Item.status (item t) ≠ success →
     Item.progress (item t) = 0%Z ∨
     Item.progress (item t)
     = percent (length (Item.uploadedChunks (item t))) (Item.totalChunks (item t))).
Proof.
  intros u. eexists. split; [by vm_compute|]. split; [by vm_compute|]. split; [by vm_compute|].
  split; [by vm_compute|].
  eapply (progress_values u (log_after small_options _) 0).
  - apply reachable_after. by vm_compute.
  - by vm_compute.
Defined.

Section Success.
Variable cfg : Config.

(** The only steps that make a file succeed. *)
Lemma local_step_success e t t' a :
  local_step cfg e t = (t', a) →
  Item.status (item t) ≠ success → Item.status (item t') = success →
  (pc t = AwaitCheck ∧ ∃ response, e = LCheck (Fulfilled response) ∧
     resp_ok response = true ∧ CheckResult.exists_ (resp_json response) = true) ∨
  (pc t = AwaitMerge ∧ ∃ response, e = LMerge (Fulfilled response) ∧
     resp_ok response = true).
Proof.
  intros Hstep Hns Hs.
  assert (∀ it', same_progress (item t) it' → Item.status it' = success → False) as Hsame.
  { intros it' (_ & _ & _ & H) Hs'. by apply Hns, H. }
  destruct e as [| | |r|r|w r|w|r]; simpl in Hstep.
  - unfold processFile_start in Hstep. by simplify_eq.
  - exfalso. revert Hstep. unfold cancelUpload_item.
    destruct (Item.status (item t)) eqn:Hst; try (intros [= <- <-]; simpl in *; congruence).
    all: destruct (registered t); [|intros [= <- <-]; simpl in *; congruence].
    all: match goal with |- context [abort_reactions cfg ?x] =>
           pose proof (abort_reactions_same_progress cfg x) as (_ & _ & _ & Hx);
           destruct (abort_reactions cfg x) as [t1 a1] end.
    all: intros [= <- <-]; simpl in Hx; by apply Hx in Hs.
  - exfalso. revert Hstep. unfold destroy_item.
    destruct (registered t); [|intros [= <- <-]; congruence].
    match goal with |- context [abort_reactions cfg ?x] =>
      pose proof (abort_reactions_same_progress cfg x) as Hx;
      destruct (abort_reactions cfg x) as [t1 a1] end.
    intros [= <- <-]. by eapply Hsame.
  - exfalso. revert Hstep Hs. unfold_blocks. intros. by break.
  - left. revert Hstep. unfold check_settled.
    destruct (pc t) eqn:Hpc; try (intros [= <- <-]; congruence).
    intros Hstep. split; [done|]. revert Hstep.
    destruct r as [response|e];
      [|unfold catch_block; intros [= <- <-]; exfalso; revert Hs; simpl;
        by destruct (isAbortError e)].
    destruct (resp_ok response) eqn:Hok; simpl.
    2:{ unfold catch_block; intros [= <- <-]; exfalso; revert Hs; simpl.
        by repeat case_match. }
    destruct (CheckResult.exists_ _) eqn:Hex; [intros _; by exists response|].
    intros Hstep. exfalso. revert Hstep.
    destruct (filter _ _) as [|c0 chunks].
    { revert Hs. unfold_blocks. intros. by break. }
    unfold uploadChunksWithConcurrency.
    destruct (spawn_workers _ _) as [t1 a1] eqn:Hspawn.
    apply spawn_workers_spec in Hspawn as (Hitem & _).
    pose proof (after_workers_same_progress (with_pc AwaitWorkers t1)) as (_ & _ & _ & Hx).
    destruct (after_workers _) as [t2 b]. intros [= <- <-]. simpl in *.
    apply Hx in Hs. rewrite Hitem in Hs. simpl in Hs. done.
  - exfalso. revert Hstep. unfold then_after_workers.
    destruct (chunk_settled cfg w r t) as [t1 a1] eqn:Hcs.
    pose proof (chunk_settled_item cfg w r t) as Hitem. rewrite Hcs in Hitem. simpl in Hitem.
    pose proof (after_workers_same_progress t1) as (_ & _ & _ & Hx).
    destruct (after_workers t1) as [t2 b]. intros [= <- <-]. simpl in Hx.
    apply Hx in Hs. destruct Hitem as [Hitem|[c Hitem]]; rewrite Hitem in Hs; done.
  - exfalso. revert Hstep. unfold then_after_workers.
    destruct (timer_fired cfg w t) as [t1 a1] eqn:Hcs.
    pose proof (timer_fired_item cfg w t) as Hitem. rewrite Hcs in Hitem. simpl in Hitem.
    pose proof (after_workers_same_progress t1) as (_ & _ & _ & Hx).
    destruct (after_workers t1) as [t2 b]. intros [= <- <-]. simpl in Hx.
    apply Hx in Hs. by rewrite Hitem in Hs.
  - right. revert Hstep. unfold merge_settled.
    destruct (pc t) eqn:Hpc; try (intros [= <- <-]; congruence).
    intros Hstep. split; [done|]. revert Hstep.
    destruct r as [response|e];
      [|unfold catch_block; intros [= <- <-]; exfalso; revert Hs; simpl;
        by destruct (isAbortError e)].
    destruct (resp_ok response) eqn:Hok; simpl; [intros _; by exists response|].
    unfold catch_block; intros [= <- <-]; exfalso; revert Hs; simpl.
    by repeat case_match.
Qed.
End Success.

(** X16. A file becomes [success] in two ways only: its check request is
    answered with an ok status and [exists = true], or its merge request is
    answered with an ok status.  No other step of the uploader, and no
    answer for another file, makes a file succeed. *)
Theorem success_needs_an_answer u log ev u' acts id it it' :
  reachable u log →
  step u ev = (u', acts) →
  item_of u id = Some it → item_of u' id = Some it' →
  Item.status it ≠ success → Item.status it' = success →
  (pc_of u id = Some AwaitCheck ∧
   ∃ response, ev = CheckSettled id (Fulfilled response) ∧
     resp_ok response = true ∧ CheckResult.exists_ (resp_json response) = true) ∨
  (pc_of u id = Some AwaitMerge ∧
   ∃ response, ev = MergeSettled id (Fulfilled response) ∧ resp_ok response = true).
Proof.
  unfold item_of. intros Hr Hstep (t & Hl & ->)%fmap_Some (t' & Hl' & ->)%fmap_Some Hns Hs.
  destruct (reachable_inv u log Hr) as [HG _].
  destruct (step_local u ev u' acts HG Hstep) as (_ & _ & Hmoved).
  specialize (Hmoved id). rewrite Hl in Hmoved. simpl in Hmoved.
  destruct Hmoved as (t1 & Hl1 & [[-> _]|(e & _ & Hfrom & Hlocal)]).
  { rewrite Hl' in Hl1. simplify_eq. }
  rewrite Hl' in Hl1. simplify_eq.
  destruct (local_step_success _ _ _ _ _ Hlocal Hns Hs)
    as [(Hpc & response & -> & Hok & Hex)|(Hpc & response & -> & Hok)].
  - left. simpl in Hfrom. subst ev. split; [unfold pc_of; by rewrite Hl; simpl; f_equal|].
    by exists response.
  - right. simpl in Hfrom. subst ev. split; [unfold pc_of; by rewrite Hl; simpl; f_equal|].
    by exists response.
Qed.

(** The merge answer of the resume scenario. *)
Lemma success_needs_an_answer_witness :
  let u := state_after sample_options merging_events in
  let ev := MergeSettled 0 (merge_answer true 200 true) in
  (Item.status <$> item_of u 0) = Some merging ∧
  (Item.status <$> item_of (step u ev).1 0) = Some success ∧
  ((pc_of u 0 = Some AwaitCheck ∧
    ∃ response, ev = CheckSettled 0 (Fulfilled response) ∧
      resp_ok response = true ∧ CheckResult.exists_ (resp_json response) = true) ∨
   (pc_of u 0 = Some AwaitMerge ∧
    ∃ response, ev = MergeSettled 0 (Fulfilled response) ∧ resp_ok response = true)).
Proof.
  intros u ev. split; [by vm_compute|]. split; [by vm_compute|].
  eapply (success_needs_an_answer u (log_after sample_options merging_events) ev
            (step u ev).1 (step u ev).2 0).
  - apply reachable_after. by vm_compute.
  - apply surjective_pairing.
  - by vm_compute.
  - by vm_compute.
  - by vm_compute.
  - by vm_compute.
Defined.


(** * Chunk requests *)

Section Requests.
Variable cfg : Config.

Lemma after_workers_requests t :
  workers (after_workers t).1 = workers t ∧
  chunksToUpload (after_workers t).1 = chunksToUpload t ∧
  Item.totalChunks (item (after_workers t).1) = Item.totalChunks (item t) ∧
  Forall (chunk_call_ok cfg (Item.totalChunks (item t))) (after_workers t).2.
Proof. unfold_blocks. break; repeat split; by repeat constructor. Qed.

(** What a worker leaves behind when a segment of [uploadWithRetry] ends
    inside [uploadChunk(c)]. *)
Lemma suspend_worker_ok id c chunks total s :
  c ∈ chunks → c < total →
  (∀ i, s = Retry.Suspended (Retry.AwaitFn i) → i ≤ maxRetries cfg) →
  (∀ i e, s = Retry.Suspended (Retry.AwaitTimer i e) → i < maxRetries cfg) →
  worker_ok cfg chunks (suspend_worker id c s).1 ∧
  Forall (chunk_call_ok cfg total) (suspend_worker id c s).2.
Proof.
  intros Hc Hlt Hfn Htimer. destruct s as [[i|i e]|r|e]; simpl.
  - specialize (Hfn i eq_refl). split; [by split|].
    constructor; [by split|constructor].
  - specialize (Htimer i e eq_refl). split; [by split|].
    constructor; [apply backoff_range|constructor].
  - by split.
  - by split.
Qed.

Lemma worker_loop_ok t t1 x a :
  requests_ok cfg t → worker_loop t = (t1, x, a) →
  worker_ok cfg (chunksToUpload t) x ∧
  workers t1 = workers t ∧ chunksToUpload t1 = chunksToUpload t ∧ item t1 = item t ∧
  Forall (chunk_call_ok cfg (Item.totalChunks (item t))) a.
Proof.
  intros [_ Hchunks]. unfold worker_loop.
  destruct (chunksToUpload t !! index t) as [c|] eqn:Hl; [|by intros [= <- <- <-]].
  destruct (aborted t) eqn:Hab; [by intros [= <- <- <-]|].
  unfold uploadChunk_start. simpl. rewrite Hab. unfold Retry.start, Retry.iteration.
  simpl. intros [= <- <- <-]. simpl.
  assert (c ∈ chunksToUpload t) as Hin by (by eapply list_elem_of_lookup_2).
  rewrite Forall_forall in Hchunks. specialize (Hchunks c Hin).
  split; [split; [lia|done]|]. repeat split. repeat constructor; [lia|done].
Qed.

Lemma worker_resume_ok w c s t :
  requests_ok cfg t → c ∈ chunksToUpload t →
  (∀ i, s = Retry.Suspended (Retry.AwaitFn i) → i ≤ maxRetries cfg) →
  (∀ i e, s = Retry.Suspended (Retry.AwaitTimer i e) → i < maxRetries cfg) →
  requests_ok cfg (worker_resume w c s t).1 ∧
  Item.totalChunks (item (worker_resume w c s t).1) = Item.totalChunks (item t) ∧
  Forall (chunk_call_ok cfg (Item.totalChunks (item t))) (worker_resume w c s t).2.
Proof.
  intros Hok Hc Hfn Htimer. pose proof Hok as [Hws Hchunks].
  assert (c < Item.totalChunks (item t)) as Hlt.
  { rewrite Forall_forall in Hchunks. by apply Hchunks. }
  unfold worker_resume.
  assert (∀ x a, worker_ok cfg (chunksToUpload t) x →
            Forall (chunk_call_ok cfg (Item.totalChunks (item t))) a →
            requests_ok cfg (set_worker w x t) ∧
            Item.totalChunks (item (set_worker w x t)) = Item.totalChunks (item t) ∧
            Forall (chunk_call_ok cfg (Item.totalChunks (item t))) a) as Hset.
  { intros x a Hx Ha. split; [|by split]. split; [|done]. simpl.
    by apply Forall_insert. }
  destruct s as [[i|i e]|r|e].
  - destruct (suspend_worker_ok (Item.id (item t)) c _ _ _ Hc Hlt Hfn Htimer) as [Hx Ha].
    destruct (suspend_worker _ _ _) as [x a]. by apply Hset.
  - destruct (suspend_worker_ok (Item.id (item t)) c _ _ _ Hc Hlt Hfn Htimer) as [Hx Ha].
    destruct (suspend_worker _ _ _) as [x a]. by apply Hset.
  - match goal with |- context [worker_loop ?x] =>
      pose proof (worker_loop_ok x) as Hloop; destruct (worker_loop x) as [[t1 x1] a1] end.
    destruct (Hloop t1 x1 a1) as (Hx & Hw1 & Hc1 & Hi1 & Ha1); [by split|done|].
    simpl in *. split; [|split].
    + split; simpl; rewrite ?Hw1, ?Hc1, ?Hi1; simpl; [by apply Forall_insert|done].
    + by rewrite Hi1.
    + by constructor.
  - destruct (suspend_worker_ok (Item.id (item t)) c _ _ _ Hc Hlt Hfn Htimer) as [Hx Ha].
    destruct (suspend_worker _ _ _) as [x a]. by apply Hset.
Qed.

Lemma requests_noop t :
  requests_ok cfg t →
  requests_ok cfg t ∧ Item.totalChunks (item t) = Item.totalChunks (item t) ∧
  Forall (chunk_call_ok cfg (Item.totalChunks (item t))) [].
Proof. intros. split; [done|]. split; [done|constructor]. Qed.

Lemma catch_block_ok e t :
  requests_ok cfg t →
  requests_ok cfg (catch_block e t).1 ∧
  Item.totalChunks (item (catch_block e t).1) = Item.totalChunks (item t) ∧
  Forall (chunk_call_ok cfg (Item.totalChunks (item t))) (catch_block e t).2.
Proof.
  intros [H1 H2]. unfold catch_block. simpl.
  split; [split; simpl; [done|by destruct (isAbortError e)]|].
  split; [by destruct (isAbortError e)|]. by repeat constructor.
Qed.

Lemma chunk_settled_ok w r t :
  requests_ok cfg t →
  requests_ok cfg (chunk_settled cfg w r t).1 ∧
  Item.totalChunks (item (chunk_settled cfg w r t).1) = Item.totalChunks (item t) ∧
  Forall (chunk_call_ok cfg (Item.totalChunks (item t))) (chunk_settled cfg w r t).2.
Proof.
  intros Hok. unfold chunk_settled.
  destruct (workers t !! w) as [[c [i|i e]| |e]|] eqn:Hl; try (by apply requests_noop).
  destruct Hok as [Hws Hchunks].
  pose proof (Forall_lookup_1 _ _ _ _ Hws Hl) as [Hi Hc]. simpl in Hi, Hc.
  apply worker_resume_ok; [by split|done|..].
  - intros j. unfold Retry.fn_settled, Retry.catch_attempt, Retry.for_next, Retry.iteration.
    intros Hs. repeat case_match; simplify_eq; by apply Nat.leb_le.
  - intros j e. unfold Retry.fn_settled, Retry.catch_attempt, Retry.for_next, Retry.iteration.
    intros Hs. repeat case_match; simplify_eq; by apply Nat.ltb_lt.
Qed.

Lemma timer_fired_ok w t :
  requests_ok cfg t →
  requests_ok cfg (timer_fired cfg w t).1 ∧
  Item.totalChunks (item (timer_fired cfg w t).1) = Item.totalChunks (item t) ∧
  Forall (chunk_call_ok cfg (Item.totalChunks (item t))) (timer_fired cfg w t).2.
Proof.
  intros Hok. unfold timer_fired.
  destruct (workers t !! w) as [[c [i|i e]| |e]|] eqn:Hl; try (by apply requests_noop).
  destruct Hok as [Hws Hchunks].
  pose proof (Forall_lookup_1 _ _ _ _ Hws Hl) as [Hi Hc]. simpl in Hi, Hc.
  apply worker_resume_ok; [by split|done|..].
  - intros j. unfold Retry.timer_fired, Retry.for_next, Retry.iteration.
    intros Hs. repeat case_match; simplify_eq; by apply Nat.leb_le.
  - intros j e'. unfold Retry.timer_fired, Retry.for_next, Retry.iteration.
    intros Hs. repeat case_match; simplify_eq.
Qed.

Lemma then_after_workers_ok f t :
  requests_ok cfg (f t).1 ∧
  Item.totalChunks (item (f t).1) = Item.totalChunks (item t) ∧
  Forall (chunk_call_ok cfg (Item.totalChunks (item t))) (f t).2 →
  requests_ok cfg (then_after_workers f t).1 ∧
  Item.totalChunks (item (then_after_workers f t).1) = Item.totalChunks (item t) ∧
  Forall (chunk_call_ok cfg (Item.totalChunks (item t))) (then_after_workers f t).2.
Proof.
  unfold then_after_workers. destruct (f t) as [t1 a1]. simpl.
  intros ([Hws Hchunks] & Htot & Ha).
  pose proof (after_workers_requests t1) as (Hw2 & Hc2 & Ht2 & Ha2).
  destruct (after_workers t1) as [t2 b]. simpl in *.
  split; [|split].
  - split; rewrite ?Hw2, ?Hc2, ?Ht2; done.
  - congruence.
  - apply Forall_app. split; [done|]. by rewrite <- Htot.
Qed.

Lemma spawn_workers_ok n : ∀ t,
  requests_ok cfg t →
  requests_ok cfg (spawn_workers n t).1 ∧
  Forall (chunk_call_ok cfg (Item.totalChunks (item t))) (spawn_workers n t).2.
Proof.
  induction n as [|n IH]; intros t Hok; simpl; [by split|].
  destruct (worker_loop t) as [[t1 x] a] eqn:Hw.
  destruct (worker_loop_ok t t1 x a Hok Hw) as (Hx & Hw1 & Hc1 & Hi1 & Ha).
  assert (requests_ok cfg (with_workers (workers t1 ++ [x]) t1)) as Hok1.
  { destruct Hok as [Hws Hchunks]. split; simpl; rewrite ?Hw1, ?Hc1, ?Hi1; [|done].
    apply Forall_app. split; [done|]. by constructor. }
  specialize (IH _ Hok1). destruct (spawn_workers n _) as [t2 b]. simpl in *.
  destruct IH as [Hok2 Hb]. split; [done|]. apply Forall_app. split; [done|].
  by rewrite Hi1 in Hb.
Qed.

Lemma reject_fetch_ok chunks w : worker_ok cfg chunks w → worker_ok cfg chunks (reject_fetch w).
Proof. unfold reject_fetch. by destruct w as [c [i|i e]| |e]. Qed.

Lemma abort_reactions_ok t :
  requests_ok cfg t →
  requests_ok cfg (abort_reactions cfg t).1 ∧
  Item.totalChunks (item (abort_reactions cfg t).1) = Item.totalChunks (item t) ∧
  Forall (chunk_call_ok cfg (Item.totalChunks (item t))) (abort_reactions cfg t).2.
Proof.
  intros Hok. unfold abort_reactions.
  destruct (pc t); try (by apply requests_noop); try (by apply catch_block_ok).
  apply then_after_workers_ok. rewrite abort_fold_spec. simpl.
  destruct Hok as [Hws Hchunks]. split; [|by split]. split; [|done]. simpl.
  apply Forall_fmap. eapply Forall_impl; [exact Hws|]. intros w. apply reject_fetch_ok.
Qed.

Lemma local_step_requests_ok e t t' a :
  requests_ok cfg t → local_step cfg e t = (t', a) →
  requests_ok cfg t' ∧ Item.totalChunks (item t') = Item.totalChunks (item t) ∧
  Forall (chunk_call_ok cfg (Item.totalChunks (item t))) a.
Proof.
  intros Hok.
  assert (∀ it, Item.totalChunks it = Item.totalChunks (item t) →
    ∀ p reg ab a,
      Forall (chunk_call_ok cfg (Item.totalChunks (item t))) a →
      requests_ok cfg (with_pc p (with_registered reg (with_aborted ab (with_item it t)))) ∧
      Item.totalChunks it = Item.totalChunks (item t) ∧
      Forall (chunk_call_ok cfg (Item.totalChunks (item t))) a) as Hitem.
  { intros it Hit p reg ab a0 Ha0. destruct Hok as [H1 H2].
    split; [split; simpl; [done|by rewrite Hit]|]. by split. }
  destruct e as [| | |r|r|w r|w|r]; simpl.
  - unfold processFile_start. intros [= <- <-].
    apply (Hitem (Item.set_status checking (item t)) eq_refl AwaitMD5 true false).
    by repeat constructor.
  - unfold cancelUpload_item.
    destruct (Item.status (item t)); try (intros [= <- <-]; by apply requests_noop).
    all: try (intros [= <- <-];
              apply (Hitem (Item.set_status cancelled (item t)) eq_refl (pc t)
                       (registered t) (aborted t)); by repeat constructor).
    all: destruct (registered t);
      [|intros [= <- <-];
        apply (Hitem (Item.set_status cancelled (item t)) eq_refl (pc t)
                 (registered t) (aborted t)); by repeat constructor].
    all: match goal with |- context [abort_reactions cfg ?x] =>
           assert (requests_ok cfg x) as Hx
             by (apply (Hitem (Item.set_status cancelled (item t)) eq_refl (pc t) false true []);
                 constructor);
           pose proof (abort_reactions_ok x Hx) as (H1 & H2 & H3);
           destruct (abort_reactions cfg x) as [t1 a1] end.
    all: intros [= <- <-]; split; [done|]; split; [done|]; by constructor.
  - unfold destroy_item. destruct (registered t); [|intros [= <- <-]; by apply requests_noop].
    match goal with |- context [abort_reactions cfg ?x] =>
      assert (requests_ok cfg x) as Hx
        by (apply (Hitem (item t) eq_refl (pc t) false true []); constructor);
      pose proof (abort_reactions_ok x Hx) as H;
      destruct (abort_reactions cfg x) as [t1 a1] end.
    by intros [= <- <-].
  - unfold md5_settled. destruct (pc t) eqn:Hpc; try (intros [= <- <-]; by apply requests_noop).
    destruct r as [md5|e].
    + unfold call_checkFile. simpl. destruct (aborted t) eqn:Hab.
      * unfold catch_block. simpl. intros [= <- <-].
        apply (Hitem (Item.set_status cancelled (Item.set_md5 md5 (item t))) eq_refl
                 Done false true). by repeat constructor.
      * intros [= <- <-].
        apply (Hitem (Item.set_md5 md5 (item t)) eq_refl AwaitCheck (registered t) false).
        by repeat constructor.
    + intros H. pose proof (catch_block_ok e t Hok) as Hc. by rewrite H in Hc.
  - unfold check_settled. destruct (pc t) eqn:Hpc;
      try (intros [= <- <-]; by apply requests_noop).
    destruct r as [response|e];
      [|intros H; pose proof (catch_block_ok e t Hok) as Hc; by rewrite H in Hc].
    destruct (negb (resp_ok response));
      [intros H; pose proof (catch_block_ok (http_error (resp_status response)) t Hok) as Hc;
       by rewrite H in Hc|].
    destruct (CheckResult.exists_ _).
    { unfold finish_success. intros [= <- <-].
      apply (Hitem (Item.set_progress 100 (Item.set_status success (item t))) eq_refl
               Done false (aborted t)). by repeat constructor. }
    set (up := CheckResult.uploadedChunks (resp_json response)).
    assert (requests_ok cfg (with_item (Item.set_uploadedChunks up (item t)) t)) as Hok'.
    { destruct Hok as [H1 H2]. by split. }
    destruct (filter _ _) as [|c0 chunks] eqn:Hf.
    { unfold call_mergeFile. simpl. destruct (aborted t) eqn:Hab.
      - intros H. pose proof (catch_block_ok AbortError _ Hok') as Hc.
        by rewrite H in Hc.
      - intros [= <- <-]. destruct Hok as [H1 H2].
        split; [by split|]. split; [done|]. by repeat constructor. }
    unfold uploadChunksWithConcurrency.
    match goal with |- context [spawn_workers ?n ?x] =>
      assert (requests_ok cfg x) as Hok0;
      [|pose proof (spawn_workers_ok n x Hok0) as [Hok1 Ha1];
        destruct (spawn_workers n x) as [t1 a1] eqn:Hspawn] end.
    { split; simpl; [constructor|]. rewrite <- Hf. apply Forall_forall.
      intros c [_ Hc%elem_of_seq]%list_elem_of_filter. lia. }
    apply spawn_workers_spec in Hspawn as (Hitem1 & _).
    pose proof (after_workers_requests (with_pc AwaitWorkers t1)) as (Hw2 & Hc2 & Ht2 & Ha2).
    destruct (after_workers _) as [t2 b]. intros [= <- <-]. simpl in *.
    rewrite Hitem1 in *. simpl in *. destruct Hok1 as [Hws1 Hch1].
    split; [|split].
    + split; rewrite ?Hw2, ?Hc2, ?Ht2; [done|]. by rewrite Hitem1 in Hch1.
    + done.
    + constructor; [done|]. by apply Forall_app.
  - intros H. pose proof (then_after_workers_ok (chunk_settled cfg w r) t
                            (chunk_settled_ok w r t Hok)) as Hx. by rewrite H in Hx.
  - intros H. pose proof (then_after_workers_ok (timer_fired cfg w) t
                            (timer_fired_ok w t Hok)) as Hx. by rewrite H in Hx.
  - unfold merge_settled. destruct (pc t) eqn:Hpc;
      try (intros [= <- <-]; by apply requests_noop).
    destruct r as [response|e];
      [|intros H; pose proof (catch_block_ok e t Hok) as Hc; by rewrite H in Hc].
    destruct (negb (resp_ok response));
      [intros H; pose proof (catch_block_ok (http_error (resp_status response)) t Hok) as Hc;
       by rewrite H in Hc|].
    unfold finish_success. intros [= <- <-].
    apply (Hitem (Item.set_progress 100 (Item.set_status success (item t))) eq_refl
             Done false (aborted t)). by repeat constructor.
Qed.

Lemma treach_requests_ok t0 es acts t :
  requests_ok cfg t0 → treach cfg t0 es acts t →
  requests_ok cfg t ∧ Item.totalChunks (item t) = Item.totalChunks (item t0) ∧
  Forall (chunk_call_ok cfg (Item.totalChunks (item t0))) acts.
Proof.
  intros H0. induction 1 as [|es acts t e a t' _ (Hok & Htot & Hacts) _ Hstep]; [by split|].
  destruct (local_step_requests_ok e t t' a Hok Hstep) as (Hok' & Htot' & Ha).
  split; [done|]. split; [congruence|]. apply Forall_app. split; [done|]. by rewrite <- Htot.
Qed.
End Requests.

(** X17. Every chunk request the uploader sends for a file is for a chunk
    index below [totalChunks], in an attempt numbered at most [maxRetries];
    every timer it arms for the file lasts between 1 s and 10 s. *)
Theorem chunk_requests_in_range u log id t :
  reachable u log →
  heap u !! id = Some t →
  (∀ c k, FetchChunk id c k ∈ log →
     c < Item.totalChunks (item t) ∧ k ≤ maxRetries (config u)) ∧
  (∀ ms, SetTimeout id ms ∈ log → (1000 ≤ ms ≤ 10000)%Z).
Proof.
  intros Hr Hl. destruct (reachable_item _ _ _ _ Hr Hl) as (_ & _ & _ & _ & f & es & Hreach).
  assert (requests_ok (config u) (new_task (config u) id f)) as H0 by (split; constructor).
  destruct (treach_requests_ok (config u) _ _ _ _ H0 Hreach) as (_ & Htot & Hacts).
  rewrite <- Htot in Hacts. rewrite Forall_forall in Hacts.
  split.
  - intros c k Hin. by destruct (Hacts _ (actions_of_elem id _ _ Hin eq_refl)).
  - intros ms Hin. exact (Hacts _ (actions_of_elem id _ _ Hin eq_refl)).
Qed.

(** The run in which chunk 0 fails twice. *)
Lemma chunk_requests_in_range_witness :
  FetchChunk 0 0 1 ∈ log_after small_options failing_events ∧
  SetTimeout 0 1000 ∈ log_after small_options failing_events ∧
  ∃ t, heap (state_after small_options failing_events) !! 0 = Some t ∧
    (∀ c k, FetchChunk 0 c k ∈ log_after small_options failing_events →
       c < Item.totalChunks (item t) ∧
       k ≤ maxRetries (config (state_after small_options failing_events))) ∧
    (∀ ms, SetTimeout 0 ms ∈ log_after small_options failing_events →
       (1000 ≤ ms ≤ 10000)%Z).
Proof.
  split; [vm_compute; do 6 apply list_elem_of_further; apply list_elem_of_here|].
  split; [vm_compute; do 5 apply list_elem_of_further; apply list_elem_of_here|].
  eexists. split; [by vm_compute|].
  eapply (chunk_requests_in_range (state_after small_options failing_events)
            (log_after small_options failing_events) 0).
  - apply reachable_after. by vm_compute.
  - by vm_compute.
Defined.


(** * Files that are not in the queue are not dispatched *)

Lemma processQueue_unstarted u u' acts id t :
  processQueue u = (u', acts) →
  heap u !! id = Some t → id ∉ uploadQueue u →
  heap u' !! id = Some t ∧ id ∉ uploadQueue u'.
Proof.
  unfold processQueue. intros Hloop Hl Hq.
  destruct (processQueue_loop_prefix _ _ _ _ Hloop) as (k & Hq' & Hheap).
  split.
  - rewrite Hheap; [done|]. intros Hin. apply Hq.
    rewrite <- (take_drop k (uploadQueue u)). apply elem_of_app. by left.
  - rewrite Hq'. intros Hin. by apply Hq, (elem_of_drop_1 _ k).
Qed.

Lemma on_task_unstarted id0 f u u' acts id t :
  (∀ t, pc t = NotStarted → pc (f t).1 = NotStarted) →
  on_task id0 f u = (u', acts) →
  heap u !! id = Some t → pc t = NotStarted → id ∉ uploadQueue u →
  ∃ t', heap u' !! id = Some t' ∧ pc t' = NotStarted ∧ id ∉ uploadQueue u'.
Proof.
  intros Hf. unfold on_task.
  destruct (heap u !! id0) as [t0|] eqn:Hl0; [|intros [= <- <-]; by eauto].
  pose proof (Hf t0) as Hf0. destruct (f t0) as [t0' a]. simpl in Hf0.
  intros Hon Hl Hpc Hq.
  assert (∃ t', <[id0:=t0']> (heap u) !! id = Some t' ∧ pc t' = NotStarted) as (t' & Hl' & Hpc').
  { destruct (decide (id = id0)) as [->|Hne].
    - exists t0'. rewrite list_lookup_insert_eq by (by eapply lookup_lt_Some).
      split; [done|]. apply Hf0. congruence.
    - exists t. by rewrite list_lookup_insert_ne. }
  destruct (in_flight (pc t0) && negb (in_flight (pc t0'))).
  - destruct (processQueue _) as [u2 b] eqn:Hpq. injection Hon as <- <-.
    destruct (processQueue_unstarted _ _ _ id t' Hpq) as [? ?]; [done|done|by eauto].
  - injection Hon as <- <-. by eauto.
Qed.

Lemma destroy_loop_unstarted ids : ∀ u a u' acts id t,
  foldl (λ '(u, a) id, let '(u, b) := on_task id (destroy_item (config u)) u in (u, a ++ b))
        (u, a) ids = (u', acts) →
  heap u !! id = Some t → pc t = NotStarted → id ∉ uploadQueue u →
  ∃ t', heap u' !! id = Some t' ∧ pc t' = NotStarted ∧ id ∉ uploadQueue u'.
Proof.
  induction ids as [|id0 ids IH]; intros u a u' acts id t; simpl.
  { intros [= <- <-]. by eauto. }
  destruct (on_task id0 (destroy_item (config u)) u) as [u1 b] eqn:Hon.
  intros Hfold Hl Hpc Hq.
  destruct (on_task_unstarted id0 _ u u1 b id t
              (λ t0, local_step_stays_unstarted (config u) LDestroy t0 ltac:(done))
              Hon Hl Hpc Hq) as (t1 & Hl1 & Hpc1 & Hq1).
  by eapply IH.
Qed.

(** A file that is neither dispatched nor in the queue stays so. *)
Lemma step_unstarted u ev u' acts id t :
  step u ev = (u', acts) →
  heap u !! id = Some t → pc t = NotStarted → id ∉ uploadQueue u →
  ∃ t', heap u' !! id = Some t' ∧ pc t' = NotStarted ∧ id ∉ uploadQueue u'.
Proof.
  intros Hstep Hl Hpc Hq. destruct ev; cbn [step] in Hstep.
  - unfold addFiles in Hstep.
    apply (processQueue_unstarted _ _ _ id t) in Hstep as [? ?]; [by eauto| |].
    + simpl. by apply lookup_app_l_Some.
    + simpl. intros [Hin|Hin%elem_of_seq]%elem_of_app; [done|].
      apply lookup_lt_Some in Hl. lia.
  - unfold cancelUpload in Hstep. case_bool_decide; [|simplify_eq; by eauto].
    destruct (heap u !! fileId) as [t0|]; [|simplify_eq; by eauto].
    eapply on_task_unstarted in Hstep; [exact Hstep| |..].
    + intros t1. exact (local_step_stays_unstarted _ LCancel t1 ltac:(done)).
    + by destruct (Item.status (item t0)).
    + done.
    + destruct (Item.status (item t0)); try done.
      simpl. by intros [_ ?]%list_elem_of_filter.
  - unfold destroy in Hstep.
    eapply (destroy_loop_unstarted _ _ _ _ _ id t) in Hstep;
      [exact Hstep|done|done|simpl; by intros ?%elem_of_nil].
  - eapply on_task_unstarted; [|exact Hstep|done..].
    intros t1. exact (local_step_stays_unstarted (config u) (LMD5 r) t1 ltac:(done)).
  - eapply on_task_unstarted; [|exact Hstep|done..].
    intros t1. exact (local_step_stays_unstarted (config u) (LCheck r) t1 ltac:(done)).
  - eapply on_task_unstarted; [|exact Hstep|done..].
    intros t1. exact (local_step_stays_unstarted (config u) (LChunk w r) t1 ltac:(done)).
  - eapply on_task_unstarted; [|exact Hstep|done..].
    intros t1. exact (local_step_stays_unstarted (config u) (LTimer w) t1 ltac:(done)).
  - eapply on_task_unstarted; [|exact Hstep|done..].
    intros t1. exact (local_step_stays_unstarted (config u) (LMerge r) t1 ltac:(done)).
Qed.

Lemma run_unstarted evs : ∀ u u' acts id t,
  Ginv u → run u evs = (u', acts) →
  heap u !! id = Some t → pc t = NotStarted → id ∉ uploadQueue u →
  Forall (λ a, is_network_call a = false) (actions_of id acts).
Proof.
  induction evs as [|ev evs IH]; intros u u' acts id t HG; simpl.
  { intros [= <- <-] _ _ _. constructor. }
  destruct (step u ev) as [u1 a] eqn:Hstep. destruct (run u1 evs) as [u2 b] eqn:Hrun.
  intros [= <- <-] Hl Hpc Hq.
  destruct (step_unstarted _ _ _ _ _ _ Hstep Hl Hpc Hq) as (t1 & Hl1 & Hpc1 & Hq1).
  destruct (step_local u ev u1 a HG Hstep) as (HG1 & _ & Hmoved).
  rewrite actions_of_app. apply Forall_app. split; [|by eapply IH].
  specialize (Hmoved id). rewrite Hl, Hl1 in Hmoved. simpl in Hmoved.
  destruct Hmoved as (t1' & [= <-] & [[_ ->]|(e & Hen & _ & Hlocal)]); [constructor|].
  pose proof (g_tinv _ HG id t Hl) as Hinv.
  eapply (treach_before_fingerprint (config u) t [e] _ t1 Hinv); [|by left].
  apply (treach_snoc _ _ [] [] t e _ t1); [constructor|done|done].
Qed.

(** * [destroy()] *)

Lemma after_workers_registered t :
  registered t = false → registered (after_workers t).1 = false.
Proof. unfold_blocks. intros. by break. Qed.

Lemma destroy_item_unregistered cfg t : registered (destroy_item cfg t).1 = false.
Proof.
  unfold destroy_item. destruct (registered t) eqn:Hreg; [|done].
  unfold abort_reactions. simpl. destruct (pc t); try done.
  unfold then_after_workers. cbv beta. rewrite abort_fold_spec.
  match goal with |- context [after_workers ?x] =>
    pose proof (after_workers_registered x eq_refl) as H; destruct (after_workers x) end.
  done.
Qed.

(** [destroy()] is the step [LDestroy] of every file. *)
Lemma step_destroy u u1 acts :
  Ginv u → step u Destroy = (u1, acts) →
  Ginv u1 ∧ uploadQueue u1 = [] ∧ files u1 = [] ∧ config u1 = config u ∧
  length (heap u1) = length (heap u) ∧
  ∀ id t, heap u !! id = Some t →
    ∃ t1, heap u1 !! id = Some t1 ∧
          local_step (config u) LDestroy t = (t1, actions_of id acts).
Proof.
  intros HG. simpl. unfold destroy.
  match goal with |- foldl _ (?x, _) _ = _ → _ => set (u0 := x) end.
  assert (Ginv u0) as HG0.
  { destruct HG as [[Hwq Hnd Hid] Ht Hc Hb Hk]. constructor; try done.
    constructor; simpl; try done; [by intros ? ?%elem_of_nil|constructor]. }
  intros Hfold.
  destruct (destroy_fold_spec (length (heap u0)) u0 u1 acts HG0)
    as (HG1 & Hq & Hcfg & Hfiles & Hlen & Hview); [done|done|exact Hfold|].
  split; [done|]. split; [done|]. split; [done|]. split; [done|]. split; [done|].
  intros id t Hl. destruct (Hview id) as [Hlt _].
  apply (Hlt ltac:(by eapply lookup_lt_Some) t Hl).
Qed.

(** X18. After [destroy()] the queue and the list of files are empty and
    no file has a controller left, so that [cancelUpload] finds nothing;
    and for every file whose [processFile] call had not settled, whether it
    was in flight or still waiting in the queue, no request is sent any
    more: files in flight are aborted, files that waited are never
    dispatched. *)
Theorem destroy_stops_requests u log u1 acts evs u2 acts' :
  reachable u log →
  step u Destroy = (u1, acts) →
  run u1 evs = (u2, acts') →
  uploadQueue u1 = [] ∧ files u1 = [] ∧
  (∀ id t1, heap u1 !! id = Some t1 → registered t1 = false) ∧
  (∀ id, step u1 (CancelUpload id) = (u1, [])) ∧
  ∀ id t, heap u !! id = Some t → pc t ≠ Done →
    Forall (λ a, is_network_call a = false) (actions_of id (acts ++ acts')).
Proof.
  intros Hr Hstep Hrun. destruct (reachable_inv u log Hr) as [HG _].
  destruct (step_destroy u u1 acts HG Hstep) as (HG1 & Hq & Hfiles & Hcfg & Hlen & Hview).
  split; [done|]. split; [done|]. split; [|split].
  - intros id t1 Hl1.
    destruct (heap u !! id) as [t|] eqn:Hl.
    + destruct (Hview id t Hl) as (t1' & Hl1' & Hlocal). simplify_eq.
      pose proof (destroy_item_unregistered (config u) t) as H. simpl in Hlocal.
      by rewrite Hlocal in H.
    + apply lookup_ge_None in Hl. apply lookup_lt_Some in Hl1. lia.
  - intros id. simpl. unfold cancelUpload. rewrite Hfiles.
    by rewrite bool_decide_eq_false_2 by (by intros ?%elem_of_nil).
  - intros id t Hl Hpc.
    destruct (Hview id t Hl) as (t1 & Hl1 & Hlocal).
    pose proof (g_tinv _ HG id t Hl) as Hinv.
    rewrite actions_of_app. apply Forall_app.
    assert (pc t = NotStarted ∨ pc t ≠ NotStarted) as [Hns|Hstarted]
      by (destruct (pc t); auto).
    + rewrite (notstarted_noop _ LDestroy t Hinv Hns) in Hlocal by done.
      injection Hlocal as <- <-. split; [constructor|].
      eapply (run_unstarted evs u1 u2 acts' id t HG1 Hrun Hl1 Hns).
      rewrite Hq. by intros ?%elem_of_nil.
    + assert (in_flight (pc t) = true) as Hfl by (by destruct (pc t)).
      assert (aborted t1 = true ∧ Forall (λ a, is_network_call a = false) (actions_of id acts))
        as [Hab1 Hsilent].
      { revert Hlocal. simpl. unfold destroy_item. destruct (registered t) eqn:Hreg.
        - match goal with |- context [abort_reactions ?c ?x] =>
            pose proof (abort_reactions_silent c x eq_refl) as [Hs Hab];
            destruct (abort_reactions c x) as [t2 a2] end.
          by intros [= <- <-].
        - intros [= <- <-]. split; [|constructor].
          destruct (inv_handle _ _ Hinv Hfl); congruence. }
      split; [done|].
      assert (pc t1 ≠ NotStarted) as Hpc1.
      { apply local_step_pc in Hlocal as (_ & _ & _ & Hrank); [|done].
        destruct (pc t), (pc t1); simpl in *; done || lia. }
      destruct (run_history _ _ _ _ _ _ HG1 Hl1 Hrun) as (_ & _ & t2 & es & _ & Hreach & _).
      by destruct (treach_aborted _ _ _ _ _ Hpc1 Hab1 Hreach) as (_ & _ & ?).
Qed.

(** Four files, three in flight and one waiting, the first with its check
    request out; then [destroy()], and later an answer and a fingerprint
    arrive. *)
Lemma destroy_stops_requests_witness :
  let evs := [AddFiles [five_bytes; five_bytes; five_bytes; five_bytes];
              MD5Settled 0 (Fulfilled "900150983cd24fb0d6963f7d28e17f72")] in
  let u := state_after sample_options evs in
  let later := [CheckSettled 0 (check_answer false []);
                MD5Settled 1 (Fulfilled "900150983cd24fb0d6963f7d28e17f72")] in
  uploadQueue u = [3] ∧ (pc <$> heap u) = [AwaitCheck; AwaitMD5; AwaitMD5; NotStarted] ∧
  uploadQueue (step u Destroy).1 = [] ∧ files (step u Destroy).1 = [] ∧
  (∀ id t1, heap (step u Destroy).1 !! id = Some t1 → registered t1 = false) ∧
  (∀ id, step (step u Destroy).1 (CancelUpload id) = ((step u Destroy).1, [])) ∧
  ∀ id t, heap u !! id = Some t → pc t ≠ Done →
    Forall (λ a, is_network_call a = false)
      (actions_of id ((step u Destroy).2 ++ (run (step u Destroy).1 later).2)).
Proof.
  intros evs u later. split; [by vm_compute|]. split; [by vm_compute|].
  apply (destroy_stops_requests u (log_after sample_options evs)
           (step u Destroy).1 (step u Destroy).2 later
           (run (step u Destroy).1 later).1 (run (step u Destroy).1 later).2).
  - apply reachable_after. by vm_compute.
  - apply surjective_pairing.
  - apply surjective_pairing.
Defined.


(** * One check request and one merge request *)

Lemma check_calls_app a b : check_calls (a ++ b) = check_calls a + check_calls b.
Proof. unfold check_calls. by rewrite List.filter_app, length_app. Qed.

Lemma merge_calls_app a b : merge_calls (a ++ b) = merge_calls a + merge_calls b.
Proof. unfold merge_calls. by rewrite List.filter_app, length_app. Qed.

Lemma check_calls_pos a : 1 ≤ check_calls a → ∃ id m f, FetchCheck id m f ∈ a.
Proof.
  induction a as [|x a IH]; [cbv; lia|]. unfold check_calls. simpl.
  destruct x; simpl; try (intros H; destruct (IH H) as (i & m & f & ?);
                           exists i, m, f; by right).
  intros _. eexists _, _, _. by left.
Qed.

Lemma merge_calls_pos a : 1 ≤ merge_calls a → ∃ id m f n, FetchMerge id m f n ∈ a.
Proof.
  induction a as [|x a IH]; [cbv; lia|]. unfold merge_calls. simpl.
  destruct x; simpl; try (intros H; destruct (IH H) as (i & m & f & n & ?);
                           exists i, m, f, n; by right).
  intros _. eexists _, _, _, _. by left.
Qed.

Lemma merge_calls_none a : Forall (λ x, is_merge_call x = false) a → merge_calls a = 0.
Proof.
  induction 1 as [|x a Hx _ IH]; [done|]. unfold merge_calls in *. simpl. by rewrite Hx.
Qed.

Lemma check_calls_none a :
  Forall (λ x, match x with FetchCheck _ _ _ => False | _ => True end) a → check_calls a = 0.
Proof.
  induction 1 as [|x a Hx _ IH]; [done|]. unfold check_calls in *. simpl.
  by destruct x.
Qed.

Lemma silent_calls a :
  Forall (λ x, is_network_call x = false) a → check_calls a = 0 ∧ merge_calls a = 0.
Proof.
  induction 1 as [|x a Hx _ [IH1 IH2]]; [done|]. unfold check_calls, merge_calls in *. simpl.
  by destruct x.
Qed.

Lemma calls_cons_update it a :
  check_calls (UpdateFileStatus it :: a) = check_calls a ∧
  merge_calls (UpdateFileStatus it :: a) = merge_calls a.
Proof. done. Qed.

Section Once.
Variable cfg : Config.

Lemma after_workers_merge_calls t : merge_calls (after_workers t).2 ≤ 1.
Proof. unfold_blocks. break; cbv; lia. Qed.

Lemma worker_step_calls f t :
  Forall (λ x, match x with FetchCheck _ _ _ => False | _ => True end) (f t).2 →
  Forall (λ x, is_merge_call x = false) (f t).2 →
  check_calls (then_after_workers f t).2 ≤ 1 ∧ merge_calls (then_after_workers f t).2 ≤ 1.
Proof.
  intros Hc Hm.
  pose proof (then_after_workers_no_check f t Hc) as Hc'.
  split; [rewrite (check_calls_none _ Hc'); lia|].
  unfold then_after_workers. destruct (f t) as [t1 a1].
  pose proof (after_workers_merge_calls t1) as Ha.
  destruct (after_workers t1) as [t2 b]. simpl in *.
  rewrite merge_calls_app, (merge_calls_none a1 Hm). lia.
Qed.

(** No step sends two check requests or two merge requests. *)
Lemma local_step_calls e t t' a :
  local_step cfg e t = (t', a) → check_calls a ≤ 1 ∧ merge_calls a ≤ 1.
Proof.
  destruct e as [| | |r|r|w r|w|r]; simpl.
  - unfold processFile_start. intros [= <- <-]. cbv. lia.
  - unfold cancelUpload_item.
    destruct (Item.status (item t)); try (intros [= <- <-]; cbv; lia).
    all: destruct (registered t); [|intros [= <- <-]; cbv; lia].
    all: match goal with |- context [abort_reactions cfg ?x] =>
           pose proof (abort_reactions_silent cfg x eq_refl) as [Hs _];
           destruct (abort_reactions cfg x) as [t1 a1] end.
    all: intros [= <- <-]; apply silent_calls in Hs as [H1 H2]; simpl in H1, H2.
    all: match goal with |- context [UpdateFileStatus ?it :: ?a] =>
           destruct (calls_cons_update it a) as [-> ->] end; lia.
  - unfold destroy_item. destruct (registered t); [|intros [= <- <-]; cbv; lia].
    match goal with |- context [abort_reactions cfg ?x] =>
      pose proof (abort_reactions_silent cfg x eq_refl) as [Hs _];
      destruct (abort_reactions cfg x) as [t1 a1] end.
    intros [= <- <-]; apply silent_calls in Hs as [H1 H2]. simpl in *. lia.
  - unfold_blocks. intros. break; cbv; lia.
  - unfold check_settled.
    destruct (pc t); try (intros [= <- <-]; cbv; lia).
    destruct r as [response|e]; [|unfold_blocks; intros; break; cbv; lia].
    destruct (negb (resp_ok response)); [unfold_blocks; intros; break; cbv; lia|].
    destruct (CheckResult.exists_ _); [unfold_blocks; intros; break; cbv; lia|].
    destruct (filter _ _) as [|c0 chunks]; [unfold_blocks; intros; break; cbv; lia|].
    unfold uploadChunksWithConcurrency.
    match goal with |- context [spawn_workers ?n ?x] =>
      pose proof (spawn_workers_no_merge n x) as Hs;
      pose proof (spawn_workers_no_check n x) as Hc;
      destruct (spawn_workers n x) as [t1 a1] end.
    pose proof (after_workers_merge_calls (with_pc AwaitWorkers t1)) as Ha.
    pose proof (after_workers_no_check (with_pc AwaitWorkers t1)) as Hb.
    destruct (after_workers _) as [t2 b]. intros [= <- <-]. simpl in *.
    split.
    + rewrite (check_calls_none (_ :: a1 ++ b)); [lia|].
      constructor; [done|]. by apply Forall_app.
    + change (merge_calls (UpdateFileStatus (Item.set_status uploading
                (Item.set_uploadedChunks (CheckResult.uploadedChunks (resp_json response))
                   (item t))) :: a1 ++ b)) with (merge_calls (a1 ++ b)).
      rewrite merge_calls_app, (merge_calls_none a1 Hs). lia.
  - intros Hstep.
    pose proof (worker_step_calls (chunk_settled cfg w r) t
                  (chunk_settled_no_check cfg w r t) (chunk_settled_no_merge cfg w r t)) as H.
    by rewrite Hstep in H.
  - intros Hstep.
    pose proof (worker_step_calls (timer_fired cfg w) t
                  (timer_fired_no_check cfg w t) (timer_fired_no_merge cfg w t)) as H.
    by rewrite Hstep in H.
  - unfold_blocks. intros. break; cbv; lia.
Qed.

Lemma after_workers_merge_origin t id m f n :
  FetchMerge id m f n ∈ (after_workers t).2 → pc t = AwaitWorkers.
Proof. unfold after_workers. destruct (pc t); try done; simpl; intros Hin; by in_list. Qed.

(** The merge request is sent when the check is answered or when the last
    worker is done. *)
Lemma local_step_merge_origin e t t' a id m f n :
  local_step cfg e t = (t', a) → FetchMerge id m f n ∈ a →
  pc t = AwaitCheck ∨ pc t = AwaitWorkers.
Proof.
  assert (∀ l, Forall (λ x, is_network_call x = false) l → FetchMerge id m f n ∈ l → False)
    as Hsilent.
  { intros l Hl Hin. rewrite Forall_forall in Hl. by apply Hl in Hin. }
  assert (∀ g w, (∀ t t1 a, g t = (t1, a) → (t1 = t ∧ a = []) ∨ worker_event w t t1) →
            Forall (λ x, is_merge_call x = false) (g t).2 →
            then_after_workers g t = (t', a) → FetchMerge id m f n ∈ a →
            pc t = AwaitCheck ∨ pc t = AwaitWorkers) as Hworker.
  { intros g w Hspec Hno. unfold then_after_workers.
    destruct (g t) as [t1 a1] eqn:Hg. apply Hspec in Hg.
    pose proof (after_workers_merge_origin t1 id m f n) as Hor.
    destruct (after_workers t1) as [t2 b]. intros [= <- <-] [Hin|Hin]%elem_of_app.
    - by apply no_merge_call_in in Hin.
    - right. rewrite <- (Hor Hin).
      destruct Hg as [[-> _]|(c & p & x & _ & _ & ? & _)]; done. }
  destruct e as [| | |r|r|w r|w|r]; simpl.
  - unfold processFile_start. intros [= <- <-] Hin. by in_list.
  - unfold cancelUpload_item. destruct (Item.status (item t));
      try (intros [= <- <-] Hin; by in_list).
    all: destruct (registered t); [|intros [= <- <-] Hin; by in_list].
    all: match goal with |- context [abort_reactions cfg ?x] =>
           pose proof (abort_reactions_silent cfg x eq_refl) as [Hs _];
           destruct (abort_reactions cfg x) as [t1 a1] end.
    all: intros [= <- <-] Hin; apply elem_of_cons in Hin as [?|Hin]; [done|].
    all: by apply Hsilent in Hin.
  - unfold destroy_item. destruct (registered t); [|intros [= <- <-] Hin; by in_list].
    match goal with |- context [abort_reactions cfg ?x] =>
      pose proof (abort_reactions_silent cfg x eq_refl) as [Hs _];
      destruct (abort_reactions cfg x) as [t1 a1] end.
    intros [= <- <-] Hin. by apply Hsilent in Hin.
  - unfold_blocks. intros. break; by in_list.
  - unfold check_settled. destruct (pc t); try (intros [= <- <-] Hin; by in_list).
    intros _ _. by left.
  - apply (Hworker _ w); [apply chunk_settled_spec|apply chunk_settled_no_merge].
  - apply (Hworker _ w); [apply timer_fired_spec|apply timer_fired_no_merge].
  - unfold_blocks. intros. break; by in_list.
Qed.

(** The check request is sent at most once, the merge request at most
    once. *)
Lemma treach_calls t0 es acts t :
  pc t0 = NotStarted → treach cfg t0 es acts t →
  check_calls acts ≤ 1 ∧ merge_calls acts ≤ 1 ∧
  (1 ≤ check_calls acts → 2 ≤ pc_rank (pc t)) ∧
  (1 ≤ merge_calls acts → 4 ≤ pc_rank (pc t)).
Proof.
  intros Hpc0. induction 1 as [|es acts t e a t' Hreach (IH1 & IH2 & IH3 & IH4) Hen Hstep].
  { cbv. lia. }
  pose proof (local_step_rank cfg e t t' a Hen Hstep) as Hrank.
  destruct (local_step_calls e t t' a Hstep) as [Hc Hm].
  rewrite check_calls_app, merge_calls_app.
  assert (1 ≤ check_calls a → pc_rank (pc t) ≤ 1 ∧ 2 ≤ pc_rank (pc t')) as Hc1.
  { intros (i & m & f & Hin)%check_calls_pos.
    destruct (local_step_check_call cfg e t t' a i m f Hstep Hin) as [-> ->]. simpl. lia. }
  assert (1 ≤ merge_calls a → pc_rank (pc t) ≤ 3 ∧ 4 ≤ pc_rank (pc t')) as Hm1.
  { intros (i & m & f & n & Hin)%merge_calls_pos.
    destruct (local_step_merge_call cfg e t t' a i m f n Hstep Hin) as (Hpc' & _).
    rewrite Hpc'. simpl. split; [|lia].
    destruct (local_step_merge_origin e t t' a i m f n Hstep Hin) as [-> | ->]; simpl; lia. }
  lia.
Qed.
End Once.

(** X19. For every file the uploader sends at most one check request and
    at most one merge request, whatever the answers are and however often
    answers arrive: the merge of a file is never requested twice. *)
Theorem check_and_merge_at_most_once u log id :
  reachable u log →
  check_calls (actions_of id log) ≤ 1 ∧ merge_calls (actions_of id log) ≤ 1.
Proof.
  intros Hr. destruct (heap u !! id) as [t|] eqn:Hl.
  - destruct (reachable_item _ _ _ _ Hr Hl) as (_ & _ & _ & _ & f & es & Hreach).
    assert (pc (new_task (config u) id f) = NotStarted) as Hpc by done.
    by destruct (treach_calls _ _ _ _ _ Hpc Hreach) as (? & ? & _).
  - destruct Hr as (options & u0 & evs & Hc & Hrun).
    destruct (constructor_inv options u0 Hc) as (HG0 & Hheap & _).
    destruct (run_local evs u0 u log HG0 Hrun) as (_ & _ & Hhist).
    specialize (Hhist id). rewrite Hheap, Hl in Hhist. simpl in Hhist.
    destruct Hhist as [[_ ->]|(f & t' & es & ? & _)]; [cbv; lia|done].
Qed.

(** The resume scenario to its end, with the merge answer delivered
    twice. *)
Lemma check_and_merge_at_most_once_witness :
  let log := log_after sample_options
               (merging_events ++ [MergeSettled 0 (merge_answer true 200 true);
                                   MergeSettled 0 (merge_answer true 200 true)]) in
  check_calls (actions_of 0 log) = 1 ∧ merge_calls (actions_of 0 log) = 1 ∧
  check_calls (actions_of 0 log) ≤ 1 ∧ merge_calls (actions_of 0 log) ≤ 1.
Proof.
  intros log. split; [by vm_compute|]. split; [by vm_compute|].
  apply (check_and_merge_at_most_once
           (state_after sample_options
              (merging_events ++ [MergeSettled 0 (merge_answer true 200 true);
                                  MergeSettled 0 (merge_answer true 200 true)])) log 0).
  apply reachable_after. by vm_compute.
Defined.

(** * What [addFiles] fixes *)

(** X20. The fields [addFiles] computes for a file stay as they are: at
    every time the item of a file has the id under which it is stored, the
    name and the size of its file, and
    [totalChunks = Math.ceil(size / chunkSize)]; and no operation, not even
    [destroy()], makes the uploader forget the item of a running
    [processFile] call. *)
Theorem item_fields_are_fixed u log id t evs u' acts :
  reachable u log →
  heap u !! id = Some t →
  run u evs = (u', acts) →
  Item.id (item t) = id ∧
  Item.name (item t) = file_name (Item.file (item t)) ∧
  Item.size (item t) = file_size (Item.file (item t)) ∧
  Item.totalChunks (item t)
  = N.to_nat (Math_ceil_div (file_size (Item.file (item t))) (chunkSize (config u))) ∧
  ∃ t', heap u' !! id = Some t' ∧ config u' = config u ∧
        Item.id (item t') = id ∧ Item.file (item t') = Item.file (item t) ∧
        Item.name (item t') = Item.name (item t) ∧ Item.size (item t') = Item.size (item t) ∧
        Item.totalChunks (item t') = Item.totalChunks (item t).
Proof.
  intros Hr Hl Hrun.
  destruct (reachable_item _ _ _ _ Hr Hl) as (HG & _ & Hid & _ & f & es & Hreach).
  pose proof (treach_steady _ _ _ _ _ Hreach) as (_ & Hfile & Hname & Hsize & Htot).
  simpl in *. split; [done|]. split; [by rewrite Hname, Hfile|].
  split; [by rewrite Hsize, Hfile|]. split; [by rewrite Htot, Hfile|].
  destruct (run_history _ _ _ _ _ _ HG Hl Hrun) as (_ & Hcfg & t' & es' & Hl' & Hreach' & _).
  pose proof (treach_steady _ _ _ _ _ Hreach') as (Hid' & Hfile' & Hname' & Hsize' & Htot').
  exists t'. split; [done|]. split; [done|]. split; [congruence|]. done.
Qed.

(** A file of five bytes in chunks of two, before and after its upload. *)
Lemma item_fields_are_fixed_witness :
  let u := state_after sample_options [AddFiles [five_bytes]] in
  let evs := [MD5Settled 0 (Fulfilled "900150983cd24fb0d6963f7d28e17f72");
              CheckSettled 0 (check_answer true []); Destroy] in
  ∃ t, heap u !! 0 = Some t ∧ Item.totalChunks (item t) = 3 ∧
    Item.id (item t) = 0 ∧
    Item.name (item t) = file_name (Item.file (item t)) ∧
    Item.size (item t) = file_size (Item.file (item t)) ∧
    Item.totalChunks (item t)
    = N.to_nat (Math_ceil_div (file_size (Item.file (item t))) (chunkSize (config u))) ∧
    ∃ t', heap (run u evs).1 !! 0 = Some t' ∧ config (run u evs).1 = config u ∧
          Item.id (item t') = 0 ∧ Item.file (item t') = Item.file (item t) ∧
          Item.name (item t') = Item.name (item t) ∧ Item.size (item t') = Item.size (item t) ∧
          Item.totalChunks (item t') = Item.totalChunks (item t).
Proof.
  intros u evs. eexists. split; [by vm_compute|]. split; [by vm_compute|].
  eapply (item_fields_are_fixed u (log_after sample_options [AddFiles [five_bytes]]) 0 _ evs
            (run u evs).1 (run u evs).2).
  - apply reachable_after. by vm_compute.
  - by vm_compute.
  - apply surjective_pairing.
Defined.

(** * The constructor *)

(** X21. The constructor throws exactly when one of the three endpoints is
    missing or empty.  Otherwise every numeric option that is absent or 0
    takes its default, so that no uploader has a chunk size of 0 or a bound
    of 0; in particular retries cannot be switched off: [maxRetries: 0]
    gives 3. *)
Theorem constructor_options options :
  ((∃ e, constructor options = inl e) ↔
   falsy_endpoint (opt_checkEndpoint options) ∨ falsy_endpoint (opt_chunkEndpoint options)
   ∨ falsy_endpoint (opt_mergeEndpoint options)) ∧
  ∀ u, constructor options = inr u →
    (0 < chunkSize (config u))%N ∧ 1 ≤ concurrentFiles (config u) ∧
    1 ≤ concurrentChunks (config u) ∧ 1 ≤ maxRetries (config u) ∧
    (opt_chunkSize options = None ∨ opt_chunkSize options = Some 0%N →
     chunkSize (config u) = (2 * 1024 * 1024)%N) ∧
    (opt_maxRetries options = None ∨ opt_maxRetries options = Some 0 →
     maxRetries (config u) = 3) ∧
    (∀ n, opt_maxRetries options = Some (S n) → maxRetries (config u) = S n) ∧
    uploadQueue u = [] ∧ files u = [] ∧ uploadingCount u = 0 ∧ heap u = [].
Proof.
  unfold constructor, configure, falsy_endpoint, truthy_string.
  destruct (opt_checkEndpoint options) as [[|c1 s1]|],
    (opt_chunkEndpoint options) as [[|c2 s2]|],
    (opt_mergeEndpoint options) as [[|c3 s3]|]; simpl;
    (split; [split; [intros [e He]; try done; auto
                    |intros Hf; try (by eexists);
                     destruct Hf as [[?|?]|[[?|?]|[?|?]]]; done]|]);
    intros u Hu; try done.
  injection Hu as <-. simpl. unfold or_N, or_nat.
  destruct (opt_chunkSize options) as [[|p]|], (opt_concurrentFiles options) as [[|n1]|],
    (opt_concurrentChunks options) as [[|n2]|], (opt_maxRetries options) as [[|n3]|];
    repeat split; try done; try lia; try (intros [?|?]; done); try (by intros ? [= <-]).
Qed.

(** Retries switched off in the options, and a chunk size of 0. *)
Lemma constructor_options_witness :
  let options := mkOptions (Some "/check") (Some "/chunk") (Some "/merge")
                   (Some 0%N) None (Some 2) (Some 0) in
  ∃ u, constructor options = inr u ∧
       chunkSize (config u) = (2 * 1024 * 1024)%N ∧ maxRetries (config u) = 3 ∧
       concurrentChunks (config u) = 2 ∧ 1 ≤ concurrentFiles (config u).
Proof.
  intros options. eexists. split; [by vm_compute|].
  destruct (proj2 (constructor_options options) _ eq_refl)
    as (_ & Hfiles & _ & _ & Hsize & Hretries & _).
  split; [apply Hsize; by right|]. split; [apply Hretries; by right|].
  split; [by vm_compute|exact Hfiles].
Defined.


(** * What a terminal status can still become *)

Section Final.
Variable cfg : Config.

Lemma first_failed_insert_new ws : ∀ w e,
  w < length ws → first_failed ws = None → first_failed (<[w:=Failed e]> ws) = Some e.
Proof.
  induction ws as [|y ws IH]; intros [|w] e Hw Hff; simpl in *; try lia; try done.
  destruct y; try done; apply IH; try done; lia.
Qed.

Lemma first_failed_reject ws :
  first_failed ws = None →
  first_failed (reject_fetch <$> ws) = None ∨
  first_failed (reject_fetch <$> ws) = Some AbortError.
Proof.
  induction ws as [|y ws IH]; intros Hff; [by left|].
  destruct y as [c [i|i e]| |e]; simpl in *; try done; auto.
Qed.

Lemma promise_all_pending ws : promise_all ws = AllPending → first_failed ws = None.
Proof. unfold promise_all. by destruct (first_failed ws). Qed.

Lemma promise_all_rejected ws e : promise_all ws = AllRejected e → first_failed ws = Some e.
Proof.
  unfold promise_all. destruct (first_failed ws); [congruence|]. by destruct (forallb _ _).
Qed.

(** ** How [processFile] settles *)

Lemma after_workers_settling t :
  (Item.status (item t) = error → pc t = Done) → settling (after_workers t).1.
Proof.
  intros HK. unfold after_workers.
  destruct (pc t) eqn:Hpc;
    try (split; simpl; [intros Hst; apply HK in Hst; congruence|by rewrite Hpc]).
  destruct (promise_all (workers t)) eqn:Hp.
  - split; simpl; [intros Hst; apply HK in Hst; congruence|].
    intros _. by apply promise_all_pending.
  - unfold call_mergeFile, catch_block. simpl.
    destruct (aborted t); simpl; split; simpl; done.
  - unfold catch_block. split; simpl; done.
Qed.

Lemma abort_reactions_settling t : settling t → settling (abort_reactions cfg t).1.
Proof.
  intros [HK HJ]. unfold abort_reactions.
  destruct (pc t) eqn:Hpc;
    try (split; simpl; [intros Hst; apply HK in Hst; congruence|by rewrite Hpc]);
    try (unfold catch_block; split; simpl; done).
  unfold then_after_workers. cbv beta. rewrite abort_fold_spec.
  match goal with |- context [after_workers ?x] =>
    pose proof (after_workers_settling x) as H; destruct (after_workers x) end.
  simpl in *. apply H. intros Hs. apply HK in Hs. congruence.
Qed.

Lemma worker_step_settling f w t t' a :
  (∀ t t1 a, f t = (t1, a) → (t1 = t ∧ a = []) ∨ worker_event w t t1) →
  settling t → then_after_workers f t = (t', a) → settling t'.
Proof.
  intros Hf [HK HJ]. unfold then_after_workers.
  destruct (f t) as [t1 a1] eqn:Hft. apply Hf in Hft.
  pose proof (after_workers_settling t1) as H.
  destruct (after_workers t1) as [t2 b]. intros [= <- <-]. simpl in H. apply H.
  destruct Hft as [[-> _]|(c & p & x & _ & _ & Hpc & _ & _ & _ & _ & _ & Hst & _)]; [done|].
  rewrite Hst, Hpc. done.
Qed.

Lemma local_step_settling e t t' a :
  settling t → local_step cfg e t = (t', a) → settling t'.
Proof.
  intros Hs. pose proof Hs as [HK HJ].
  destruct e as [| | |r|r|w r|w|r]; simpl.
  - unfold processFile_start. intros [= <- <-]. split; simpl; done.
  - unfold cancelUpload_item.
    destruct (Item.status (item t)) eqn:Hst; try (by intros [= <- <-]);
      try (intros [= <- <-]; split; simpl; done).
    all: destruct (registered t); [|intros [= <- <-]; split; simpl; done].
    all: match goal with |- context [abort_reactions cfg ?x] =>
           pose proof (abort_reactions_settling x) as Hx;
           destruct (abort_reactions cfg x) as [t1 a1] end.
    all: intros [= <- <-]; simpl in Hx; apply Hx; split; simpl; done.
  - unfold destroy_item. destruct (registered t); [|by intros [= <- <-]].
    match goal with |- context [abort_reactions cfg ?x] =>
      pose proof (abort_reactions_settling x) as Hx;
      destruct (abort_reactions cfg x) as [t1 a1] end.
    intros [= <- <-]. by apply Hx.
  - unfold md5_settled. destruct (pc t) eqn:Hpc; try (by intros [= <- <-]).
    unfold call_checkFile, catch_block. simpl.
    destruct r as [md5|e]; [destruct (aborted t)|]; intros [= <- <-]; split; simpl; try done.
    intros Hst. apply HK in Hst. congruence.
  - unfold check_settled. destruct (pc t) eqn:Hpc; try (by intros [= <- <-]).
    destruct r as [response|e]; [|unfold catch_block; intros [= <- <-]; split; simpl; done].
    destruct (negb (resp_ok response));
      [unfold catch_block; intros [= <- <-]; split; simpl; done|].
    destruct (CheckResult.exists_ _);
      [unfold finish_success; intros [= <- <-]; split; simpl; done|].
    destruct (filter _ _) as [|c0 chunks].
    { unfold call_mergeFile, catch_block. simpl.
      destruct (aborted t); intros [= <- <-]; split; simpl; try done.
      intros Hst. apply HK in Hst. congruence. }
    unfold uploadChunksWithConcurrency.
    destruct (spawn_workers _ _) as [t1 a1] eqn:Hspawn.
    apply spawn_workers_spec in Hspawn as (Hitem & _).
    pose proof (after_workers_settling (with_pc AwaitWorkers t1)) as H.
    destruct (after_workers _) as [t2 b]. intros [= <- <-]. simpl in *.
    apply H. rewrite Hitem. done.
  - apply (worker_step_settling _ w); [apply chunk_settled_spec|done].
  - apply (worker_step_settling _ w); [apply timer_fired_spec|done].
  - unfold merge_settled. destruct (pc t) eqn:Hpc; try (by intros [= <- <-]).
    unfold catch_block, finish_success.
    destruct r as [response|e]; [destruct (negb (resp_ok response))|];
      intros [= <- <-]; split; simpl; done.
Qed.

Lemma treach_settling t0 es acts t : settling t0 → treach cfg t0 es acts t → settling t.
Proof. intros H0. induction 1; [done|]. by eapply local_step_settling. Qed.

(** ** Steps of a file whose status is terminal *)

(** Once the signal has fired, no worker is in a request: an answer finds
    nobody. *)
Lemma chunk_settled_aborted w r t :
  Forall (λ x, is_fetching x = false) (workers t) → chunk_settled cfg w r t = (t, []).
Proof.
  intros Hnf. unfold chunk_settled.
  destruct (workers t !! w) as [[c [i|i e]| |e]|] eqn:Hw; try done.
  by apply (Forall_lookup_1 _ _ _ _ Hnf) in Hw.
Qed.

(** Once the signal has fired, a worker that wakes from its backoff finds
    it at the start of the next iteration and fails with an
    [AbortError]. *)
Lemma timer_fired_aborted w t :
  aborted t = true → requests_ok cfg t →
  timer_fired cfg w t = (t, []) ∨
  w < length (workers t) ∧ timer_fired cfg w t = (set_worker w (Failed AbortError) t, []).
Proof.
  intros Hab [Hok _]. unfold timer_fired.
  destruct (workers t !! w) as [[c [i|i e]| |e]|] eqn:Hw; try (by left).
  right. split; [by eapply lookup_lt_Some|].
  apply (Forall_lookup_1 _ _ _ _ Hok) in Hw as [Hi _].
  unfold worker_resume, Retry.timer_fired, Retry.for_next, Retry.iteration.
  rewrite Hab. rewrite (proj2 (Nat.leb_le (S i) (maxRetries cfg))) by lia. done.
Qed.

Lemma after_workers_final t :
  (pc t = AwaitWorkers →
   Item.status (item t) = cancelled ∧ aborted t = true ∧
   (first_failed (workers t) = None ∨ first_failed (workers t) = Some AbortError)) →
  Item.status (item (after_workers t).1) = Item.status (item t) ∧
  Item.error (item (after_workers t).1) = Item.error (item t).
Proof.
  intros H. unfold after_workers. destruct (pc t) eqn:Hpc; try done.
  destruct (H eq_refl) as (Hst & Hab & Hff). unfold promise_all.
  destruct Hff as [-> | ->].
  - destruct (forallb _ _); [|done]. rewrite Hab. unfold catch_block. simpl. by rewrite Hst.
  - unfold catch_block. simpl. by rewrite Hst.
Qed.

(** A step of a file whose status is terminal leaves the status and the
    error message as they are, with one exception: a file cancelled while
    its fingerprint was computed becomes [error] when the computation
    fails. *)
Lemma local_step_final e t t' a :
  TInv cfg t → settling t → requests_ok cfg t → enabled e t →
  terminal (Item.status (item t)) = true →
  local_step cfg e t = (t', a) →
  Item.status (item t') = Item.status (item t) ∧ Item.error (item t') = Item.error (item t) ∨
  Item.status (item t) = cancelled ∧ pc t = AwaitMD5 ∧
  ∃ err, e = LMD5 (RejectedWith err) ∧ isAbortError err = false ∧
         Item.status (item t') = error ∧ Item.error (item t') = Some (err_message err).
Proof.
  intros Hinv [HK HJ] Hreq Hen Hterm Hstep.
  destruct (decide (Item.status (item t) = success)) as [Hs|Hns].
  { rewrite (quiet_noop cfg e t (inv_success _ _ Hinv Hs) Hen) in Hstep.
    simplify_eq. by left. }
  assert (in_flight (pc t) = true →
          Item.status (item t) = cancelled ∧ aborted t = true ∧
          pc t ≠ AwaitCheck ∧ pc t ≠ AwaitMerge ∧
          Forall (λ x, is_fetching x = false) (workers t)) as Hfl.
  { intros Hin. pose proof (inv_cancelled _ _ Hinv Hterm Hin) as Hab.
    destruct (inv_aborted _ _ Hinv Hab) as (? & ? & ?).
    split; [|done]. destruct (Item.status (item t)) eqn:Hst; try done.
    rewrite (HK eq_refl) in Hin. done. }
  assert (∀ t1, Item.status (item t1) = Item.status (item t) →
                Item.error (item t1) = Item.error (item t) →
                pc t1 = pc t → aborted t = true → aborted t1 = true →
                (pc t = AwaitWorkers →
                 first_failed (workers t1) = None ∨ first_failed (workers t1) = Some AbortError) →
                Item.status (item (after_workers t1).1) = Item.status (item t) ∧
                Item.error (item (after_workers t1).1) = Item.error (item t)) as Hafter.
  { intros t1 Hst1 Her1 Hpc1 _ Hab1 Hff.
    rewrite <- Hst1, <- Her1. apply after_workers_final.
    rewrite Hpc1. intros Hpc. destruct Hfl as (Hc & _); [by rewrite Hpc|].
    split; [congruence|]. split; [done|]. by apply Hff. }
  destruct e as [| | |r|r|w r|w|r]; simpl in Hstep.
  - destruct Hen as [_ Hst]. by rewrite Hst in Hterm.
  - left. revert Hstep. unfold cancelUpload_item.
    destruct (Item.status (item t)) eqn:Hst; try done; by intros [= <- <-].
  - left. revert Hstep. unfold destroy_item.
    destruct (registered t); [|by intros [= <- <-]].
    unfold abort_reactions. simpl.
    destruct (pc t) eqn:Hpc; try (by intros [= <- <-]).
    + by destruct Hfl as (_ & _ & ? & _).
    + destruct Hfl as (Hc & Hab & _ & _ & Hnf); [done|].
      unfold then_after_workers. cbv beta. rewrite abort_fold_spec.
      match goal with |- context [after_workers ?x] =>
        pose proof (after_workers_final x) as H; destruct (after_workers x) as [t2 b] end.
      intros [= <- <-]. simpl in H. apply H. intros _.
      split; [done|]. split; [done|]. apply first_failed_reject. by apply HJ.
    + by destruct Hfl as (_ & _ & _ & ? & _).
  - revert Hstep. unfold md5_settled.
    destruct (pc t) eqn:Hpc; try (intros [= <- <-]; by left).
    destruct Hfl as (Hc & Hab & _); [done|].
    unfold call_checkFile, catch_block. simpl. rewrite Hab.
    destruct r as [md5|err]; [intros [= <- <-]; left; simpl; by rewrite Hc|].
    destruct (isAbortError err) eqn:Herr; intros [= <- <-]; simpl.
    + left. by rewrite Hc.
    + right. split; [done|]. split; [done|]. by exists err.
  - left. revert Hstep. unfold check_settled.
    destruct (pc t) eqn:Hpc; try (by intros [= <- <-]).
    by destruct Hfl as (_ & _ & ? & _).
  - left. revert Hstep. unfold then_after_workers.
    destruct (chunk_settled cfg w r t) as [t1 a1] eqn:Hcs.
    assert (pc t = AwaitWorkers ∨ pc t ≠ AwaitWorkers) as [Hpc|Hpc]
      by (destruct (pc t); auto).
    + destruct Hfl as (Hc & Hab & _ & _ & Hnf); [by rewrite Hpc|].
      rewrite (chunk_settled_aborted w r t Hnf) in Hcs. injection Hcs as <- <-.
      pose proof (Hafter t eq_refl eq_refl eq_refl Hab Hab) as H.
      destruct (after_workers t) as [t2 b]. intros [= <- <-]. apply H.
      intros _. left. by apply HJ.
    + pose proof (after_workers_final t1) as H.
      destruct (after_workers t1) as [t2 b]. intros [= <- <-]. simpl in H.
      destruct (chunk_settled_spec cfg w r t t1 a1 Hcs)
        as [[-> _]|(c & p & x & _ & _ & Hpc1 & _ & _ & _ & _ & _ & Hst1 & _ & Her1 & _)].
      * apply H. intros ?. done.
      * rewrite <- Hst1, <- Her1. apply H. rewrite Hpc1. intros ?. done.
  - left. revert Hstep. unfold then_after_workers.
    destruct (timer_fired cfg w t) as [t1 a1] eqn:Hcs.
    assert (pc t = AwaitWorkers ∨ pc t ≠ AwaitWorkers) as [Hpc|Hpc]
      by (destruct (pc t); auto).
    + destruct Hfl as (Hc & Hab & _ & _ & Hnf); [by rewrite Hpc|].
      destruct (timer_fired_aborted w t Hab Hreq) as [Heq|[Hw Heq]];
        rewrite Heq in Hcs; injection Hcs as <- <-.
      * pose proof (Hafter t eq_refl eq_refl eq_refl Hab Hab) as H.
        destruct (after_workers t) as [t2 b]. intros [= <- <-]. apply H.
        intros _. left. by apply HJ.
      * pose proof (Hafter (set_worker w (Failed AbortError) t)
                      eq_refl eq_refl eq_refl Hab Hab) as H.
        destruct (after_workers _) as [t2 b]. intros [= <- <-]. apply H.
        intros _. right. simpl. apply first_failed_insert_new; [done|by apply HJ].
    + pose proof (after_workers_final t1) as H.
      destruct (after_workers t1) as [t2 b]. intros [= <- <-]. simpl in H.
      destruct (timer_fired_spec cfg w t t1 a1 Hcs)
        as [[-> _]|(c & p & x & _ & _ & Hpc1 & _ & _ & _ & _ & _ & Hst1 & _ & Her1 & _)].
      * apply H. intros ?. done.
      * rewrite <- Hst1, <- Her1. apply H. rewrite Hpc1. intros ?. done.
  - left. revert Hstep. unfold merge_settled.
    destruct (pc t) eqn:Hpc; try (by intros [= <- <-]).
    by destruct Hfl as (_ & _ & _ & ? & _).
Qed.

Lemma treach_final t es acts t' :
  TInv cfg t → settling t → requests_ok cfg t →
  terminal (Item.status (item t)) = true →
  treach cfg t es acts t' →
  Item.status (item t') = Item.status (item t) ∧ Item.error (item t') = Item.error (item t) ∨
  Item.status (item t) = cancelled ∧ Item.status (item t') = error ∧
  ∃ err, LMD5 (RejectedWith err) ∈ es ∧ isAbortError err = false ∧
         Item.error (item t') = Some (err_message err).
Proof.
  intros Hinv Hset Hreq Hterm Hreach.
  induction Hreach as [|es acts t1 e a t2 Hreach IH Hen Hstep]; [by left|].
  pose proof (treach_inv cfg _ _ _ _ Hinv Hreach) as Hinv1.
  pose proof (treach_settling _ _ _ _ Hset Hreach) as Hset1.
  pose proof (treach_requests_ok cfg _ _ _ _ Hreq Hreach) as (Hreq1 & _).
  pose proof (treach_terminal cfg _ _ _ _ Hinv Hterm Hreach) as Hterm1.
  destruct (local_step_final e t1 t2 a Hinv1 Hset1 Hreq1 Hen Hterm1 Hstep)
    as [[Hst Her]|(Hc1 & _ & err & -> & Herr & Hst & Her)].
  - destruct IH as [[Hst1 Her1]|(Hc & Hst1 & err & Hin & Herr & Her1)].
    + left. split; congruence.
    + right. split; [done|]. split; [congruence|]. exists err.
      split; [apply elem_of_app; by left|]. split; [done|congruence].
  - destruct IH as [[Hst1 _]|(_ & Hst1 & _)]; [|congruence].
    right. split; [congruence|]. split; [done|]. exists err.
    split; [apply elem_of_app; right; apply list_elem_of_here|]. done.
Qed.

End Final.

(** ** Terminal statuses *)

(** C8, amended.  Once the status of a file is [cancelled], [success] or
    [error], [cancelUpload] for the file does nothing at all, and after
    every later run of events: a file that succeeded is unchanged in every
    field and was not announced again; a file in [error] is still in
    [error] with the same message; a cancelled file is still cancelled,
    unless its fingerprint was being computed when it was cancelled and the
    computation failed afterwards, which makes it [error] with the message
    of that failure.  So no file leaves the terminal statuses, and none
    becomes [success] that was not. *)
Theorem terminal_status_is_final u log id it evs u' acts :
  reachable u log →
  item_of u id = Some it →
  terminal (Item.status it) = true →
  run u evs = (u', acts) →
  step u (CancelUpload id) = (u, []) ∧
  ∃ it', item_of u' id = Some it' ∧ terminal (Item.status it') = true ∧
    (Item.status it = success → it' = it ∧ actions_of id acts = []) ∧
    (Item.status it = error →
     Item.status it' = error ∧ Item.error it' = Item.error it) ∧
    (Item.status it = cancelled →
     Item.status it' = cancelled ∧ Item.error it' = Item.error it ∨
     Item.status it' = error ∧
     ∃ e, MD5Settled id (RejectedWith e) ∈ evs ∧ isAbortError e = false ∧
          Item.error it' = Some (err_message e)) ∧
    (Item.status it' = success → Item.status it = success).
Proof.
  unfold item_of at 1. intros Hr (t & Hl & ->)%fmap_Some Hterm Hrun.
  destruct (reachable_item _ _ _ _ Hr Hl) as (HG & Hinv & _ & _ & f & es0 & Hreach0).
  split; [by eapply cancelUpload_terminal|].
  assert (settling t) as Hset.
  { eapply treach_settling; [|exact Hreach0]. split; simpl; done. }
  assert (requests_ok (config u) t) as Hreq.
  { eapply treach_requests_ok; [|exact Hreach0]. split; simpl; constructor. }
  destruct (run_history _ _ _ _ _ _ HG Hl Hrun) as (_ & _ & t' & es & Hl' & Hreach & Hev).
  exists (item t'). split; [unfold item_of; by rewrite Hl'|].
  split; [eapply treach_terminal; [exact Hinv|done|exact Hreach]|].
  pose proof (treach_final _ _ _ _ _ Hinv Hset Hreq Hterm Hreach) as Hfin.
  split; [|split; [|split]].
  - intros Hs. pose proof (inv_success _ _ Hinv Hs) as Hq.
    destruct (quiet_treach _ _ _ _ _ Hq Hreach) as [-> ->]. done.
  - intros He. destruct Hfin as [[Hst Her]|(Hc & _)]; [|congruence].
    split; congruence.
  - intros Hc. destruct Hfin as [[Hst Her]|(_ & Hst & err & Hin & Herr & Her)].
    + left. split; congruence.
    + right. split; [done|]. exists err. split; [|done].
      rewrite Forall_forall in Hev. destruct (Hev _ Hin) as (ev & Hev' & Hfrom).
      simpl in Hfrom. by subst ev.
  - intros Hs. destruct Hfin as [[Hst _]|(_ & Hst & _)]; congruence.
Qed.

(** A file cancelled while its fingerprint is computed; the computation
    fails later on, and the file is cancelled once more. *)
Lemma terminal_status_is_final_witness :
  let u := state_after sample_options cancelled_events in
  let later := [MD5Settled 0 (RejectedWith (Error "The file could not be read"));
                CancelUpload 0] in
  ∃ it, item_of u 0 = Some it ∧ Item.status it = cancelled ∧
    item_of (run u later).1 0
    = Some (Item.set_error "The file could not be read" (Item.set_status error it)) ∧
    step u (CancelUpload 0) = (u, []) ∧
    ∃ it', item_of (run u later).1 0 = Some it' ∧ terminal (Item.status it') = true ∧
      (Item.status it = success → it' = it ∧ actions_of 0 (run u later).2 = []) ∧
      (Item.status it = error →
       Item.status it' = error ∧ Item.error it' = Item.error it) ∧
      (Item.status it = cancelled →
       Item.status it' = cancelled ∧ Item.error it' = Item.error it ∨
       Item.status it' = error ∧
       ∃ e, MD5Settled 0 (RejectedWith e) ∈ later ∧ isAbortError e = false ∧
            Item.error it' = Some (err_message e)) ∧
      (Item.status it' = success → Item.status it = success).
Proof.
  intros u later.
  exists (Item.set_status cancelled (Item.set_status checking (new_item (config u) 0 five_bytes))).
  split; [by vm_compute|]. split; [by vm_compute|]. split; [by vm_compute|].
  apply (terminal_status_is_final u (log_after sample_options cancelled_events)
           0 _ later (run u later).1 (run u later).2).
  - apply reachable_after. by vm_compute.
  - by vm_compute.
  - by vm_compute.
  - apply surjective_pairing.
Defined.
